(** * pge.util: a shallow embedding and its verified properties

    The development follows [pge/util.py]: [concatenate_unique], the scope
    helpers and [placeholder_name], [is_iterable] / [flatten_tree] /
    [transform_tree], [check_graphs] and [get_unique_graph],
    [make_list_of_op] / [make_list_of_t] with [get_generating_ops] and
    [get_consuming_ops], the [ControlOutputs] index,
    [find_corresponding_elem] / [find_corresponding] and the
    attribute-value codec ([python_type_to_attr_value] /
    [attr_value_to_python_type]).

    Python values are an inductive universe [pyobj]; an exception is a
    constructor of [exn]; a call either returns or raises, which is the
    type [outcome].  The recursive tree walkers take the interpreter's
    recursion limit as an explicit bound: running past it is Python's
    [RecursionError]. *)

From Stdlib Require Import String Ascii List ZArith Lia Bool DecimalString.
From stdpp Require Import base option list strings gmap.

Set Warnings "-register-all".
Local Open Scope string_scope.
Local Open Scope list_scope.
Local Open Scope Z_scope.

(* ===================================================================== *)
(** * Definitions *)
(* ===================================================================== *)

(** ** Exceptions and outcomes *)

Inductive exn : Type :=
| ValueError
| TypeError
| KeyError
| AttributeError
| RecursionError
| UnicodeDecodeError.

Inductive outcome (A : Type) : Type :=
| Return (a : A)
| Raise (e : exn).

Arguments Return {A} a.
Arguments Raise {A} e.

#[global] Instance outcome_ret : MRet outcome := fun A a => Return a.

#[global] Instance outcome_bind : MBind outcome := fun A B k m =>
  match m with
  | Return a => k a
  | Raise e => Raise e
  end.

Definition returns {A : Type} (m : outcome A) : Prop := exists a, m = Return a.

(** ** Python strings

    A [str] is a [string]: its text in UTF-8.  Indices and [rfind] results
    are integers, with Python's [-1] for "not found" and Python's clamping
    of slice bounds.  The functions below search for the delimiter ["/"]
    and cut at a delimiter or at the end of a prefix that was matched;
    there an index into the bytes and an index into the characters cut at
    the same place. *)

Definition str_len (s : string) : Z := Z.of_nat (String.length s).

(** [s.startswith(p)] *)
Definition startswith (s p : string) : bool := String.prefix p s.

(** [s.rfind(sub)]: the highest index at which [sub] occurs, or [-1]. *)
Fixpoint str_rfind (s sub : string) : Z :=
  match s with
  | EmptyString => if String.eqb sub EmptyString then 0 else -1
  | String _ s' =>
      let r := str_rfind s' sub in
      if 0 <=? r then r + 1
      else if String.prefix sub s then 0 else -1
  end.

(** A slice bound as Python normalises it against a length. *)
Definition slice_bound (len k : Z) : nat :=
  Z.to_nat (if k <? 0 then Z.max 0 (len + k) else Z.min k len).

Fixpoint str_take (n : nat) (s : string) : string :=
  match n, s with
  | S n', String c s' => String c (str_take n' s')
  | _, _ => EmptyString
  end.

Fixpoint str_drop (n : nat) (s : string) : string :=
  match n, s with
  | S n', String _ s' => str_drop n' s'
  | _, _ => s
  end.

(** [s[:k]] and [s[k:]] *)
Definition slice_to (s : string) (k : Z) : string :=
  str_take (slice_bound (str_len s) k) s.

Definition slice_from (s : string) (k : Z) : string :=
  str_drop (slice_bound (str_len s) k) s.

(** [s[-1]] of a non-empty string ([None] stands for the [IndexError] of
    the empty one, which no caller here can reach). *)
Fixpoint str_last (s : string) : option ascii :=
  match s with
  | EmptyString => None
  | String c EmptyString => Some c
  | String _ s' => str_last s'
  end.

(** [bool(s)] *)
Definition str_truthy (s : string) : bool :=
  match s with EmptyString => false | _ => true end.

(** ["{}".format(n)] of a non-negative integer. *)
Definition format_nat (n : nat) : string :=
  NilEmpty.string_of_uint (Nat.to_uint n).

(** ** Graph elements

    The classes Graph, Node and Tensor ([pge/graph.py], [pge/node.py],
    [pge/tensor.py]) are not among the sources; the three records hold
    what this module reads of them.  Objects are compared by identity in
    the source ([is], and the default hash of dict keys), so a Graph is
    named by its identity and a Node carries one. *)

Definition graph_id := nat.
Definition node_id := nat.

Bind Scope nat_scope with graph_id node_id.

(** Modelled from the spec: a Node has a scoped name, belongs to one Graph
    for good, and holds its control inputs, references to Nodes (here by
    identity, in the order a loop over them visits them). *)
Record Node : Type := mkNode {
  node_ident : node_id;
  node_name : string;
  node_graph : graph_id;
  control_inputs : list node_id
}.

(** Modelled from the spec: a Tensor is a (Node, output-index) pair. *)
Record Tensor : Type := mkTensor {
  tensor_node : Node;
  value_index : nat
}.

(** Modelled from the spec: the state of a Graph object, its version
    counter (incremented on every structural mutation) and its Nodes. *)
Record Graph : Type := mkGraph {
  graph_ident : graph_id;
  version : Z;
  nodes : list Node
}.

(** ** The universe of Python values

    [PList], [PTuple], [PNamedTuple], [PDict] and [PSet] are containers
    written inline; [PRef l] is a reference to the mutable list or dict
    that the store holds at address [l], which is how a container can be
    its own descendant.  [PSet] is a set or a frozenset (or a view of a
    dict), in its iteration order: a collection that is neither a mapping
    nor a sequence; [PType] is a class object.  All of these are values
    of built-in types: [iter()] on them runs no Python code, they have a
    length, which is their truth value, and walking one leaves it as it
    is, so that it can be walked again.  An instance of a user-defined
    class with an [__iter__] of its own is not in this universe; a
    one-shot iterator is an argument of its own kind where a function
    walks its argument ([py_arg]).  A Graph object is kept out of this
    universe: what iterating over one does is decided by [pge/graph.py],
    which is not among the sources, and the functions that are handed a
    Graph test for it first. *)

Definition loc := nat.

Inductive pyclass : Type :=
| C_object
| C_NoneType
| C_int
| C_str
| C_Node
| C_Tensor
| C_list
| C_tuple
| C_namedtuple (cls : string)
| C_dict
| C_set
| C_type.

Inductive pyobj : Type :=
| PNone
| PInt (z : Z)
| PStr (s : string)
| PType (c : pyclass)
| PNode (n : Node)
| PTensor (t : Tensor)
| PList (xs : list pyobj)
| PTuple (xs : list pyobj)
| PNamedTuple (cls : string) (fields : list (string * pyobj))
| PDict (items : list (string * pyobj))
| PSet (xs : list pyobj)
| PRef (l : loc).

Inductive cell : Type :=
| CList (xs : list pyobj)
| CDict (items : list (string * pyobj)).

Definition store := loc -> cell.

(** What a function that walks its argument is handed: a value of the
    universe, or a one-shot iterator (a generator, the result of [iter()],
    [map()] or [filter()]), given by the items it has not handed out yet.
    An iterator is its own [iter()]; it has no length, so it is true as
    every object without one is, also when no item is left; and a [for]
    loop over it takes its items away. *)
Inductive py_arg : Type :=
| Value (o : pyobj)
| Iterator (items : list pyobj).

Coercion Value : pyobj >-> py_arg.

(** ** [concatenate_unique]

    The elements are hashable objects compared by [==]: values of a
    countable type with a decidable equality.  The list [la] is extended
    in place and returned; the result is [la] as the call leaves it. *)

Section ConcatenateUnique.
Context {A : Type} `{Countable A}.

(** The body of the loop, on the pair of [la] and [la_set]. *)
Definition concatenate_unique_step (s : list A * gset A) (l : A) : list A * gset A :=
  if bool_decide (l ∉ s.2) then (s.1 ++ [l], s.2 ∪ {[l]}) else s.

Definition concatenate_unique (la lb : list A) : list A :=
  (fold_left concatenate_unique_step lb (la, list_to_set la)).1.

(** [la] after one item of [lb], told without the set. *)
Definition append_new (la : list A) (l : A) : list A :=
  if bool_decide (l ∈ la) then la else la ++ [l].

End ConcatenateUnique.

(** ** Scope helpers *)

Definition scope_finalize (scope : string) : string :=
  if str_truthy scope && negb (bool_decide (str_last scope = Some "/"%char))
  then scope +:+ "/"
  else scope.

Definition scope_dirname (scope : string) : string :=
  let slash := str_rfind scope "/" in
  if slash =? -1 then "" else slice_to scope (slash + 1).

Definition scope_basename (scope : string) : string :=
  let slash := str_rfind scope "/" in
  if slash =? -1 then scope else slice_from scope (slash + 1).

(** A string without the delimiter. *)
Definition no_slash (s : string) : Prop := str_rfind s "/" = -1.

(** ** [placeholder_name] *)

Definition _DEFAULT_PLACEHOLDER_PREFIX : string := "geph".

Definition placeholder_name (t : pyobj) (scope : option string) (prefix : string)
  : outcome string :=
  let scope := option_map scope_finalize scope in
  match t with
  | PNone =>
      let scope := match scope with None => "" | Some s => s end in
      Return (scope +:+ prefix)
  | PTensor t =>
      let op_dirname := scope_dirname (node_name (tensor_node t)) in
      let op_basename := scope_basename (node_name (tensor_node t)) in
      let scope := match scope with None => op_dirname | Some s => s end in
      let ph_name :=
        if startswith op_basename (prefix +:+ "__") then op_basename
        else prefix +:+ "__" +:+ op_basename +:+ "_" +:+ format_nat (value_index t) in
      Return (scope +:+ ph_name)
  | _ => Raise TypeError
  end.

(** The name [placeholder_name] puts under the scope. *)
Definition ph_local_name (prefix : string) (t : Tensor) : string :=
  let op_basename := scope_basename (node_name (tensor_node t)) in
  if startswith op_basename (prefix +:+ "__") then op_basename
  else prefix +:+ "__" +:+ op_basename +:+ "_" +:+ format_nat (value_index t).

(** ** Types, [isinstance] and iteration *)

#[global] Instance pyclass_eq_dec : EqDecision pyclass.
Proof. solve_decision. Defined.

Definition class_of (st : store) (o : pyobj) : pyclass :=
  match o with
  | PNone => C_NoneType
  | PInt _ => C_int
  | PStr _ => C_str
  | PType _ => C_type
  | PNode _ => C_Node
  | PTensor _ => C_Tensor
  | PList _ => C_list
  | PTuple _ => C_tuple
  | PNamedTuple cls _ => C_namedtuple cls
  | PDict _ => C_dict
  | PSet _ => C_set
  | PRef l => match st l with CList _ => C_list | CDict _ => C_dict end
  end.

(** [issubclass(a, b)]: every class derives from [object], a named tuple
    class from [tuple]. *)
Definition issubclass (a b : pyclass) : bool :=
  bool_decide (a = b) || bool_decide (b = C_object) ||
  match a, b with
  | C_namedtuple _, C_tuple => true
  | _, _ => false
  end.

(** [isinstance(o, c)] for a class [c]. *)
Definition isinstance (st : store) (o : pyobj) (c : pyclass) : bool :=
  issubclass (class_of st o) c.

(** [isinstance(o, info)] where [info] is what the caller passed: a class
    or a tuple, possibly nested, of classes, tried in order until one
    matches; anything else met on the way is a [TypeError]. *)
Fixpoint isinstance_info (st : store) (o : pyobj) (info : pyobj) : outcome bool :=
  match info with
  | PType c => Return (isinstance st o c)
  | PTuple xs =>
      (fix go (xs : list pyobj) : outcome bool :=
         match xs with
         | [] => Return false
         | x :: xs' =>
             isinstance_info st o x ≫= fun ok : bool =>
             if ok then Return true else go xs'
         end) xs
  | _ => Raise TypeError
  end.

(** The characters of a string, each a string of length one. *)
Fixpoint str_chars (s : string) : list pyobj :=
  match s with
  | EmptyString => []
  | String c s' => PStr (String c EmptyString) :: str_chars s'
  end.

(** [list(iter(o))]: the items a [for] loop over [o] visits, or [None]
    when [iter(o)] raises.  A mapping iterates over its keys.  Modelled
    from the spec, for a Tensor: graph elements are the leaves of the
    walkers' trees, so [iter()] fails on a Tensor ([pge/tensor.py] is not
    among the sources); [is_iterable] never asks for a Node. *)
Definition py_iter (st : store) (o : pyobj) : option (list pyobj) :=
  match o with
  | PStr s => Some (str_chars s)
  | PList xs | PTuple xs | PSet xs => Some xs
  | PNamedTuple _ fields => Some (map snd fields)
  | PDict items => Some (map (fun kv => PStr kv.1) items)
  | PRef l =>
      match st l with
      | CList xs => Some xs
      | CDict items => Some (map (fun kv => PStr kv.1) items)
      end
  | PNone | PInt _ | PType _ | PNode _ | PTensor _ => None
  end.

(** [iteritems(d)] of a mapping. *)
Definition dict_items (st : store) (o : pyobj) : list (string * pyobj) :=
  match o with
  | PDict items => items
  | PRef l => match st l with CDict items => items | CList _ => [] end
  | _ => []
  end.

(** [d[k] = v] on the items of a dict: an existing key keeps its place. *)
Fixpoint dict_set (items : list (string * pyobj)) (k : string) (v : pyobj)
  : list (string * pyobj) :=
  match items with
  | [] => [(k, v)]
  | (k', v') :: rest =>
      if String.eqb k' k then (k', v) :: rest else (k', v') :: dict_set rest k v
  end.

(** [dict(pairs)]: the pairs are inserted in order. *)
Definition dict_of_pairs (pairs : list (string * pyobj)) : list (string * pyobj) :=
  fold_left (fun d kv => dict_set d kv.1 kv.2) pairs [].

Fixpoint dict_get (items : list (string * pyobj)) (k : string) : option pyobj :=
  match items with
  | [] => None
  | (k', v) :: rest => if String.eqb k' k then Some v else dict_get rest k
  end.

(** Calling a named tuple class with keyword arguments only: every field
    is taken from the keywords; a missing or an unexpected keyword is a
    [TypeError]. *)
Definition namedtuple_new (cls : string) (field_names : list string)
    (kwargs : list (string * pyobj)) : outcome pyobj :=
  if forallb (fun kv => bool_decide (kv.1 ∈ field_names)) kwargs then
    match mapM (fun f => pair f <$> dict_get kwargs f) field_names with
    | Some fields => Return (PNamedTuple cls fields)
    | None => Raise TypeError
    end
  else Raise TypeError.

(** A [for] loop whose body threads a state and may raise. *)
Fixpoint for_each {A S : Type} (body : A -> S -> outcome S) (xs : list A) (s : S)
  : outcome S :=
  match xs with
  | [] => Return s
  | x :: xs' => s' ← body x s; for_each body xs' s'
  end.

(** A [for] loop over a one-shot iterator: the result is the outcome of
    the loop together with the items left in the iterator, those after
    the item at which the body raised. *)
Fixpoint for_each_iterator {A S : Type} (body : A -> S -> outcome S) (items : list A)
    (s : S) : outcome S * list A :=
  match items with
  | [] => (Return s, [])
  | x :: rest =>
      match body x s with
      | Return s' => for_each_iterator body rest s'
      | Raise e => (Raise e, rest)
      end
  end.

(** A generator expression consumed by a constructor: the items are
    computed in order and the first exception ends it. *)
Fixpoint collect {A B : Type} (f : A -> outcome B) (xs : list A) : outcome (list B) :=
  match xs with
  | [] => Return []
  | x :: xs' => y ← f x; ys ← collect f xs'; Return (y :: ys)
  end.

(** ** [is_iterable], [flatten_tree], [transform_tree] *)

(** [iter(obj)] is tried and [except Exception] turns whatever it raises
    into [False].  On the values of the universe [iter()] runs no Python
    code: it returns, or raises [TypeError] at once, whatever is left of
    the interpreter's stack; so the answer does not depend on the
    recursion limit.  (An [__iter__] written in Python could also fail
    with [RecursionError], which the clause would catch as well; objects
    with one are outside the universe.) *)
Definition is_iterable (st : store) (obj : pyobj) : bool :=
  if isinstance st obj C_Node then false
  else match py_iter st obj with
       | None => false
       | Some _ => true
       end.

(** [collections.Sequence]: lists, tuples and strings are sequences. *)
Definition isinstance_Sequence (st : store) (o : pyobj) : bool :=
  isinstance st o C_list || isinstance st o C_tuple || isinstance st o C_str.

(** The argument [limit] is the number of nested calls the interpreter
    still allows; with none left the call raises [RecursionError].
    [leaves] is the list the caller passed ([None] is a fresh empty list);
    the result is that list after the appends. *)
Fixpoint flatten_tree (limit : nat) (st : store) (tree : pyobj)
    (leaves : option (list pyobj)) : outcome (list pyobj) :=
  match limit with
  | O => Raise RecursionError
  | S limit' =>
      let leaves := match leaves with None => [] | Some l => l end in
      if isinstance st tree C_dict then
        for_each (fun kv leaves => flatten_tree limit' st kv.2 (Some leaves))
                 (dict_items st tree) leaves
      else if is_iterable st tree then
        for_each (fun child leaves => flatten_tree limit' st child (Some leaves))
                 (default [] (py_iter st tree)) leaves
      else Return (leaves ++ [tree])
  end.

(** The constructors [transform_tree] is given as [iterable_type]. *)
Inductive iterable_ctor : Type := ctor_tuple | ctor_list.

Definition construct (c : iterable_ctor) (xs : list pyobj) : pyobj :=
  match c with ctor_tuple => PTuple xs | ctor_list => PList xs end.

(** [fn] is a function of the leaf: it returns a value and has no other
    effect.  In the [collections.Sequence] branch (the name as the Python
    versions of the module's time have it) the result is
    [tree.__new__(type(tree))] initialised by [__init__]: a list takes the
    generated items; a [str] is immutable, its [__init__] is [object]'s and
    ignores the generator, which is never run, so the result is the empty
    string.  A named tuple is rebuilt from the transformed [_asdict()],
    passed as keywords.  Recursive calls do not pass [iterable_type] on:
    they run with the default [tuple]. *)
Fixpoint transform_tree (limit : nat) (st : store) (tree : pyobj)
    (fn : pyobj -> pyobj) (iterable_type : iterable_ctor) : outcome pyobj :=
  match limit with
  | O => Raise RecursionError
  | S limit' =>
      if is_iterable st tree then
        if isinstance st tree C_dict then
          pairs ← collect (fun kv => child ← transform_tree limit' st kv.2 fn ctor_tuple;
                                     Return (kv.1, child))
                          (dict_items st tree);
          Return (PDict (dict_of_pairs pairs))
        else if isinstance st tree C_tuple then
          match tree with
          | PNamedTuple cls fields =>
              d ← transform_tree limit' st (PDict fields) fn ctor_tuple;
              namedtuple_new cls (map fst fields) (dict_items st d)
          | _ =>
              xs ← collect (fun child => transform_tree limit' st child fn ctor_tuple)
                           (default [] (py_iter st tree));
              Return (PTuple xs)
          end
        else if isinstance_Sequence st tree then
          if isinstance st tree C_str then Return (PStr "")
          else
            xs ← collect (fun child => transform_tree limit' st child fn ctor_tuple)
                         (default [] (py_iter st tree));
            Return (PList xs)
        else
          xs ← collect (fun child => transform_tree limit' st child fn ctor_tuple)
                       (default [] (py_iter st tree));
          Return (construct iterable_type xs)
      else Return (fn tree)
  end.

(** [transform_tree] with an [fn] that may raise, which is how
    [find_corresponding] calls it: the walk is the same, and an exception
    of [fn] leaves through every enclosing call. *)
Fixpoint transform_tree_raising (limit : nat) (st : store) (tree : pyobj)
    (fn : pyobj -> outcome pyobj) (iterable_type : iterable_ctor) : outcome pyobj :=
  match limit with
  | O => Raise RecursionError
  | S limit' =>
      if is_iterable st tree then
        if isinstance st tree C_dict then
          pairs ← collect (fun kv =>
                             child ← transform_tree_raising limit' st kv.2 fn ctor_tuple;
                             Return (kv.1, child))
                          (dict_items st tree);
          Return (PDict (dict_of_pairs pairs))
        else if isinstance st tree C_tuple then
          match tree with
          | PNamedTuple cls fields =>
              d ← transform_tree_raising limit' st (PDict fields) fn ctor_tuple;
              namedtuple_new cls (map fst fields) (dict_items st d)
          | _ =>
              xs ← collect (fun child =>
                              transform_tree_raising limit' st child fn ctor_tuple)
                           (default [] (py_iter st tree));
              Return (PTuple xs)
          end
        else if isinstance_Sequence st tree then
          if isinstance st tree C_str then Return (PStr "")
          else
            xs ← collect (fun child =>
                            transform_tree_raising limit' st child fn ctor_tuple)
                         (default [] (py_iter st tree));
            Return (PList xs)
        else
          xs ← collect (fun child =>
                          transform_tree_raising limit' st child fn ctor_tuple)
                       (default [] (py_iter st tree));
          Return (construct iterable_type xs)
      else fn tree
  end.

(** ** Finite trees

    The trees of the walkers' contract: lists, tuples, named tuples and
    dicts nested around values that are not iterable.  The field names of
    a named tuple and the keys of a dict are distinct. *)

Fixpoint nested_tree (t : pyobj) : bool :=
  match t with
  | PNone | PInt _ | PType _ | PNode _ | PTensor _ => true
  | PStr _ | PSet _ | PRef _ => false
  | PList xs | PTuple xs => forallb nested_tree xs
  | PNamedTuple _ fs | PDict fs =>
      bool_decide (NoDup (map fst fs)) && forallb (fun kv => nested_tree kv.2) fs
  end.

(** The leaves of a finite tree, left to right. *)
Fixpoint leaves_of (t : pyobj) : list pyobj :=
  match t with
  | PList xs | PTuple xs | PSet xs => flat_map leaves_of xs
  | PNamedTuple _ fs | PDict fs => flat_map (fun kv => leaves_of kv.2) fs
  | _ => [t]
  end.

(** The container shape of a tree: the tree with every leaf erased. *)
Fixpoint shape (t : pyobj) : pyobj :=
  match t with
  | PList xs => PList (map shape xs)
  | PTuple xs => PTuple (map shape xs)
  | PSet xs => PSet (map shape xs)
  | PNamedTuple cls fs => PNamedTuple cls (map (fun kv => (kv.1, shape kv.2)) fs)
  | PDict fs => PDict (map (fun kv => (kv.1, shape kv.2)) fs)
  | _ => PNone
  end.

(** The number of nested calls a walk of the tree needs (a named tuple
    costs [transform_tree] two: one for itself, one for its [_asdict()]). *)
Fixpoint walk_depth (t : pyobj) : nat :=
  match t with
  | PList xs | PTuple xs | PSet xs => S (list_max (map walk_depth xs))
  | PDict fs => S (list_max (map (fun kv => walk_depth kv.2) fs))
  | PNamedTuple _ fs => S (S (list_max (map (fun kv => walk_depth kv.2) fs)))
  | _ => 1%nat
  end.

(** A value made without any container of the store: no part of it is a
    reference. *)
Fixpoint ref_free (t : pyobj) : bool :=
  match t with
  | PRef _ => false
  | PList xs | PTuple xs | PSet xs => forallb ref_free xs
  | PNamedTuple _ fs | PDict fs => forallb (fun kv => ref_free kv.2) fs
  | _ => true
  end.

(** The items a walker descends into: those of a container, the values of
    a mapping; a string is left out here, the walkers differ on it. *)
Definition container_children (st : store) (o : pyobj) : list pyobj :=
  match o with
  | PList xs | PTuple xs | PSet xs => xs
  | PNamedTuple _ fs | PDict fs => map snd fs
  | PRef l => match st l with CList xs => xs | CDict fs => map snd fs end
  | _ => []
  end.

Definition child (st : store) (o c : pyobj) : Prop := c ∈ container_children st o.

(** A container reachable from itself through its own children. *)
Definition self_referential (st : store) (o : pyobj) : Prop := tc (child st) o o.

(** [o] contains [c]: [c] is [o] or a descendant of [o]. *)
Definition contains (st : store) (o c : pyobj) : Prop := rtc (child st) o c.

(** What [transform_tree] makes of a finite tree: [fn] on the leaves
    under the same containers (a nested [PSet] is rebuilt by the default
    [tuple]). *)
Fixpoint map_tree (fn : pyobj -> pyobj) (t : pyobj) : pyobj :=
  match t with
  | PList xs => PList (map (map_tree fn) xs)
  | PTuple xs | PSet xs => PTuple (map (map_tree fn) xs)
  | PNamedTuple cls fs => PNamedTuple cls (map (fun kv => (kv.1, map_tree fn kv.2)) fs)
  | PDict fs => PDict (map (fun kv => (kv.1, map_tree fn kv.2)) fs)
  | _ => fn t
  end.

(** The values [flatten_tree] calls itself on; [None] when it takes its
    argument for a leaf. *)
Definition flatten_children (st : store) (t : pyobj) : option (list pyobj) :=
  if isinstance st t C_dict then Some (map snd (dict_items st t))
  else if is_iterable st t then py_iter st t
  else None.

(** The values [transform_tree] calls itself on. *)
Definition transform_children (st : store) (t : pyobj) : list pyobj :=
  match t with
  | PNamedTuple _ fs => [PDict fs]
  | PStr _ => []
  | _ => container_children st t
  end.

(** ** Sample values

    A store without cycles, one whose list at address 0 contains itself,
    two Graphs' worth of Nodes, and a three-level tree. *)

Definition empty_store : store := fun _ => CList [].

Definition cyclic_store : store := fun _ => CList [PRef 0%nat].

Definition node_a : Node :=
  {| node_ident := 1%nat; node_name := "scope/a"; node_graph := 0%nat;
     control_inputs := [] |}.

Definition node_b : Node :=
  {| node_ident := 2%nat; node_name := "scope/b"; node_graph := 0%nat;
     control_inputs := [1%nat] |}.

Definition node_other : Node :=
  {| node_ident := 3%nat; node_name := "c"; node_graph := 7%nat;
     control_inputs := [] |}.

(** A Graph of two Nodes, [node_b] having [node_a] as control input. *)
Definition sample_graph : Graph :=
  {| graph_ident := 0%nat; version := 3; nodes := [node_a; node_b] |}.

Definition sample_tree : pyobj :=
  PList [PNode node_a;
         PTuple [PNamedTuple "Pair" [("first", PTensor (mkTensor node_a 0));
                                     ("second", PDict [("k", PNode node_b)])];
                 PDict [("x", PList [PTensor (mkTensor node_b 1)]); ("y", PTuple [])]]].

(** A leaf-valued function: the Node a graph element belongs to. *)
Definition owner_node (o : pyobj) : pyobj :=
  match o with
  | PTensor t => PNode (tensor_node t)
  | PNode n => PNode n
  | _ => PNone
  end.

(** ** [get_unique_graph] *)

(** [op.graph].  Modelled from the spec: a Tensor is a (Node,
    output-index) pair and belongs to the Graph of its Node; the class
    itself ([pge/tensor.py]) is not part of the sources.  An object of
    another type has no such attribute. *)
Definition getattr_graph (op : pyobj) : outcome graph_id :=
  match op with
  | PNode n => Return (node_graph n)
  | PTensor t => Return (node_graph (tensor_node t))
  | _ => Raise AttributeError
  end.

(** The body of the loop of [get_unique_graph]: [g] is the Graph found so
    far, [None] before the first element. *)
Definition unique_graph_step (st : store) (check_types : pyobj) (op : pyobj)
    (g : option graph_id) : outcome (option graph_id) :=
  ok ← isinstance_info st op check_types;
  if negb ok then Raise TypeError
  else
    op_graph ← getattr_graph op;
    match g with
    | None => Return (Some op_graph)
    | Some g0 =>
        if negb (Nat.eqb g0 op_graph) then Raise ValueError
        else Return (Some g0)
    end.

(** The argument [tops]: a Graph, or any other value. *)
Inductive graph_or (A : Type) : Type :=
| IsGraph (g : graph_id)
| NotGraph (a : A).

Arguments IsGraph {A} g.
Arguments NotGraph {A} & a.

(** [check_types=None] is passed as [PNone]; the result is the Graph, or
    [None]. *)
Definition get_unique_graph (st : store) (tops : graph_or pyobj) (check_types : pyobj)
    (none_if_empty : bool) : outcome (option graph_id) :=
  match tops with
  | IsGraph g => Return (Some g)
  | NotGraph tops =>
      if negb (is_iterable st tops) then Raise TypeError
      else
        let check_types :=
          match check_types with
          | PNone => PTuple [PType C_Node; PType C_Tensor]
          | _ => if negb (is_iterable st check_types) then PTuple [check_types]
                 else check_types
          end in
        g ← for_each (unique_graph_step st check_types)
                     (default [] (py_iter st tops)) None;
        match g with
        | None => if negb none_if_empty then Raise ValueError else Return None
        | Some g0 => Return (Some g0)
        end
  end.

(** [get_unique_graph] when [tops] is a one-shot iterator over [items]:
    [is_iterable] finds it iterable without taking an item, and the loop
    takes the items it visits.  The result is the outcome of the call
    together with the items left in the iterator after it. *)
Definition get_unique_graph_iterator (st : store) (items : list pyobj)
    (check_types : pyobj) (none_if_empty : bool)
  : outcome (option graph_id) * list pyobj :=
  let check_types :=
    match check_types with
    | PNone => PTuple [PType C_Node; PType C_Tensor]
    | _ => if negb (is_iterable st check_types) then PTuple [check_types]
           else check_types
    end in
  let (g, left) := for_each_iterator (unique_graph_step st check_types) items None in
  (g ← g;
   match g with
   | None => if negb none_if_empty then Raise ValueError else Return None
   | Some g0 => Return (Some g0)
   end, left).

(** [get_unique_graph] on either kind of argument, with what the call
    leaves of [tops].  A container is walked through an iterator that the
    [for] statement makes for the walk, and no statement of the function
    assigns to an item or an attribute of anything: the container is as
    it was.  A one-shot iterator is left with the items the loop has not
    taken. *)
Definition get_unique_graph_arg (st : store) (tops : py_arg) (check_types : pyobj)
    (none_if_empty : bool) : outcome (option graph_id) * py_arg :=
  match tops with
  | Value o => (get_unique_graph st (NotGraph o) check_types none_if_empty, Value o)
  | Iterator items =>
      let (g, left) := get_unique_graph_iterator st items check_types none_if_empty in
      (g, Iterator left)
  end.

(** Nodes and Tensors, and the Graph each belongs to. *)
Definition is_graph_element (o : pyobj) : bool :=
  match o with PNode _ | PTensor _ => true | _ => false end.

Definition element_graph (o : pyobj) : graph_id :=
  match o with
  | PNode n => node_graph n
  | PTensor t => node_graph (tensor_node t)
  | _ => 0%nat
  end.

(** ** [check_graphs]

    The function reads nothing of an argument but its [graph] property,
    up to three times in a row: an argument is given by the value of that
    property, a Graph or [None].  The position [i] of [enumerate] only
    goes into the message of the error. *)

(** The body of the loop: [g] is the Graph kept so far. *)
Definition check_graphs_step (sgv_graph : option graph_id) (g : option graph_id)
  : outcome (option graph_id) :=
  if bool_decide (g = None) && bool_decide (sgv_graph ≠ None) then Return sgv_graph
  else if bool_decide (sgv_graph ≠ None) && bool_decide (sgv_graph ≠ g)
       then Raise ValueError
       else Return g.

Definition check_graphs (args : list (option graph_id)) : outcome unit :=
  _ ← for_each check_graphs_step args None; Return tt.

(** ** [make_list_of_op], [make_list_of_t] and the ops around Tensors *)

(** [bool(o)] of an iterable of the universe: a list, tuple, string,
    dict or set has a length and is true when it has an item. *)
Definition container_truthy (st : store) (o : pyobj) : bool :=
  match py_iter st o with
  | Some [] => false
  | _ => true
  end.

(** The items [make_list_of_op] and [make_list_of_t] work on: those of an
    iterable argument, or the argument alone when it is not iterable and
    is put into a list. *)
Definition as_items (st : store) (ops : pyobj) : list pyobj :=
  if is_iterable st ops then default [] (py_iter st ops) else [ops].

(** The Graph objects are given by identity, in their state at the time
    of the call ([graphs]); the result of [ops.nodes] is the list of the
    Graph's Nodes.  The argument is walked twice, by [get_unique_graph]
    and by the final comprehension: a container gives its items both
    times; of a one-shot iterator the comprehension gets what
    [get_unique_graph] has left. *)
Definition make_list_of_op (st : store) (graphs : graph_id -> Graph)
    (ops : graph_or py_arg) (check_graph allow_graph ignore_ts : bool)
  : outcome (list pyobj) :=
  match ops with
  | IsGraph g =>
      if allow_graph then Return (map PNode (nodes (graphs g)))
      else Raise TypeError
  | NotGraph (Value ops) =>
      let ops := if negb (is_iterable st ops) then PList [ops] else ops in
      if negb (container_truthy st ops) then Return []
      else
        _ ← (if check_graph then
               let check_types := if ignore_ts then PNone else PType C_Node in
               get_unique_graph st (NotGraph ops) check_types false
             else Return None);
        Return (List.filter (fun op => isinstance st op C_Node)
                            (default [] (py_iter st ops)))
  | NotGraph (Iterator items) =>
      let (g, left) :=
        if check_graph then
          let check_types := if ignore_ts then PNone else PType C_Node in
          get_unique_graph_iterator st items check_types false
        else (Return None, items) in
      _ ← g;
      Return (List.filter (fun op => isinstance st op C_Node) left)
  end.

(** The property [tensors] of a Graph belongs to [pge/graph.py]: it is
    the parameter [tensors]. *)
Definition make_list_of_t (st : store) (tensors : graph_id -> list Tensor)
    (ts : graph_or py_arg) (check_graph allow_graph ignore_ops : bool)
  : outcome (list pyobj) :=
  match ts with
  | IsGraph g =>
      if allow_graph then Return (map PTensor (tensors g))
      else Raise TypeError
  | NotGraph (Value ts) =>
      let ts := if negb (is_iterable st ts) then PList [ts] else ts in
      if negb (container_truthy st ts) then Return []
      else
        _ ← (if check_graph then
               let check_types :=
                 if ignore_ops then PNone else PTuple [PType C_Tensor] in
               get_unique_graph st (NotGraph ts) check_types false
             else Return None);
        Return (List.filter (fun t => isinstance st t C_Tensor)
                            (default [] (py_iter st ts)))
  | NotGraph (Iterator items) =>
      let (g, left) :=
        if check_graph then
          let check_types :=
            if ignore_ops then PNone else PTuple [PType C_Tensor] in
          get_unique_graph_iterator st items check_types false
        else (Return None, items) in
      _ ← g;
      Return (List.filter (fun t => isinstance st t C_Tensor) left)
  end.

(** [t.node] *)
Definition getattr_node (t : pyobj) : outcome pyobj :=
  match t with
  | PTensor t => Return (PNode (tensor_node t))
  | _ => Raise AttributeError
  end.

Definition get_generating_ops (st : store) (tensors : graph_id -> list Tensor)
    (ts : graph_or py_arg) : outcome (list pyobj) :=
  ts ← make_list_of_t st tensors ts true false false;
  collect getattr_node ts.

(** [op in ops] for Nodes, which are compared by identity. *)
Definition node_in (op : Node) (ops : list Node) : bool :=
  existsb (fun o => Nat.eqb (node_ident o) (node_ident op)) ops.

(** [t.consumers]: the property belongs to [pge/tensor.py] and is the
    parameter [consumers]. *)
Definition getattr_consumers (consumers : Tensor -> list Node) (t : pyobj)
  : outcome (list Node) :=
  match t with
  | PTensor t => Return (consumers t)
  | _ => Raise AttributeError
  end.

Definition get_consuming_ops (st : store) (tensors : graph_id -> list Tensor)
    (consumers : Tensor -> list Node) (ts : graph_or py_arg) : outcome (list Node) :=
  ts ← make_list_of_t st tensors ts true false false;
  for_each (fun t ops =>
              t_consumers ← getattr_consumers consumers t;
              Return (fold_left (fun ops op => if negb (node_in op ops) then ops ++ [op]
                                               else ops)
                                t_consumers ops))
           ts [].

(** ** [ControlOutputs]

    The object keeps a reference to its Graph; the methods that read the
    Graph take the Graph's state at the time of the call as [g]. *)

Record ControlOutputs : Type := mkControlOutputs {
  _control_outputs : gmap node_id (list node_id);
  _graph : graph_id;
  _version : option Z
}.

(** The body of the inner loop of [_build]. *)
Definition record_control_output (d : gmap node_id (list node_id))
    (control_input node : node_id) : gmap node_id (list node_id) :=
  let d := if bool_decide (is_Some (d !! control_input)) then d
           else <[control_input := []]> d in
  let outs := default [] (d !! control_input) in
  if bool_decide (node ∈ outs) then d
  else <[control_input := outs ++ [node]]> d.

Definition _build (self : ControlOutputs) (g : Graph) : ControlOutputs :=
  let d :=
    fold_left
      (fun d node =>
         fold_left (fun d control_input =>
                      record_control_output d control_input (node_ident node))
                   (control_inputs node) d)
      (nodes g) ∅ in
  {| _control_outputs := d; _graph := _graph self; _version := Some (version g) |}.

(** [ControlOutputs(g)] for a Graph [g]. *)
Definition ControlOutputs_init (g : Graph) : ControlOutputs :=
  _build {| _control_outputs := ∅; _graph := graph_ident g; _version := None |} g.

Definition update (self : ControlOutputs) (g : Graph) : ControlOutputs :=
  if bool_decide (_version self ≠ Some (version g)) then _build self g else self.

(** What [get] returns: the stored list, or the empty tuple. *)
Inductive node_seq : Type :=
| NodeList (l : list node_id)
| EmptyTuple.

Definition seq_items (s : node_seq) : list node_id :=
  match s with NodeList l => l | EmptyTuple => [] end.

Definition get (self : ControlOutputs) (op : Node) : node_seq :=
  match _control_outputs self !! node_ident op with
  | Some l => NodeList l
  | None => EmptyTuple
  end.

(** [get_all] hands out the index itself. *)
Definition get_all (self : ControlOutputs) : gmap node_id (list node_id) :=
  _control_outputs self.

(** The Nodes of [g] that list [n] among their control inputs, in the
    order of [g.nodes]. *)
Definition control_outputs_of (g : Graph) (n : node_id) : list node_id :=
  map node_ident
      (List.filter (fun m => bool_decide (n ∈ control_inputs m)) (nodes g)).

(** [l.append(x)] unless [x in l]. *)
Definition add_unique (l : list node_id) (x : node_id) : list node_id :=
  if bool_decide (x ∈ l) then l else l ++ [x].

(** The index never stores an empty list. *)
Definition no_empty_entry (d : gmap node_id (list node_id)) : Prop :=
  forall k l, d !! k = Some l -> l <> [].

(** Modelled from the spec: the Graph collaborator ([pge/graph.py], not
    part of the sources) adds a control edge [d -> c] by recording [d]
    among the control inputs of [c]; as every structural mutation it
    increments the version counter. *)
Definition add_control_input (g : Graph) (c d : node_id) : Graph :=
  {| graph_ident := graph_ident g;
     version := version g + 1;
     nodes := map (fun n =>
                     if Nat.eqb (node_ident n) c
                     then {| node_ident := node_ident n; node_name := node_name n;
                             node_graph := node_graph n;
                             control_inputs := control_inputs n ++ [d] |}
                     else n) (nodes g) |}.

(** ** [find_corresponding_elem] *)

(** Modelled from the spec: a Tensor is a (Node, output-index) pair, named
    after both, as in the test's [res[0].name == "b:0"]. *)
Definition tensor_name (t : Tensor) : string :=
  node_name (tensor_node t) +:+ ":" +:+ format_nat (value_index t).

(** [target.name] *)
Definition getattr_name (target : pyobj) : outcome string :=
  match target with
  | PNode n => Return (node_name n)
  | PTensor t => Return (tensor_name t)
  | _ => Raise AttributeError
  end.

(** Attribute lookup on a [str] for a method that takes one string and
    answers a boolean.  [startswith] is the one this module needs; a name
    that is no attribute of [str] raises [AttributeError]. *)
Definition str_getattr (s : string) (attr : string) : outcome (string -> bool) :=
  if String.eqb attr "startswith" then Return (startswith s)
  else Raise AttributeError.

(** The destination Graph is consulted through its two lookups, taken as
    parameters: [get_tensor_by_name] and [__getitem__] belong to
    [pge/graph.py]. *)
Definition find_corresponding_elem
    (get_tensor_by_name getitem : string -> outcome pyobj)
    (st : store) (target : pyobj) (dst_scope src_scope : string) : outcome pyobj :=
  src_name ← getattr_name target;
  src_name ←
    (if str_truthy src_scope then
       let src_scope := scope_finalize src_scope in
       startswidth ← str_getattr src_name "startswidth";
       if negb (startswidth src_scope) then Raise ValueError
       else Return (slice_from src_name (str_len src_scope))
     else Return src_name);
  let dst_name :=
    if str_truthy dst_scope then scope_finalize dst_scope +:+ src_name
    else src_name in
  if isinstance st target C_Tensor then get_tensor_by_name dst_name
  else if isinstance st target C_Node then getitem dst_name
  else Raise TypeError.

(** ** [find_corresponding]

    The walk over [targets] is [transform_tree] with the default
    [iterable_type]; [limit] is the recursion limit of that walk. *)
Definition find_corresponding (limit : nat)
    (get_tensor_by_name getitem : string -> outcome pyobj)
    (st : store) (targets : pyobj) (dst_scope src_scope : string) : outcome pyobj :=
  let func top :=
    find_corresponding_elem get_tensor_by_name getitem st top dst_scope src_scope in
  transform_tree_raising limit st targets func ctor_tuple.

(** ** The attribute-value codec

    TensorFlow's own types and conversions are an interface: the codec
    only moves their values around.  [float32 x] is what a 32-bit [float]
    field of a message gives back after [x] was stored in it. *)

Class TensorFlow : Type := {
  pyfloat : Type;
  DType : Type;
  TensorShape : Type;
  ndarray : Type;
  TensorShapeProto : Type;
  TensorProto : Type;
  NameAttrList : Type;
  float32 : pyfloat -> pyfloat;
  as_datatype_enum : DType -> Z;
  DType_of_enum : Z -> DType;
  as_proto : TensorShape -> TensorShapeProto;
  TensorShape_of_proto : TensorShapeProto -> TensorShape;
  make_tensor_proto : ndarray -> TensorProto;
  make_ndarray : TensorProto -> ndarray
}.

Definition bytes := list Byte.byte.

(** Well-formed UTF-8, as the strict decoder of Python accepts it: one
    to four bytes per character, no overlong form, no surrogate, nothing
    above U+10FFFF. *)
Definition byte_in (lo hi : N) (b : Byte.byte) : bool :=
  (lo <=? Byte.to_N b)%N && (Byte.to_N b <=? hi)%N.

Fixpoint utf8_valid (bs : bytes) : bool :=
  let tail := byte_in 128 191 in
  match bs with
  | [] => true
  | b0 :: rest =>
      if byte_in 0 127 b0 then utf8_valid rest
      else if byte_in 194 223 b0 then
        match rest with
        | b1 :: rest' => tail b1 && utf8_valid rest'
        | _ => false
        end
      else if byte_in 224 239 b0 then
        match rest with
        | b1 :: b2 :: rest' =>
            (if byte_in 224 224 b0 then byte_in 160 191 b1
             else if byte_in 237 237 b0 then byte_in 128 159 b1
             else tail b1)
            && tail b2 && utf8_valid rest'
        | _ => false
        end
      else if byte_in 240 244 b0 then
        match rest with
        | b1 :: b2 :: b3 :: rest' =>
            (if byte_in 240 240 b0 then byte_in 144 191 b1
             else if byte_in 244 244 b0 then byte_in 128 143 b1
             else tail b1)
            && tail b2 && tail b3 && utf8_valid rest'
        | _ => false
        end
      else false
  end.

(** [tf.compat.as_bytes] of a [str], its UTF-8 encoding (a [str] is
    given by its text in UTF-8, which is handed over), and
    [tf.compat.as_str] of [bytes], which decodes them and raises
    [UnicodeDecodeError] (a subclass of [ValueError]) on bytes that are
    not UTF-8. *)
Definition as_bytes (s : string) : bytes := list_byte_of_string s.

Definition as_str (b : bytes) : outcome string :=
  if utf8_valid b then Return (string_of_list_byte b) else Raise UnicodeDecodeError.

(** An [int64] field of a message takes the integers of 64 bits; storing
    another one in it raises [ValueError]. *)
Definition in_int64 (i : Z) : bool := (- 2 ^ 63 <=? i) && (i <? 2 ^ 63).

Definition int64_field (i : Z) : outcome Z :=
  if in_int64 i then Return i else Raise ValueError.

Section Codec.
Context {TF : TensorFlow}.

(** [tf.AttrValue.ListValue]: one repeated field per element type. *)
Record ListValue : Type := mkListValue {
  lv_s : list bytes;
  lv_i : list Z;
  lv_f : list pyfloat;
  lv_b : list bool;
  lv_type : list Z;
  lv_shape : list TensorShapeProto;
  lv_tensor : list TensorProto;
  lv_func : list NameAttrList
}.

Definition empty_ListValue : ListValue :=
  {| lv_s := []; lv_i := []; lv_f := []; lv_b := []; lv_type := [];
     lv_shape := []; lv_tensor := []; lv_func := [] |}.

(** [tf.AttrValue]: the members of its [oneof value], or none set. *)
Inductive AttrValue : Type :=
| AV_unset
| AV_s (s : bytes)
| AV_i (i : Z)
| AV_f (f : pyfloat)
| AV_b (b : bool)
| AV_type (type : Z)
| AV_shape (shape : TensorShapeProto)
| AV_tensor (tensor : TensorProto)
| AV_list (list : ListValue)
| AV_func (func : NameAttrList)
| AV_placeholder (placeholder : string).

Definition WhichOneof (a : AttrValue) : option string :=
  match a with
  | AV_unset => None
  | AV_s _ => Some "s"
  | AV_i _ => Some "i"
  | AV_f _ => Some "f"
  | AV_b _ => Some "b"
  | AV_type _ => Some "type"
  | AV_shape _ => Some "shape"
  | AV_tensor _ => Some "tensor"
  | AV_list _ => Some "list"
  | AV_func _ => Some "func"
  | AV_placeholder _ => Some "placeholder"
  end.

Definition HasField (a : AttrValue) (field : string) : bool :=
  bool_decide (WhichOneof a = Some field).

(** The Python values the codec tells apart; [VOther] is an object of any
    other type. *)
Inductive pyvalue : Type :=
| VStr (s : string)
| VInt (i : Z)
| VFloat (f : pyfloat)
| VBool (b : bool)
| VDType (d : DType)
| VTensorShape (s : TensorShape)
| VNdarray (a : ndarray)
| VList (xs : list pyvalue)
| VTuple (xs : list pyvalue)
| VAttrValue (a : AttrValue)
| VOther.

(** The [isinstance] tests of the codec, each with the payload it gives
    access to.  A [bool] is an [int] in Python: the test for [int] succeeds
    on it, and an integer field stores it as 0 or 1. *)
Definition as_sequence (v : pyvalue) : option (list pyvalue) :=
  match v with VList xs | VTuple xs => Some xs | _ => None end.
Definition as_AttrValue (v : pyvalue) : option AttrValue :=
  match v with VAttrValue a => Some a | _ => None end.
Definition as_str_value (v : pyvalue) : option string :=
  match v with VStr s => Some s | _ => None end.
Definition as_int_value (v : pyvalue) : option Z :=
  match v with VInt i => Some i | VBool b => Some (Z.b2z b) | _ => None end.
Definition as_float_value (v : pyvalue) : option pyfloat :=
  match v with VFloat f => Some f | _ => None end.
Definition as_bool_value (v : pyvalue) : option bool :=
  match v with VBool b => Some b | _ => None end.
Definition as_DType (v : pyvalue) : option DType :=
  match v with VDType d => Some d | _ => None end.
Definition as_TensorShape (v : pyvalue) : option TensorShape :=
  match v with VTensorShape sh => Some sh | _ => None end.
Definition as_ndarray (v : pyvalue) : option ndarray :=
  match v with VNdarray a => Some a | _ => None end.

(** [list_value.<field>.append(x)] *)
Definition append_s (l : ListValue) (x : bytes) : ListValue :=
  {| lv_s := lv_s l ++ [x]; lv_i := lv_i l; lv_f := lv_f l; lv_b := lv_b l;
     lv_type := lv_type l; lv_shape := lv_shape l; lv_tensor := lv_tensor l;
     lv_func := lv_func l |}.
Definition append_i (l : ListValue) (x : Z) : ListValue :=
  {| lv_s := lv_s l; lv_i := lv_i l ++ [x]; lv_f := lv_f l; lv_b := lv_b l;
     lv_type := lv_type l; lv_shape := lv_shape l; lv_tensor := lv_tensor l;
     lv_func := lv_func l |}.
Definition append_f (l : ListValue) (x : pyfloat) : ListValue :=
  {| lv_s := lv_s l; lv_i := lv_i l; lv_f := lv_f l ++ [x]; lv_b := lv_b l;
     lv_type := lv_type l; lv_shape := lv_shape l; lv_tensor := lv_tensor l;
     lv_func := lv_func l |}.
Definition append_b (l : ListValue) (x : bool) : ListValue :=
  {| lv_s := lv_s l; lv_i := lv_i l; lv_f := lv_f l; lv_b := lv_b l ++ [x];
     lv_type := lv_type l; lv_shape := lv_shape l; lv_tensor := lv_tensor l;
     lv_func := lv_func l |}.
Definition append_type (l : ListValue) (x : Z) : ListValue :=
  {| lv_s := lv_s l; lv_i := lv_i l; lv_f := lv_f l; lv_b := lv_b l;
     lv_type := lv_type l ++ [x]; lv_shape := lv_shape l; lv_tensor := lv_tensor l;
     lv_func := lv_func l |}.
Definition append_shape (l : ListValue) (x : TensorShapeProto) : ListValue :=
  {| lv_s := lv_s l; lv_i := lv_i l; lv_f := lv_f l; lv_b := lv_b l;
     lv_type := lv_type l; lv_shape := lv_shape l ++ [x]; lv_tensor := lv_tensor l;
     lv_func := lv_func l |}.
Definition append_tensor (l : ListValue) (x : TensorProto) : ListValue :=
  {| lv_s := lv_s l; lv_i := lv_i l; lv_f := lv_f l; lv_b := lv_b l;
     lv_type := lv_type l; lv_shape := lv_shape l; lv_tensor := lv_tensor l ++ [x];
     lv_func := lv_func l |}.

(** The tests are tried in the order of the source; the result is the
    [list_value] after the append. *)
Definition _python_type_to_attr_list_elem (list_value : ListValue) (elem : pyvalue)
  : outcome ListValue :=
  match as_str_value elem with
  | Some s => Return (append_s list_value (as_bytes s))
  | None =>
  match as_int_value elem with
  | Some i => i ← int64_field i; Return (append_i list_value i)
  | None =>
  match as_float_value elem with
  | Some f => Return (append_f list_value (float32 f))
  | None =>
  match as_bool_value elem with
  | Some b => Return (append_b list_value b)
  | None =>
  match as_DType elem with
  | Some d => Return (append_type list_value (as_datatype_enum d))
  | None =>
  match as_TensorShape elem with
  | Some sh => Return (append_shape list_value (as_proto sh))
  | None =>
  match as_ndarray elem with
  | Some a => Return (append_tensor list_value (make_tensor_proto a))
  | None => Raise ValueError
  end end end end end end end.

Definition python_type_to_attr_value (value : pyvalue) : outcome AttrValue :=
  match as_sequence value with
  | Some items =>
      if (0 =? Z.of_nat (length items))%Z then Return (AV_list empty_ListValue)
      else
        list_value ← for_each (fun elem list_value =>
                                 _python_type_to_attr_list_elem list_value elem)
                              items empty_ListValue;
        Return (AV_list list_value)
  | None =>
  match as_AttrValue value with
  | Some a => Return a
  | None =>
  match as_str_value value with
  | Some s => Return (AV_s (as_bytes s))
  | None =>
  match as_int_value value with
  | Some i => i ← int64_field i; Return (AV_i i)
  | None =>
  match as_float_value value with
  | Some f => Return (AV_f (float32 f))
  | None =>
  match as_bool_value value with
  | Some b => Return (AV_b b)
  | None =>
  match as_DType value with
  | Some d => Return (AV_type (as_datatype_enum d))
  | None =>
  match as_TensorShape value with
  | Some sh => Return (AV_shape (as_proto sh))
  | None =>
  match as_ndarray value with
  | Some a => Return (AV_tensor (make_tensor_proto a))
  | None => Raise ValueError
  end end end end end end end end end.

(** The fields of a [oneof] exclude each other, so the chain of
    [HasField] tests is a case distinction on the member that is set; the
    members [list], [func] and [placeholder] have no branch and fall
    through to the final [raise], like a message with nothing set. *)
Definition attr_value_to_python_type (attr_value : AttrValue) : outcome pyvalue :=
  match attr_value with
  | AV_s s => s ← as_str s; Return (VStr s)
  | AV_i i => Return (VInt i)
  | AV_f f => Return (VFloat f)
  | AV_b b => Return (VBool b)
  | AV_type type => Return (VDType (DType_of_enum type))
  | AV_shape shape => Return (VTensorShape (TensorShape_of_proto shape))
  | AV_tensor tensor => Return (VNdarray (make_ndarray tensor))
  | AV_unset | AV_list _ | AV_func _ | AV_placeholder _ => Raise ValueError
  end.

(** A value has a list-element variant when [ListValue] has a field for
    its type; it has a variant when [AttrValue] has a member for it: a
    scalar of those types, a sequence of such scalars, or a value already
    in wire form. *)
Definition has_list_elem_variant (v : pyvalue) : bool :=
  match v with
  | VStr _ | VInt _ | VFloat _ | VBool _ | VDType _ | VTensorShape _ | VNdarray _ => true
  | VList _ | VTuple _ | VAttrValue _ | VOther => false
  end.

Definition has_variant (v : pyvalue) : bool :=
  match v with
  | VList xs | VTuple xs => forallb has_list_elem_variant xs
  | VAttrValue _ => true
  | VOther => false
  | _ => has_list_elem_variant v
  end.

(** The members [attr_value_to_python_type] recognizes. *)
Definition recognized (a : AttrValue) : bool :=
  HasField a "s" || HasField a "i" || HasField a "f" || HasField a "b"
  || HasField a "type" || HasField a "shape" || HasField a "tensor".

(** The integer of a value (a boolean counts as 0 or 1) fits the [int64]
    field; a value of another type has no integer to store. *)
Definition fits_int64 (v : pyvalue) : bool :=
  match as_int_value v with
  | Some i => in_int64 i
  | None => true
  end.

(** The values the encoder accepts: those with a variant whose integers,
    alone or as elements of a sequence, fit the [int64] field. *)
Definition encodable (v : pyvalue) : bool :=
  match v with
  | VList xs | VTuple xs =>
      forallb (fun x => has_list_elem_variant x && fits_int64 x) xs
  | _ => has_variant v && fits_int64 v
  end.

(** The bytes of the member [s], when that is the member set. *)
Definition s_bytes (a : AttrValue) : option bytes :=
  match a with AV_s b => Some b | _ => None end.

(** The [ListValue] of a sequence, field by field: each field holds the
    elements of its type, in their order. *)
Definition sequence_fields (items : list pyvalue) : ListValue :=
  {| lv_s := omap (fun v => as_bytes <$> as_str_value v) items;
     lv_i := omap as_int_value items;
     lv_f := omap (fun v => float32 <$> as_float_value v) items;
     lv_b := [];
     lv_type := omap (fun v => as_datatype_enum <$> as_DType v) items;
     lv_shape := omap (fun v => as_proto <$> as_TensorShape v) items;
     lv_tensor := omap (fun v => make_tensor_proto <$> as_ndarray v) items;
     lv_func := [] |}.

(** One [ListValue] after another, field by field. *)
Definition ListValue_app (l1 l2 : ListValue) : ListValue :=
  {| lv_s := lv_s l1 ++ lv_s l2; lv_i := lv_i l1 ++ lv_i l2;
     lv_f := lv_f l1 ++ lv_f l2; lv_b := lv_b l1 ++ lv_b l2;
     lv_type := lv_type l1 ++ lv_type l2; lv_shape := lv_shape l1 ++ lv_shape l2;
     lv_tensor := lv_tensor l1 ++ lv_tensor l2; lv_func := lv_func l1 ++ lv_func l2 |}.

Definition is_str_value (v : pyvalue) : bool :=
  match v with VStr _ => true | _ => false end.

(** [decode(encode(value))] *)
Definition roundtrip (value : pyvalue) : outcome pyvalue :=
  attr_value ← python_type_to_attr_value value;
  attr_value_to_python_type attr_value.

End Codec.

(** An instance of the interface for concrete inputs: every type of
    TensorFlow is taken as plain integers or lists of them, and every
    conversion as the identity. *)
Definition sample_TensorFlow : TensorFlow :=
  {| pyfloat := Z; DType := Z; TensorShape := list Z; ndarray := list Z;
     TensorShapeProto := list Z; TensorProto := list Z; NameAttrList := unit;
     float32 := fun x => x;
     as_datatype_enum := fun d => d; DType_of_enum := fun e => e;
     as_proto := fun sh => sh; TensorShape_of_proto := fun p => p;
     make_tensor_proto := fun a => a; make_ndarray := fun p => p |}.

(* ===================================================================== *)
(** * Properties *)
(* ===================================================================== *)

(** ** [concatenate_unique] *)

Section ConcatenateUniqueProperties.
Context {A : Type} `{Countable A}.

(** The set kept beside [la] holds the elements of [la] all along, so
    the membership test on it is the one on [la]. *)
Lemma concatenate_unique_loop lb : forall (la : list A) (s : gset A),
  (forall x, x ∈ s <-> x ∈ la) ->
  (fold_left concatenate_unique_step lb (la, s)).1 = fold_left append_new lb la.
Proof.
  induction lb as [|l lb IH]; intros la s Hs; [reflexivity|].
  cbn [fold_left]. unfold concatenate_unique_step at 2, append_new at 2. cbn [fst snd].
  destruct (decide (l ∈ la)) as [Hin|Hnin].
  - rewrite bool_decide_false by (rewrite Hs; tauto).
    rewrite bool_decide_true by done. by apply IH.
  - rewrite bool_decide_true by (by rewrite Hs).
    rewrite bool_decide_false by done. apply IH.
    intros x. rewrite elem_of_union, elem_of_singleton, elem_of_app, list_elem_of_singleton, Hs.
    tauto.
Qed.

Lemma concatenate_unique_fold (la lb : list A) :
  concatenate_unique la lb = fold_left append_new lb la.
Proof.
  apply concatenate_unique_loop. intros x. apply elem_of_list_to_set.
Qed.

Lemma concatenate_unique_snoc (la lb : list A) x :
  concatenate_unique la (lb ++ [x]) = append_new (concatenate_unique la lb) x.
Proof. by rewrite !concatenate_unique_fold, fold_left_app. Qed.

Lemma concatenate_unique_cons (la lb : list A) x :
  concatenate_unique la (x :: lb) = concatenate_unique (append_new la x) lb.
Proof. by rewrite !concatenate_unique_fold. Qed.

Lemma elem_of_append_new (la : list A) l x :
  x ∈ append_new la l <-> x ∈ la \/ x = l.
Proof.
  unfold append_new. case_bool_decide.
  - split; [tauto|]. intros [?| ->]; done.
  - rewrite elem_of_app, list_elem_of_singleton. tauto.
Qed.

Lemma elem_of_concatenate_unique (la lb : list A) x :
  x ∈ concatenate_unique la lb <-> x ∈ la \/ x ∈ lb.
Proof.
  revert la. induction lb as [|l lb IH]; intros la.
  - rewrite concatenate_unique_fold. cbn. rewrite elem_of_nil. tauto.
  - rewrite concatenate_unique_cons, IH, elem_of_append_new, elem_of_cons. tauto.
Qed.

Lemma concatenate_unique_app (la lb1 lb2 : list A) :
  concatenate_unique la (lb1 ++ lb2) = concatenate_unique (concatenate_unique la lb1) lb2.
Proof. by rewrite !concatenate_unique_fold, fold_left_app. Qed.

(** Nothing is added when every element of [lb] is in [la] already. *)
Lemma concatenate_unique_absorb (la lb : list A) :
  (forall x, x ∈ lb -> x ∈ la) -> concatenate_unique la lb = la.
Proof.
  revert la. induction lb as [|l lb IH]; intros la Hsub.
  - by rewrite concatenate_unique_fold.
  - rewrite concatenate_unique_cons. unfold append_new.
    rewrite bool_decide_true by (apply Hsub, elem_of_cons; by left).
    apply IH. intros x Hx. apply Hsub, elem_of_cons. by right.
Qed.

Lemma concatenate_unique_new (lb : list A) : forall la,
  exists new,
    concatenate_unique la lb = la ++ new
    /\ NoDup new
    /\ (forall x, x ∈ new <-> x ∈ lb /\ x ∉ la)
    /\ sublist new lb.
Proof.
  induction lb as [|l lb IH]; intros la.
  - exists []. rewrite concatenate_unique_fold. cbn. rewrite app_nil_r.
    split; [reflexivity|]. split; [constructor|]. split; [|constructor].
    intros x. rewrite elem_of_nil. tauto.
  - rewrite concatenate_unique_cons. destruct (IH (append_new la l)) as (new & -> & Hnd & Hel & Hsub).
    unfold append_new in *. destruct (decide (l ∈ la)) as [Hin|Hnin].
    + rewrite bool_decide_true in * by done. exists new.
      split; [reflexivity|]. split; [exact Hnd|]. split; [|by apply sublist_cons].
      intros x. rewrite Hel, elem_of_cons. split; [tauto|].
      intros [[->|Hx] Hn]; [done|tauto].
    + rewrite bool_decide_false in * by done. exists (l :: new).
      split; [by rewrite <- app_assoc|]. split; [|split; [|by apply sublist_skip]].
      * apply NoDup_cons. split; [|done]. intros Hl. apply Hel in Hl as [_ Hl].
        apply Hl. apply elem_of_app. right. apply elem_of_cons. by left.
      * intros x. rewrite !elem_of_cons, Hel, elem_of_app, list_elem_of_singleton.
        destruct (decide (x = l)) as [->|Hne]; [tauto|]. tauto.
Qed.

(** [concatenate_unique la lb] is [la] followed by new elements: the
    elements of [lb] that are not in [la], each once, in the order in
    which [lb] lists them; [la] itself is kept as it is, duplicates
    included.  So the result holds exactly the elements of [la] and of
    [lb], and has no duplicates when [la] has none. *)
Theorem concatenate_unique_extends (la lb : list A) :
  (exists new,
     concatenate_unique la lb = la ++ new
     /\ NoDup new
     /\ (forall x, x ∈ new <-> x ∈ lb /\ x ∉ la)
     /\ sublist new lb)
  /\ (forall x, x ∈ concatenate_unique la lb <-> x ∈ la \/ x ∈ lb)
  /\ (NoDup la -> NoDup (concatenate_unique la lb)).
Proof.
  split; [apply concatenate_unique_new|]. split; [apply elem_of_concatenate_unique|].
  intros Hla. destruct (concatenate_unique_new lb la) as (new & -> & Hnd & Hel & _).
  apply NoDup_app. repeat split; try done.
  intros x Hx Hx'. by apply Hel in Hx' as [_ ?].
Qed.

(** How calls compose: adding [lb ++ lc] is adding [lb], then [lc];
    the operation is associative; adding the same list again, or a list
    to itself (the two arguments being one list object), changes
    nothing. *)
Theorem concatenate_unique_compose (la lb lc : list A) :
  concatenate_unique la (lb ++ lc) = concatenate_unique (concatenate_unique la lb) lc
  /\ concatenate_unique (concatenate_unique la lb) lc
     = concatenate_unique la (concatenate_unique lb lc)
  /\ concatenate_unique (concatenate_unique la lb) lb = concatenate_unique la lb
  /\ concatenate_unique la la = la.
Proof.
  split; [apply concatenate_unique_app|]. split; [|split].
  - induction lc as [|x lc IH] using rev_ind.
    + by rewrite !(concatenate_unique_fold _ []).
    + rewrite !concatenate_unique_snoc, IH. unfold append_new at 2.
      case_bool_decide as Hx.
      * unfold append_new. rewrite bool_decide_true; [done|].
        apply elem_of_concatenate_unique. by right.
      * by rewrite concatenate_unique_snoc.
  - apply concatenate_unique_absorb. intros x Hx.
    apply elem_of_concatenate_unique. by right.
  - by apply concatenate_unique_absorb.
Qed.

End ConcatenateUniqueProperties.

Example concatenate_unique_example :
  concatenate_unique [1; 2; 1] [2; 3; 3; 1; 4] = [1; 2; 1; 3; 4].
Proof. by vm_compute. Qed.

(** ** Strings *)

#[local] Arguments String.append !_ _ / : simpl nomatch.

Lemma str_rfind_cons c s :
  str_rfind (String c s) "/" =
  if 0 <=? str_rfind s "/" then str_rfind s "/" + 1
  else if ascii_dec "/" c then 0 else -1.
Proof.
  cbn [str_rfind String.prefix].
  destruct (ascii_dec "/" c); [destruct s|]; reflexivity.
Qed.

Lemma str_rfind_range s : -1 <= str_rfind s "/" < str_len s \/ (s = "" /\ str_rfind s "/" = -1).
Proof.
  unfold str_len. induction s as [|c s IH].
  - right. split; reflexivity.
  - left. rewrite str_rfind_cons. cbn [String.length].
    destruct (Z.leb_spec 0 (str_rfind s "/")).
    + destruct IH as [IH|[-> IH]]; [lia|]. simpl in H. lia.
    + destruct (ascii_dec "/" c); lia.
Qed.

Lemma str_rfind_lower s : -1 <= str_rfind s "/".
Proof. destruct (str_rfind_range s) as [?|[_ ->]]; lia. Qed.

Lemma str_len_app a b : str_len (a +:+ b) = str_len a + str_len b.
Proof.
  unfold str_len. induction a as [|c a IH]; cbn [String.append String.length]; lia.
Qed.

Lemma str_len_nonneg s : 0 <= str_len s.
Proof. unfold str_len. lia. Qed.

Lemma str_app_assoc a b c : (a +:+ b) +:+ c = a +:+ (b +:+ c).
Proof. induction a as [|x a IH]; cbn [String.append]; congruence. Qed.

(** [rfind] of a concatenation: the last slash is in the right part if
    there is one there, else in the left part. *)
Lemma str_rfind_app a b :
  str_rfind (a +:+ b) "/" =
  if 0 <=? str_rfind b "/" then str_len a + str_rfind b "/" else str_rfind a "/".
Proof.
  induction a as [|c a IH].
  - cbn [String.append]. pose proof (str_rfind_lower b).
    destruct (Z.leb_spec 0 (str_rfind b "/")); [unfold str_len; simpl; lia|].
    simpl. lia.
  - cbn [String.append]. rewrite !str_rfind_cons, IH.
    pose proof (str_len_nonneg a). pose proof (str_rfind_lower b).
    replace (str_len (String c a)) with (str_len a + 1)
      by (unfold str_len; cbn [String.length]; lia).
    destruct (Z.leb_spec 0 (str_rfind b "/")).
    + destruct (Z.leb_spec 0 (str_len a + str_rfind b "/")); lia.
    + reflexivity.
Qed.

Lemma no_slash_app a b : no_slash a -> no_slash b -> no_slash (a +:+ b).
Proof.
  unfold no_slash. intros Ha Hb. rewrite str_rfind_app, Hb. simpl. exact Ha.
Qed.

Lemma no_slash_cons c s : c <> "/"%char -> no_slash s -> no_slash (String c s).
Proof.
  unfold no_slash. intros Hc Hs. rewrite str_rfind_cons, Hs.
  destruct (ascii_dec "/" c) as [<-|]; [destruct Hc|]; reflexivity.
Qed.

Lemma no_slash_string_of_uint d : no_slash (NilEmpty.string_of_uint d).
Proof.
  induction d; cbn [NilEmpty.string_of_uint];
    first [reflexivity | apply no_slash_cons; [discriminate | assumption]].
Qed.

Lemma no_slash_format_nat n : no_slash (format_nat n).
Proof. apply no_slash_string_of_uint. Qed.

Lemma str_take_app a b : str_take (String.length a) (a +:+ b) = a.
Proof. induction a as [|c a IH]; [destruct b; reflexivity|]; simpl; congruence. Qed.

Lemma str_drop_app a b : str_drop (String.length a) (a +:+ b) = b.
Proof. induction a as [|c a IH]; [destruct b; reflexivity|]; simpl; congruence. Qed.

Lemma slice_bound_len a b :
  slice_bound (str_len (a +:+ b)) (str_len a) = String.length a.
Proof.
  unfold slice_bound. rewrite str_len_app.
  pose proof (str_len_nonneg a). pose proof (str_len_nonneg b).
  destruct (Z.ltb_spec (str_len a) 0); [lia|].
  rewrite Z.min_l by lia. unfold str_len. apply Nat2Z.id.
Qed.

Lemma slice_to_app a b : slice_to (a +:+ b) (str_len a) = a.
Proof. unfold slice_to. rewrite slice_bound_len. apply str_take_app. Qed.

Lemma slice_from_app a b : slice_from (a +:+ b) (str_len a) = b.
Proof. unfold slice_from. rewrite slice_bound_len. apply str_drop_app. Qed.

(** A name with a slash splits at its last slash. *)
Lemma str_rfind_split s :
  0 <= str_rfind s "/" ->
  exists a b, s = (a +:+ "/") +:+ b /\ str_len a = str_rfind s "/" /\ no_slash b.
Proof.
  induction s as [|c s IH]; [simpl; lia|].
  rewrite str_rfind_cons. destruct (Z.leb_spec 0 (str_rfind s "/")) as [Hs|Hs].
  - intros _. destruct (IH Hs) as (a & b & -> & Hl & Hb).
    exists (String c a), b. split; [reflexivity|]. split; [|exact Hb].
    unfold str_len in *. cbn [String.length]. lia.
  - destruct (ascii_dec "/" c) as [<-|]; [|lia]. intros _.
    exists "", s. split; [reflexivity|]. split; [reflexivity|].
    unfold no_slash. pose proof (str_rfind_lower s). lia.
Qed.

(** ** Scope helpers *)

Lemma scope_basename_no_slash name : no_slash (scope_basename name).
Proof.
  unfold scope_basename. pose proof (str_rfind_lower name) as Hl.
  destruct (Z.eqb_spec (str_rfind name "/") (-1)) as [E|E]; [exact E|].
  destruct (str_rfind_split name) as (a & b & Hs & Hlen & Hb); [lia|].
  rewrite <- Hlen. rewrite Hs at 1.
  replace (str_len a + 1) with (str_len (a +:+ "/"))
    by (rewrite str_len_app; reflexivity).
  rewrite slice_from_app. exact Hb.
Qed.

(** Joining what was split: the dirname followed by the basename is the
    name. *)
Lemma scope_dirname_basename name :
  scope_dirname name +:+ scope_basename name = name.
Proof.
  unfold scope_dirname, scope_basename. pose proof (str_rfind_lower name) as Hl.
  destruct (Z.eqb_spec (str_rfind name "/") (-1)) as [E|E]; [reflexivity|].
  destruct (str_rfind_split name) as (a & b & Hs & Hlen & Hb); [lia|].
  rewrite <- Hlen.
  replace (str_len a + 1) with (str_len (a +:+ "/"))
    by (rewrite str_len_app; reflexivity).
  rewrite Hs at 1 2. rewrite slice_to_app, slice_from_app. symmetry. exact Hs.
Qed.

Lemma str_last_app_char s c : str_last (s +:+ String c "") = Some c.
Proof.
  induction s as [|x s IH]; [reflexivity|].
  cbn [String.append str_last]. rewrite IH.
  destruct (s +:+ String c "") eqn:E; [destruct s; discriminate|reflexivity].
Qed.

Lemma str_last_split s c : str_last s = Some c -> exists a, s = a +:+ String c "".
Proof.
  induction s as [|x s IH]; [discriminate|].
  cbn [str_last]. destruct s as [|y s].
  - intros [= ->]. exists "". reflexivity.
  - intros H. destruct (IH H) as [a Ha]. exists (String x a).
    cbn [String.append]. congruence.
Qed.

(** A finalized scope is empty or ends with the delimiter. *)
Lemma scope_finalize_shape scope :
  scope_finalize scope = "" \/ exists a, scope_finalize scope = a +:+ "/".
Proof.
  unfold scope_finalize. destruct scope as [|c s]; [left; reflexivity|].
  right. cbn [str_truthy andb].
  destruct (bool_decide_reflect (str_last (String c s) = Some "/"%char)) as [E|E];
    cbn [negb].
  - apply str_last_split in E. exact E.
  - eexists. reflexivity.
Qed.

(** [scope_finalize] is idempotent. *)
Lemma scope_finalize_idem scope :
  scope_finalize (scope_finalize scope) = scope_finalize scope.
Proof.
  destruct (scope_finalize_shape scope) as [->|[a ->]]; [reflexivity|].
  unfold scope_finalize. rewrite str_last_app_char.
  rewrite bool_decide_true by reflexivity. rewrite andb_false_r. reflexivity.
Qed.

(** Under a finalized scope, the basename of [scope + x] is [x] whenever
    [x] has no delimiter. *)
Lemma scope_basename_under scope x :
  no_slash x -> scope_basename (scope_finalize scope +:+ x) = x.
Proof.
  intros Hx. unfold scope_basename.
  destruct (scope_finalize_shape scope) as [->|[a ->]].
  - cbn [String.append]. rewrite Hx. reflexivity.
  - assert (E : str_rfind ((a +:+ "/") +:+ x) "/" = str_len a).
    { rewrite str_rfind_app, Hx. change (0 <=? -1) with false. cbv iota.
      rewrite str_rfind_app. change (str_rfind "/" "/") with 0.
      change (0 <=? 0) with true. cbv iota. lia. }
    rewrite E. pose proof (str_len_nonneg a).
    destruct (Z.eqb_spec (str_len a) (-1)); [lia|].
    replace (str_len a + 1) with (str_len (a +:+ "/"))
      by (rewrite str_len_app; reflexivity).
    apply slice_from_app.
Qed.

Lemma str_app_empty_r s : s +:+ "" = s.
Proof. induction s as [|c s IH]; [reflexivity|]. cbn [String.append]. by rewrite IH. Qed.

(** Under a finalized scope, the dirname of [scope + x] is the scope
    whenever [x] has no delimiter. *)
Lemma scope_dirname_under scope x :
  no_slash x -> scope_dirname (scope_finalize scope +:+ x) = scope_finalize scope.
Proof.
  intros Hx. unfold scope_dirname.
  destruct (scope_finalize_shape scope) as [->|[a ->]].
  - cbn [String.append]. rewrite Hx. reflexivity.
  - assert (E : str_rfind ((a +:+ "/") +:+ x) "/" = str_len a).
    { rewrite str_rfind_app, Hx. change (0 <=? -1) with false. cbv iota.
      rewrite str_rfind_app. change (str_rfind "/" "/") with 0.
      change (0 <=? 0) with true. cbv iota. lia. }
    rewrite E. pose proof (str_len_nonneg a).
    destruct (Z.eqb_spec (str_len a) (-1)); [lia|].
    replace (str_len a + 1) with (str_len (a +:+ "/"))
      by (rewrite str_len_app; reflexivity).
    apply slice_to_app.
Qed.

(** A dirname is a finalized scope. *)
Lemma scope_dirname_finalized name :
  scope_finalize (scope_dirname name) = scope_dirname name.
Proof.
  unfold scope_dirname at 1 2. pose proof (str_rfind_lower name) as Hl.
  destruct (Z.eqb_spec (str_rfind name "/") (-1)) as [E|E]; [reflexivity|].
  destruct (str_rfind_split name) as (a & b & Hs & Hlen & Hb); [lia|].
  rewrite <- Hlen.
  replace (str_len a + 1) with (str_len (a +:+ "/"))
    by (rewrite str_len_app; reflexivity).
  rewrite Hs. rewrite slice_to_app.
  unfold scope_finalize. rewrite str_last_app_char.
  rewrite bool_decide_true by reflexivity. by rewrite andb_false_r.
Qed.

(** Splitting what was joined: for a finalized scope (empty, or ending
    with the delimiter) and a name [x] without delimiter,
    [scope_dirname] and [scope_basename] of [scope + x] give back the scope
    and [x]. *)
Theorem scope_split_joined scope x :
  no_slash x ->
  scope_dirname (scope_finalize scope +:+ x) = scope_finalize scope
  /\ scope_basename (scope_finalize scope +:+ x) = x.
Proof.
  intros Hx. split; [by apply scope_dirname_under|by apply scope_basename_under].
Qed.

Lemma scope_split_joined_witness :
  no_slash "c"
  /\ scope_dirname (scope_finalize "a/b" +:+ "c") = scope_finalize "a/b"
  /\ scope_basename (scope_finalize "a/b" +:+ "c") = "c".
Proof.
  split; [reflexivity|]. apply (scope_split_joined "a/b" "c"). reflexivity.
Defined.

(** Splitting twice: a dirname is its own dirname, has an empty basename
    and is left alone by [scope_finalize]; a basename is its own basename
    and has an empty dirname. *)
Theorem scope_split_twice name :
  scope_dirname (scope_dirname name) = scope_dirname name
  /\ scope_basename (scope_dirname name) = ""
  /\ scope_finalize (scope_dirname name) = scope_dirname name
  /\ scope_basename (scope_basename name) = scope_basename name
  /\ scope_dirname (scope_basename name) = "".
Proof.
  pose proof (scope_dirname_finalized name) as Hf.
  pose proof (scope_dirname_under (scope_dirname name) "" eq_refl) as Hd.
  pose proof (scope_basename_under (scope_dirname name) "" eq_refl) as Hb.
  rewrite Hf, str_app_empty_r in Hd, Hb.
  pose proof (scope_basename_no_slash name) as Hn. unfold no_slash in Hn.
  repeat split; try done.
  - unfold scope_basename at 1. by rewrite Hn.
  - unfold scope_dirname. by rewrite Hn.
Qed.

Example scope_helpers_examples :
  scope_finalize "a/b" = "a/b/" /\ scope_finalize "a/b/" = "a/b/"
  /\ scope_finalize "" = ""
  /\ scope_dirname "a/b/c" = "a/b/" /\ scope_basename "a/b/c" = "c"
  /\ scope_dirname "c" = "" /\ scope_basename "c" = "c"
  /\ scope_dirname "a/" = "a/" /\ scope_basename "a/" = "".
Proof. repeat split. Qed.

(** ** [placeholder_name] *)

Lemma prefix_app p s : String.prefix p (p +:+ s) = true.
Proof.
  induction p as [|c p IH]; [destruct s; reflexivity|].
  cbn [String.append String.prefix]. destruct (ascii_dec c c); congruence.
Qed.

Lemma ph_local_name_prefixed prefix t :
  startswith (ph_local_name prefix t) (prefix +:+ "__") = true.
Proof.
  unfold ph_local_name.
  destruct (startswith (scope_basename (node_name (tensor_node t))) (prefix +:+ "__"))
    eqn:E; [exact E|].
  unfold startswith. rewrite <- (str_app_assoc prefix "__"). apply prefix_app.
Qed.

Lemma ph_local_name_no_slash prefix t :
  no_slash prefix -> no_slash (ph_local_name prefix t).
Proof.
  intros Hp. unfold ph_local_name.
  destruct (startswith _ _); [apply scope_basename_no_slash|].
  repeat apply no_slash_app;
    auto using scope_basename_no_slash, no_slash_format_nat; reflexivity.
Qed.


Example placeholder_name_examples :
  placeholder_name (PTensor (mkTensor node_a 2)) (Some "x/y") "geph"
    = Return "x/y/geph__a_2"
  /\ placeholder_name (PTensor (mkTensor node_a 2)) (Some "") "geph"
     = Return "geph__a_2"
  /\ placeholder_name (PTensor (mkTensor node_a 2)) None "geph"
     = Return "scope/geph__a_2"
  /\ placeholder_name
       (PTensor (mkTensor (mkNode 9 "x/y/geph__a_2" 0 []) 0)) (Some "x/y") "geph"
     = Return "x/y/geph__a_2"
  /\ placeholder_name PNone (Some "x") "geph" = Return "x/geph"
  /\ placeholder_name PNone None "geph" = Return "geph"
  /\ placeholder_name (PNode node_a) None "geph" = Raise TypeError.
Proof. repeat split. Qed.

(** With no scope given, the scope of the Tensor's Node is kept. *)
Lemma placeholder_name_keeps_scope (t : Tensor) prefix :
  placeholder_name (PTensor t) None prefix =
  Return (scope_dirname (node_name (tensor_node t)) +:+ ph_local_name prefix t).
Proof. reflexivity. Qed.

(** The scope a placeholder name is put under. *)
Lemma placeholder_name_returns (t : Tensor) scope prefix :
  placeholder_name (PTensor t) scope prefix =
  Return ((match scope with
           | None => scope_dirname (node_name (tensor_node t))
           | Some s => scope_finalize s
           end) +:+ ph_local_name prefix t).
Proof. by destruct scope. Qed.

Lemma placeholder_scope_finalized (t : Tensor) scope :
  let sc := match scope with
            | None => scope_dirname (node_name (tensor_node t))
            | Some s => scope_finalize s
            end in
  scope_finalize sc = sc.
Proof.
  destruct scope as [s|]; cbv zeta; [|apply scope_dirname_finalized].
  destruct (scope_finalize_shape s) as [->|[a ->]]; [reflexivity|].
  unfold scope_finalize. rewrite str_last_app_char.
  rewrite bool_decide_true by reflexivity. by rewrite andb_false_r.
Qed.

(** Where the name lands.  For a prefix without the delimiter, the name
    [placeholder_name] gives for a Tensor lies directly in the requested
    scope (the finalized [scope], or the scope of the Tensor's Node when
    none is given), and its basename starts with the prefix followed by
    two underscores; without a Tensor the name is the prefix itself in
    the requested scope, the root scope when none is given. *)
Theorem placeholder_name_scope prefix (t : Tensor) scope :
  no_slash prefix ->
  let sc := match scope with
            | None => scope_dirname (node_name (tensor_node t))
            | Some s => scope_finalize s
            end in
  (exists name,
     placeholder_name (PTensor t) scope prefix = Return name
     /\ scope_dirname name = sc
     /\ scope_basename name = ph_local_name prefix t
     /\ startswith (scope_basename name) (prefix +:+ "__") = true)
  /\ (exists name,
        placeholder_name PNone scope prefix = Return name
        /\ scope_dirname name = default "" (scope_finalize <$> scope)
        /\ scope_basename name = prefix).
Proof.
  intros Hp sc. pose proof (placeholder_scope_finalized t scope) as Hsc.
  cbv zeta in Hsc. fold sc in Hsc. split.
  - exists (sc +:+ ph_local_name prefix t).
    split; [apply placeholder_name_returns|].
    pose proof (ph_local_name_no_slash prefix t Hp) as Hl.
    rewrite <- Hsc.
    rewrite scope_dirname_under, scope_basename_under by done.
    split; [done|]. split; [done|]. apply ph_local_name_prefixed.
  - destruct scope as [s|]; cbn [placeholder_name option_map fmap default id].
    + exists (scope_finalize s +:+ prefix). split; [done|].
      by rewrite scope_dirname_under, scope_basename_under.
    + exists prefix. split; [done|]. unfold scope_dirname, scope_basename.
      by rewrite Hp.
Qed.

Lemma placeholder_name_scope_witness :
  no_slash "geph"
  /\ (exists name,
        placeholder_name (PTensor (mkTensor node_a 2)) None "geph" = Return name
        /\ scope_dirname name = scope_dirname (node_name node_a)
        /\ scope_basename name = ph_local_name "geph" (mkTensor node_a 2)
        /\ startswith (scope_basename name) ("geph" +:+ "__") = true)
  /\ (exists name,
        placeholder_name PNone None "geph" = Return name
        /\ scope_dirname name = ""
        /\ scope_basename name = "geph").
Proof.
  split; [reflexivity|].
  apply (placeholder_name_scope "geph" (mkTensor node_a 2) None). reflexivity.
Defined.

(** Idempotence for any prefix without the delimiter and any scope
    argument: a Tensor whose Node carries a name that [placeholder_name]
    generated gets that very name again. *)
Theorem placeholder_name_idempotent prefix (t t' : Tensor) scope name :
  no_slash prefix ->
  placeholder_name (PTensor t) scope prefix = Return name ->
  node_name (tensor_node t') = name ->
  placeholder_name (PTensor t') scope prefix = Return name.
Proof.
  intros Hp Hname Ht'. rewrite placeholder_name_returns in Hname.
  injection Hname as Hname. rewrite placeholder_name_returns.
  pose proof (placeholder_scope_finalized t scope) as Hsc. cbv zeta in Hsc.
  pose proof (ph_local_name_no_slash prefix t Hp) as Hl.
  assert (Hb : scope_basename name = ph_local_name prefix t).
  { rewrite <- Hname, <- Hsc. by apply scope_basename_under. }
  assert (Hd : scope_dirname name = match scope with
                                    | None => scope_dirname (node_name (tensor_node t))
                                    | Some s => scope_finalize s
                                    end).
  { rewrite <- Hname at 1. rewrite <- Hsc at 1. rewrite scope_dirname_under by done.
    exact Hsc. }
  assert (Hloc : ph_local_name prefix t' = ph_local_name prefix t).
  { unfold ph_local_name at 1. rewrite Ht', Hb.
    by rewrite ph_local_name_prefixed. }
  rewrite Hloc. f_equal. destruct scope as [s|]; [exact Hname|].
  rewrite Ht', Hd. exact Hname.
Qed.

Lemma placeholder_name_idempotent_witness :
  no_slash "ph"
  /\ placeholder_name (PTensor (mkTensor node_a 2)) None "ph" = Return "scope/ph__a_2"
  /\ placeholder_name (PTensor (mkTensor (mkNode 9 "scope/ph__a_2" 0 []) 5)) None "ph"
     = Return "scope/ph__a_2".
Proof.
  split; [reflexivity|]. split; [reflexivity|].
  apply (placeholder_name_idempotent "ph" (mkTensor node_a 2)
           (mkTensor (mkNode 9 "scope/ph__a_2" 0 []) 5) None "scope/ph__a_2");
    reflexivity.
Defined.

(** With a delimiter in the prefix the generated name is not recognized:
    the prefix is put in front a second time. *)
Example placeholder_name_prefix_with_delimiter :
  placeholder_name (PTensor (mkTensor node_a 0)) (Some "") "x/ph" = Return "x/ph__a_0"
  /\ placeholder_name (PTensor (mkTensor (mkNode 9 "x/ph__a_0" 0 []) 0)) (Some "") "x/ph"
     = Return "x/ph__ph__a_0_0".
Proof. by split. Qed.

(** ** Loops *)

Lemma for_each_map {A B S} (g : A -> B) (body : B -> S -> outcome S) xs s :
  for_each body (map g xs) s = for_each (fun x => body (g x)) xs s.
Proof.
  revert s. induction xs as [|x xs IH]; intros s; [reflexivity|].
  cbn [for_each map]. destruct (body (g x) s); [apply IH|reflexivity].
Qed.

(** A loop that ends normally has run its body normally on every item. *)
Lemma for_each_returns {A S} (body : A -> S -> outcome S) xs s r :
  for_each body xs s = Return r ->
  forall x, x ∈ xs -> exists s' r', body x s' = Return r'.
Proof.
  revert s. induction xs as [|y xs IH]; intros s H x Hx; [inversion Hx|].
  cbn [for_each] in H. destruct (body y s) as [s'|e] eqn:E; [|discriminate].
  apply elem_of_cons in Hx as [->|Hx]; [eauto|]. exact (IH _ H _ Hx).
Qed.

(** A loop raises only what its body raises. *)
Lemma for_each_raises {A S} (body : A -> S -> outcome S) xs s e :
  for_each body xs s = Raise e ->
  exists x s', x ∈ xs /\ body x s' = Raise e.
Proof.
  revert s. induction xs as [|y xs IH]; intros s H; [discriminate|].
  cbn [for_each] in H. destruct (body y s) as [s'|e'] eqn:E.
  - destruct (IH _ H) as (x & s'' & Hx & Hb). exists x, s''.
    split; [apply elem_of_cons; by right|exact Hb].
  - injection H as ->. exists y, s. split; [apply elem_of_cons; by left|exact E].
Qed.

(** A loop whose body appends [L x] for the item [x] appends them all. *)
Lemma for_each_appends {A B} (body : A -> list B -> outcome (list B))
    (L : A -> list B) xs acc :
  (forall x acc, x ∈ xs -> body x acc = Return (acc ++ L x)) ->
  for_each body xs acc = Return (acc ++ flat_map L xs).
Proof.
  revert acc. induction xs as [|x xs IH]; intros acc H.
  - cbn. by rewrite app_nil_r.
  - cbn [for_each flat_map]. rewrite H by (apply elem_of_cons; by left).
    change (for_each body xs (acc ++ L x) = Return (acc ++ L x ++ flat_map L xs)).
    rewrite IH, <- app_assoc; [reflexivity|].
    intros y acc' Hy. apply H. apply elem_of_cons; by right.
Qed.

Lemma collect_returns {A B} (f : A -> outcome B) xs r :
  collect f xs = Return r -> forall x, x ∈ xs -> exists y, f x = Return y.
Proof.
  revert r. induction xs as [|y xs IH]; intros r H x Hx; [inversion Hx|].
  cbn [collect] in H. destruct (f y) as [b|e] eqn:E; [|discriminate].
  destruct (collect f xs) as [bs|e] eqn:E'; [|discriminate].
  apply elem_of_cons in Hx as [->|Hx]; [eauto|]. exact (IH _ eq_refl _ Hx).
Qed.

Lemma collect_raises {A B} (f : A -> outcome B) xs e :
  collect f xs = Raise e -> exists x, x ∈ xs /\ f x = Raise e.
Proof.
  induction xs as [|y xs IH]; intros H; [discriminate|].
  cbn [collect] in H. destruct (f y) as [b|e'] eqn:E.
  - destruct (collect f xs) as [bs|e''] eqn:E'; [discriminate|].
    injection H as ->. destruct (IH eq_refl) as (x & Hx & Hf).
    exists x. split; [apply elem_of_cons; by right|exact Hf].
  - injection H as ->. exists y. split; [apply elem_of_cons; by left|exact E].
Qed.

Lemma collect_map {A B} (f : A -> outcome B) (g : A -> B) xs :
  (forall x, x ∈ xs -> f x = Return (g x)) -> collect f xs = Return (map g xs).
Proof.
  induction xs as [|x xs IH]; intros H; [reflexivity|].
  cbn [collect map]. rewrite H by (apply elem_of_cons; by left).
  rewrite IH; [reflexivity|]. intros y Hy. apply H. apply elem_of_cons; by right.
Qed.

(** ** Dicts and named tuples *)

Lemma dict_set_fresh items k v :
  k ∉ map fst items -> dict_set items k v = items ++ [(k, v)].
Proof.
  induction items as [|[k' v'] items IH]; intros Hk; [reflexivity|].
  cbn [dict_set]. cbn [map fst] in Hk. apply not_elem_of_cons in Hk as [Hne Hk].
  destruct (String.eqb_spec k' k) as [->|_]; [done|].
  cbn [app]. by rewrite IH.
Qed.

Lemma dict_of_pairs_from d pairs :
  NoDup (map fst (d ++ pairs)) ->
  fold_left (fun d kv => dict_set d kv.1 kv.2) pairs d = d ++ pairs.
Proof.
  revert d. induction pairs as [|[k v] pairs IH]; intros d Hnd.
  - cbn. by rewrite app_nil_r.
  - cbn [fold_left]. rewrite dict_set_fresh.
    + rewrite IH; rewrite <- app_assoc; [reflexivity|exact Hnd].
    + rewrite map_app in Hnd. apply NoDup_app in Hnd as (_ & Hd & _).
      intros Hin. apply (Hd k Hin). cbn. apply elem_of_cons. by left.
Qed.

(** Building a dict from pairs with distinct keys keeps the pairs. *)
Lemma dict_of_pairs_NoDup pairs :
  NoDup (map fst pairs) -> dict_of_pairs pairs = pairs.
Proof. intros H. unfold dict_of_pairs. by rewrite dict_of_pairs_from. Qed.

Lemma dict_get_elem items k :
  k ∈ map fst items -> is_Some (dict_get items k).
Proof.
  induction items as [|[k' v'] items IH]; cbn [map fst dict_get]; intros Hk.
  - inversion Hk.
  - destruct (String.eqb_spec k' k) as [->|Hne]; [eauto|].
    apply elem_of_cons in Hk as [->|Hk]; [done|]. by apply IH.
Qed.

Lemma dict_get_app_fresh pre items k :
  k ∉ map fst pre -> dict_get (pre ++ items) k = dict_get items k.
Proof.
  induction pre as [|[k' v'] pre IH]; intros Hk; [reflexivity|].
  cbn [map fst] in Hk. apply not_elem_of_cons in Hk as [Hne Hk].
  cbn [app dict_get]. destruct (String.eqb_spec k' k) as [->|_]; [done|]. by apply IH.
Qed.

Lemma dict_get_fields pre items :
  NoDup (map fst (pre ++ items)) ->
  Forall2 (fun f y => pair f <$> dict_get (pre ++ items) f = Some y)
          (map fst items) items.
Proof.
  revert pre. induction items as [|[k v] items IH]; intros pre Hnd; [constructor|].
  cbn [map fst]. constructor.
  - rewrite dict_get_app_fresh.
    + cbn. by rewrite String.eqb_refl.
    + rewrite map_app in Hnd. apply NoDup_app in Hnd as (_ & Hd & _).
      intros Hin. apply (Hd k Hin). cbn. apply elem_of_cons. by left.
  - specialize (IH (pre ++ [(k, v)])). rewrite <- app_assoc in IH. by apply IH.
Qed.

Lemma mapM_dict_get_NoDup items :
  NoDup (map fst items) ->
  mapM (fun f => pair f <$> dict_get items f) (map fst items) = Some items.
Proof. intros Hnd. apply mapM_Some. by apply (dict_get_fields []). Qed.

(** The keywords of a named tuple's own fields rebuild the named tuple. *)
Lemma namedtuple_new_fields cls names fields :
  names = map fst fields -> NoDup names ->
  namedtuple_new cls names fields = Return (PNamedTuple cls fields).
Proof.
  intros -> Hnd. unfold namedtuple_new.
  assert (forallb (fun kv => bool_decide (kv.1 ∈ map fst fields)) fields = true) as ->.
  { apply forallb_forall. intros kv Hkv. apply bool_decide_eq_true.
    apply list_elem_of_In, in_map, Hkv. }
  by rewrite mapM_dict_get_NoDup.
Qed.

(** ** The tree walkers on finite trees *)

Lemma flatten_tree_S n st t leaves :
  flatten_tree (S n) st t leaves =
  match flatten_children st t with
  | Some cs => for_each (fun c l => flatten_tree n st c (Some l)) cs (default [] leaves)
  | None => Return (default [] leaves ++ [t])
  end.
Proof.
  cbn [flatten_tree]. unfold flatten_children.
  destruct (isinstance st t C_dict).
  - rewrite for_each_map. by destruct leaves.
  - unfold is_iterable. destruct (isinstance st t C_Node); [by destruct leaves|].
    destruct (py_iter st t); by destruct leaves.
Qed.

Lemma list_max_elem {A} (f : A -> nat) x xs :
  x ∈ xs -> (f x <= list_max (map f xs))%nat.
Proof.
  induction xs as [|y xs IH]; intros Hx; [inversion Hx|].
  change (map f (y :: xs)) with (f y :: map f xs).
  change (list_max (f y :: map f xs)) with (Nat.max (f y) (list_max (map f xs))).
  apply elem_of_cons in Hx as [->|Hx]; [lia|].
  specialize (IH Hx). lia.
Qed.

Lemma walk_depth_pos t : (1 <= walk_depth t)%nat.
Proof. destruct t; cbn [walk_depth]; lia. Qed.

Lemma forallb_elem {A} (p : A -> bool) x xs :
  forallb p xs = true -> x ∈ xs -> p x = true.
Proof.
  intros H Hx. rewrite forallb_forall in H. apply H. by apply list_elem_of_In.
Qed.

(** With enough nested calls allowed, [flatten_tree] appends the leaves
    of a finite tree. *)
Lemma flatten_tree_nested st limit : forall t acc,
  nested_tree t = true -> (walk_depth t <= limit)%nat ->
  flatten_tree limit st t (Some acc) = Return (acc ++ leaves_of t).
Proof.
  induction limit as [|n IH]; intros t acc Hn Hd.
  { pose proof (walk_depth_pos t). lia. }
  rewrite flatten_tree_S.
  destruct t; try discriminate Hn; try reflexivity; cbn [nested_tree] in Hn;
    cbn [walk_depth] in Hd.
  - (* list *)
    change (flatten_children st (PList xs)) with (Some xs). cbn [default leaves_of].
    apply for_each_appends. intros x acc' Hx. apply IH.
    + by apply (forallb_elem _ _ _ Hn).
    + pose proof (list_max_elem walk_depth x xs Hx). lia.
  - (* tuple *)
    change (flatten_children st (PTuple xs)) with (Some xs). cbn [default leaves_of].
    apply for_each_appends. intros x acc' Hx. apply IH.
    + by apply (forallb_elem _ _ _ Hn).
    + pose proof (list_max_elem walk_depth x xs Hx). lia.
  - (* named tuple *)
    change (flatten_children st (PNamedTuple cls fields)) with (Some (map snd fields)).
    cbn [default leaves_of]. rewrite for_each_map.
    apply andb_true_iff in Hn as [_ Hn].
    apply (for_each_appends _ (fun kv => leaves_of kv.2)). intros x acc' Hx. apply IH.
    + by apply (forallb_elem _ _ _ Hn).
    + pose proof (list_max_elem (fun kv => walk_depth kv.2) x fields Hx). cbn in H. lia.
  - (* dict *)
    change (flatten_children st (PDict items)) with (Some (map snd items)).
    cbn [default leaves_of]. rewrite for_each_map.
    apply andb_true_iff in Hn as [_ Hn].
    apply (for_each_appends _ (fun kv => leaves_of kv.2)). intros x acc' Hx. apply IH.
    + by apply (forallb_elem _ _ _ Hn).
    + pose proof (list_max_elem (fun kv => walk_depth kv.2) x items Hx). cbn in H. lia.
Qed.

Lemma map_fst_relabel {A B C} (g : B -> C) (fs : list (A * B)) :
  map fst (map (fun kv => (kv.1, g kv.2)) fs) = map fst fs.
Proof. induction fs as [|[k v] fs IH]; [reflexivity|]. cbn. by rewrite IH. Qed.

(** With enough nested calls allowed, [transform_tree] rebuilds a finite
    tree with [fn] applied to its leaves. *)
Lemma transform_tree_nested st fn limit : forall t it,
  nested_tree t = true -> (walk_depth t <= limit)%nat ->
  transform_tree limit st t fn it = Return (map_tree fn t).
Proof.
  induction limit as [|n IH]; intros t it Hn Hd.
  { pose proof (walk_depth_pos t). lia. }
  destruct t; try discriminate Hn; try reflexivity; cbn [nested_tree] in Hn;
    cbn [walk_depth] in Hd.
  - (* list *)
    change (transform_tree (S n) st (PList xs) fn it)
      with (xs' ← collect (fun c => transform_tree n st c fn ctor_tuple) xs;
            Return (PList xs')).
    rewrite (collect_map _ (map_tree fn)); [reflexivity|].
    intros x Hx. apply IH.
    + by apply (forallb_elem _ _ _ Hn).
    + pose proof (list_max_elem walk_depth x xs Hx). lia.
  - (* tuple *)
    change (transform_tree (S n) st (PTuple xs) fn it)
      with (xs' ← collect (fun c => transform_tree n st c fn ctor_tuple) xs;
            Return (PTuple xs')).
    rewrite (collect_map _ (map_tree fn)); [reflexivity|].
    intros x Hx. apply IH.
    + by apply (forallb_elem _ _ _ Hn).
    + pose proof (list_max_elem walk_depth x xs Hx). lia.
  - (* named tuple *)
    change (transform_tree (S n) st (PNamedTuple cls fields) fn it)
      with (d ← transform_tree n st (PDict fields) fn ctor_tuple;
            namedtuple_new cls (map fst fields) (dict_items st d)).
    rewrite IH; [|exact Hn|cbn [walk_depth]; lia].
    cbn [map_tree]. apply andb_true_iff in Hn as [Hnd _].
    apply bool_decide_eq_true in Hnd.
    change (namedtuple_new cls (map fst fields)
              (map (fun kv => (kv.1, map_tree fn kv.2)) fields) =
            Return (PNamedTuple cls (map (fun kv => (kv.1, map_tree fn kv.2)) fields))).
    apply namedtuple_new_fields; [by rewrite map_fst_relabel|exact Hnd].
  - (* dict *)
    change (transform_tree (S n) st (PDict items) fn it)
      with (pairs ← collect (fun kv => c ← transform_tree n st kv.2 fn ctor_tuple;
                                        Return (kv.1, c)) items;
            Return (PDict (dict_of_pairs pairs))).
    apply andb_true_iff in Hn as [Hnd Hn]. apply bool_decide_eq_true in Hnd.
    rewrite (collect_map _ (fun kv => (kv.1, map_tree fn kv.2))).
    + cbn [map_tree]. change (Return (PDict (dict_of_pairs
                 (map (fun kv => (kv.1, map_tree fn kv.2)) items))) =
              Return (PDict (map (fun kv => (kv.1, map_tree fn kv.2)) items))).
      rewrite dict_of_pairs_NoDup; [reflexivity|by rewrite map_fst_relabel].
    + intros x Hx. rewrite IH; [reflexivity| |].
      * by apply (forallb_elem _ _ _ Hn).
      * pose proof (list_max_elem (fun kv => walk_depth kv.2) x items Hx). cbn in H. lia.
Qed.

(** A value that is not iterable is a leaf of the finite trees. *)
Lemma not_iterable_leaf st o :
  is_iterable st o = false ->
  nested_tree o = true /\ leaves_of o = [o] /\ walk_depth o = 1%nat /\ shape o = PNone.
Proof.
  intros H.
  destruct o;
    first [ by repeat split
          | exfalso; revert H; unfold is_iterable, isinstance; cbn;
            try destruct (st l); discriminate ].
Qed.

Lemma flat_map_map {A B C} (f : B -> list C) (g : A -> B) xs :
  flat_map f (map g xs) = flat_map (fun x => f (g x)) xs.
Proof. induction xs as [|x xs IH]; [reflexivity|]. cbn. by rewrite IH. Qed.

Lemma flat_map_ext_elem {A B} (f g : A -> list B) xs :
  (forall x, x ∈ xs -> f x = g x) -> flat_map f xs = flat_map g xs.
Proof.
  induction xs as [|x xs IH]; intros H; [reflexivity|]. cbn.
  rewrite H by (apply elem_of_cons; by left).
  rewrite IH; [reflexivity|]. intros y Hy. apply H. apply elem_of_cons; by right.
Qed.

Lemma map_flat_map {A B C} (g : B -> C) (f : A -> list B) xs :
  map g (flat_map f xs) = flat_map (fun x => map g (f x)) xs.
Proof. induction xs as [|x xs IH]; [reflexivity|]. cbn. by rewrite map_app, IH. Qed.

Lemma map_ext_elem {A B} (f g : A -> B) xs :
  (forall x, x ∈ xs -> f x = g x) -> map f xs = map g xs.
Proof.
  induction xs as [|x xs IH]; intros H; [reflexivity|]. cbn.
  rewrite H by (apply elem_of_cons; by left).
  rewrite IH; [reflexivity|]. intros y Hy. apply H. apply elem_of_cons; by right.
Qed.

Lemma forallb_map {A B} (p : B -> bool) (g : A -> B) xs :
  forallb p (map g xs) = forallb (fun x => p (g x)) xs.
Proof. induction xs as [|x xs IH]; [reflexivity|]. cbn. by rewrite IH. Qed.

Lemma forallb_ext_elem {A} (p q : A -> bool) xs :
  (forall x, x ∈ xs -> p x = q x) -> forallb p xs = forallb q xs.
Proof.
  induction xs as [|x xs IH]; intros H; [reflexivity|]. cbn.
  rewrite H by (apply elem_of_cons; by left).
  rewrite IH; [reflexivity|]. intros y Hy. apply H. apply elem_of_cons; by right.
Qed.

(** [map_tree] with a leaf-valued [fn] keeps a finite tree finite, maps
    its leaves in order and keeps its depth and shape. *)
Lemma map_tree_nested st fn :
  (forall x, is_iterable st (fn x) = false) ->
  forall n t, (walk_depth t <= n)%nat -> nested_tree t = true ->
    nested_tree (map_tree fn t) = true
    /\ leaves_of (map_tree fn t) = map fn (leaves_of t)
    /\ walk_depth (map_tree fn t) = walk_depth t
    /\ shape (map_tree fn t) = shape t.
Proof.
  intros Hfn. induction n as [|n IH]; intros t Hd Hn.
  { pose proof (walk_depth_pos t). lia. }
  destruct t; try discriminate Hn;
    try (cbn [map_tree leaves_of walk_depth shape map];
         match goal with
         | |- context [fn ?x] =>
             destruct (not_iterable_leaf st _ (Hfn x)) as (H1 & H2 & H3 & H4)
         end;
         rewrite H1, H2, H3, H4; by repeat split);
    cbn [nested_tree] in Hn; cbn [walk_depth] in Hd.
  - (* list *)
    assert (Hxs : forall x, x ∈ xs -> (walk_depth x <= n)%nat /\ nested_tree x = true).
    { intros x Hx. split; [pose proof (list_max_elem walk_depth x xs Hx); lia|].
      by apply (forallb_elem _ _ _ Hn). }
    cbn [map_tree nested_tree leaves_of walk_depth shape]. repeat split.
    + rewrite forallb_map, <- Hn. apply forallb_ext_elem.
      intros x Hx. destruct (Hxs x Hx) as [H1 H2]. rewrite H2. by apply IH.
    + rewrite flat_map_map, map_flat_map. apply flat_map_ext_elem.
      intros x Hx. destruct (Hxs x Hx). by apply IH.
    + rewrite map_map. do 2 f_equal. apply map_ext_elem.
      intros x Hx. destruct (Hxs x Hx). by apply IH.
    + rewrite map_map. f_equal. apply map_ext_elem.
      intros x Hx. destruct (Hxs x Hx). by apply IH.
  - (* tuple *)
    assert (Hxs : forall x, x ∈ xs -> (walk_depth x <= n)%nat /\ nested_tree x = true).
    { intros x Hx. split; [pose proof (list_max_elem walk_depth x xs Hx); lia|].
      by apply (forallb_elem _ _ _ Hn). }
    cbn [map_tree nested_tree leaves_of walk_depth shape]. repeat split.
    + rewrite forallb_map, <- Hn. apply forallb_ext_elem.
      intros x Hx. destruct (Hxs x Hx) as [H1 H2]. rewrite H2. by apply IH.
    + rewrite flat_map_map, map_flat_map. apply flat_map_ext_elem.
      intros x Hx. destruct (Hxs x Hx). by apply IH.
    + rewrite map_map. do 2 f_equal. apply map_ext_elem.
      intros x Hx. destruct (Hxs x Hx). by apply IH.
    + rewrite map_map. f_equal. apply map_ext_elem.
      intros x Hx. destruct (Hxs x Hx). by apply IH.
  - (* named tuple *)
    apply andb_true_iff in Hn as [Hnd Hn].
    assert (Hxs : forall x, x ∈ fields ->
                    (walk_depth x.2 <= n)%nat /\ nested_tree x.2 = true).
    { intros x Hx. split.
      - pose proof (list_max_elem (fun kv => walk_depth kv.2) x fields Hx). cbn in H. lia.
      - by apply (forallb_elem _ _ _ Hn). }
    cbn [map_tree nested_tree leaves_of walk_depth shape]. repeat split.
    + rewrite map_fst_relabel, Hnd. cbn [andb].
      rewrite forallb_map, <- Hn. apply forallb_ext_elem.
      intros x Hx. destruct (Hxs x Hx) as [H1 H2]. cbn. rewrite H2. by apply IH.
    + rewrite flat_map_map, map_flat_map. apply flat_map_ext_elem.
      intros x Hx. destruct (Hxs x Hx). cbn. by apply IH.
    + rewrite map_map. do 3 f_equal. apply map_ext_elem.
      intros x Hx. destruct (Hxs x Hx). cbn. by apply IH.
    + rewrite map_map. f_equal. apply map_ext_elem.
      intros x Hx. destruct (Hxs x Hx). cbn. f_equal. by apply IH.
  - (* dict *)
    apply andb_true_iff in Hn as [Hnd Hn].
    assert (Hxs : forall x, x ∈ items ->
                    (walk_depth x.2 <= n)%nat /\ nested_tree x.2 = true).
    { intros x Hx. split.
      - pose proof (list_max_elem (fun kv => walk_depth kv.2) x items Hx). cbn in H. lia.
      - by apply (forallb_elem _ _ _ Hn). }
    cbn [map_tree nested_tree leaves_of walk_depth shape]. repeat split.
    + rewrite map_fst_relabel, Hnd. cbn [andb].
      rewrite forallb_map, <- Hn. apply forallb_ext_elem.
      intros x Hx. destruct (Hxs x Hx) as [H1 H2]. cbn. rewrite H2. by apply IH.
    + rewrite flat_map_map, map_flat_map. apply flat_map_ext_elem.
      intros x Hx. destruct (Hxs x Hx). cbn. by apply IH.
    + rewrite map_map. do 2 f_equal. apply map_ext_elem.
      intros x Hx. destruct (Hxs x Hx). cbn. by apply IH.
    + rewrite map_map. f_equal. apply map_ext_elem.
      intros x Hx. destruct (Hxs x Hx). cbn. f_equal. by apply IH.
Qed.

Lemma flatten_tree_None limit st t :
  flatten_tree limit st t None = flatten_tree limit st t (Some []).
Proof. by destruct limit. Qed.




Example flatten_tree_example :
  flatten_tree 6 empty_store sample_tree None
  = Return [PNode node_a; PTensor (mkTensor node_a 0); PNode node_b;
            PTensor (mkTensor node_b 1)].
Proof. reflexivity. Qed.

Example transform_tree_example :
  transform_tree 6 empty_store sample_tree owner_node ctor_tuple
  = Return
      (PList [PNode node_a;
              PTuple [PNamedTuple "Pair" [("first", PNode node_a);
                                          ("second", PDict [("k", PNode node_b)])];
                      PDict [("x", PList [PNode node_b]); ("y", PTuple [])]]]).
Proof. reflexivity. Qed.

(** An iterable that is neither a mapping nor a sequence is rebuilt by
    [iterable_type] at the top and by the default [tuple] below. *)
Example transform_tree_iterable_type :
  transform_tree 4 empty_store (PSet [PSet [PNode node_a]; PNode node_b])
    owner_node ctor_list
  = Return (PList [PTuple [PNode node_a]; PNode node_b]).
Proof. reflexivity. Qed.

Lemma map_id_elem {A} (f : A -> A) xs :
  (forall x, x ∈ xs -> f x = x) -> map f xs = xs.
Proof.
  intros Hf. rewrite <- (map_id xs) at 2. by apply map_ext_elem.
Qed.

(** The identity on the leaves rebuilds a finite tree as it is. *)
Lemma map_tree_id : forall n t,
  (walk_depth t <= n)%nat -> nested_tree t = true -> map_tree (fun x => x) t = t.
Proof.
  induction n as [|n IH]; intros t Hd Hn.
  { pose proof (walk_depth_pos t). lia. }
  destruct t; try discriminate Hn; try reflexivity; cbn [nested_tree] in Hn;
    cbn [walk_depth] in Hd; cbn [map_tree]; f_equal.
  - apply map_id_elem. intros x Hx. apply IH.
    + pose proof (list_max_elem walk_depth x xs Hx). lia.
    + by apply (forallb_elem _ _ _ Hn).
  - apply map_id_elem. intros x Hx. apply IH.
    + pose proof (list_max_elem walk_depth x xs Hx). lia.
    + by apply (forallb_elem _ _ _ Hn).
  - apply andb_true_iff in Hn as [_ Hn]. apply map_id_elem. intros [k v] Hx.
    cbn. f_equal. apply IH.
    + pose proof (list_max_elem (fun kv => walk_depth kv.2) _ fields Hx). cbn in H. lia.
    + exact (forallb_elem _ _ _ Hn Hx).
  - apply andb_true_iff in Hn as [_ Hn]. apply map_id_elem. intros [k v] Hx.
    cbn. f_equal. apply IH.
    + pose proof (list_max_elem (fun kv => walk_depth kv.2) _ items Hx). cbn in H. lia.
    + exact (forallb_elem _ _ _ Hn Hx).
Qed.

(** Two passes over a finite tree are one pass with the composed
    function, when the first function returns leaves. *)
Lemma map_tree_compose st f g :
  (forall x, is_iterable st (f x) = false) ->
  forall n t, (walk_depth t <= n)%nat -> nested_tree t = true ->
    map_tree g (map_tree f t) = map_tree (fun x => g (f x)) t.
Proof.
  intros Hf. induction n as [|n IH]; intros t Hd Hn.
  { pose proof (walk_depth_pos t). lia. }
  assert (Hleaf : forall x, map_tree g (f x) = g (f x)).
  { intros x. specialize (Hf x). destruct (f x); try reflexivity; exfalso; revert Hf;
      unfold is_iterable, isinstance; cbn; try destruct (st l); discriminate. }
  destruct t; try discriminate Hn; try (cbn [map_tree]; apply Hleaf);
    cbn [nested_tree] in Hn; cbn [walk_depth] in Hd; cbn [map_tree]; f_equal;
    rewrite map_map.
  - apply map_ext_elem. intros x Hx. apply IH.
    + pose proof (list_max_elem walk_depth x xs Hx). lia.
    + by apply (forallb_elem _ _ _ Hn).
  - apply map_ext_elem. intros x Hx. apply IH.
    + pose proof (list_max_elem walk_depth x xs Hx). lia.
    + by apply (forallb_elem _ _ _ Hn).
  - apply andb_true_iff in Hn as [_ Hn]. apply map_ext_elem. intros [k v] Hx.
    cbn. f_equal. apply IH.
    + pose proof (list_max_elem (fun kv => walk_depth kv.2) _ fields Hx). cbn in H. lia.
    + exact (forallb_elem _ _ _ Hn Hx).
  - apply andb_true_iff in Hn as [_ Hn]. apply map_ext_elem. intros [k v] Hx.
    cbn. f_equal. apply IH.
    + pose proof (list_max_elem (fun kv => walk_depth kv.2) _ items Hx). cbn in H. lia.
    + exact (forallb_elem _ _ _ Hn Hx).
Qed.

(** [transform_tree] on finite trees, once the recursion limit covers
    the depth of the tree: the identity function gives back a tree equal
    to the input; and transforming with [f] (whose results are leaves) and
    then with [g] gives what one pass with [g] after [f] gives. *)
Theorem transform_tree_compose st t f g it it' limit :
  nested_tree t = true ->
  (walk_depth t <= limit)%nat ->
  (forall x, is_iterable st (f x) = false) ->
  transform_tree limit st t (fun x => x) it = Return t
  /\ exists t',
       transform_tree limit st t f it = Return t'
       /\ transform_tree limit st t' g it'
          = transform_tree limit st t (fun x => g (f x)) it'.
Proof.
  intros Hn Hd Hf. split.
  - rewrite transform_tree_nested by done. f_equal.
    by apply (map_tree_id (walk_depth t)).
  - exists (map_tree f t). split; [by apply transform_tree_nested|].
    destruct (map_tree_nested st f Hf _ t (Nat.le_refl _) Hn) as (Hn' & _ & Hd' & _).
    rewrite !transform_tree_nested by (done || lia). f_equal.
    by apply (map_tree_compose st f g Hf (walk_depth t)).
Qed.

Lemma transform_tree_compose_witness :
  nested_tree sample_tree = true
  /\ transform_tree 6 empty_store sample_tree (fun x => x) ctor_tuple = Return sample_tree
  /\ exists t',
       transform_tree 6 empty_store sample_tree owner_node ctor_tuple = Return t'
       /\ transform_tree 6 empty_store t' owner_node ctor_list
          = transform_tree 6 empty_store sample_tree
              (fun x => owner_node (owner_node x)) ctor_list.
Proof.
  split; [reflexivity|].
  apply (transform_tree_compose empty_store sample_tree owner_node owner_node
           ctor_tuple ctor_list 6).
  - reflexivity.
  - vm_compute. lia.
  - intros x. by destruct x.
Defined.

(** A loop whose body appends to its state what a function of the item
    alone computes appends, to any initial state, what it appends to the
    empty one. *)
Lemma for_each_shift {A B} (body : A -> list B -> outcome (list B))
    (g : A -> outcome (list B)) xs :
  (forall x acc, x ∈ xs -> body x acc = (r ← g x; Return (acc ++ r))) ->
  forall acc, for_each body xs acc = (r ← for_each body xs []; Return (acc ++ r)).
Proof.
  induction xs as [|x xs IH]; intros Hb acc.
  - cbn. by rewrite app_nil_r.
  - cbn [for_each]. rewrite !Hb by (apply elem_of_cons; by left).
    assert (IH' : forall acc, for_each body xs acc
                              = (r ← for_each body xs []; Return (acc ++ r))).
    { apply IH. intros y acc' Hy. apply Hb. apply elem_of_cons. by right. }
    destruct (g x) as [r1|e]; [|reflexivity]. cbn.
    rewrite (IH' (acc ++ r1)), (IH' r1).
    destruct (for_each body xs []) as [r|e]; [|reflexivity]. cbn.
    by rewrite app_assoc.
Qed.

(** The accumulator of [flatten_tree].  For every value, finite tree or
    not, and every recursion limit: [flatten_tree(tree, leaves)] is
    [leaves] followed by what [flatten_tree(tree)] returns, and raises
    when that call raises. *)
Theorem flatten_tree_accumulates st limit : forall t acc,
  flatten_tree limit st t (Some acc)
  = (r ← flatten_tree limit st t None; Return (acc ++ r)).
Proof.
  induction limit as [|n IH]; intros t acc; [reflexivity|].
  rewrite !flatten_tree_S. destruct (flatten_children st t) as [cs|]; [|reflexivity].
  cbn [default].
  apply (for_each_shift _ (fun c => flatten_tree n st c None)).
  intros c acc' _. apply IH.
Qed.

(** ** The tree walkers on arbitrary values *)

(** [flatten_tree] raises nothing but [RecursionError]. *)
Lemma flatten_tree_raises st limit : forall t leaves e,
  flatten_tree limit st t leaves = Raise e -> e = RecursionError.
Proof.
  induction limit as [|n IH]; intros t leaves e H; [by injection H|].
  rewrite flatten_tree_S in H. destruct (flatten_children st t) as [cs|]; [|discriminate].
  apply for_each_raises in H as (c & l & _ & H). exact (IH _ _ _ H).
Qed.

(** A call that returns has made each of its nested calls return, with
    one nested call less allowed. *)
Lemma flatten_tree_calls st n t leaves r cs c :
  flatten_tree (S n) st t leaves = Return r ->
  flatten_children st t = Some cs -> c ∈ cs ->
  exists l r', flatten_tree n st c (Some l) = Return r'.
Proof.
  intros H Hcs Hc. rewrite flatten_tree_S, Hcs in H.
  exact (for_each_returns _ _ _ _ H c Hc).
Qed.

(** If a set [P] of values is closed under "has a value of [P] among the
    nested calls", [flatten_tree] on a value of [P] exhausts every
    recursion limit. *)
Lemma flatten_tree_unbounded st (P : pyobj -> Prop) :
  (forall v, P v -> exists cs c, flatten_children st v = Some cs /\ c ∈ cs /\ P c) ->
  forall limit v leaves, P v -> flatten_tree limit st v leaves = Raise RecursionError.
Proof.
  intros Hstep. induction limit as [|n IH]; intros v leaves Hv; [reflexivity|].
  destruct (flatten_tree (S n) st v leaves) as [r|e] eqn:E.
  - destruct (Hstep v Hv) as (cs & c & Hcs & Hc & HPc).
    destruct (flatten_tree_calls _ _ _ _ _ _ _ E Hcs Hc) as (l & r' & Hr).
    rewrite (IH c (Some l) HPc) in Hr. discriminate.
  - by rewrite (flatten_tree_raises _ _ _ _ _ E).
Qed.

(** The children of a container are among the nested calls of
    [flatten_tree]. *)
Lemma flatten_children_child st v c :
  child st v c -> exists cs, flatten_children st v = Some cs /\ c ∈ cs.
Proof.
  unfold child, flatten_children, is_iterable, isinstance.
  destruct v; cbn; try (intros H; by inversion H); eauto.
  destruct (st l); cbn; eauto.
Qed.

(** From a value that reaches a self-referential one, some child does. *)
Lemma reaches_cycle_step st v0 v :
  self_referential st v0 -> rtc (child st) v v0 ->
  exists c, child st v c /\ rtc (child st) c v0.
Proof.
  intros Hcyc Hv.
  assert (Htc : tc (child st) v v0).
  { apply rtc_tc in Hv as [->|Hv]; [exact Hcyc|exact Hv]. }
  inversion Htc as [? ? H1|? c ? H1 H2]; subst.
  - exists v0. split; [exact H1|apply rtc_refl].
  - exists c. split; [exact H1|by apply tc_rtc].
Qed.

Lemma dict_set_keys d k v k' :
  k' ∈ map fst (dict_set d k v) <-> k' = k \/ k' ∈ map fst d.
Proof.
  induction d as [|[k0 v0] d IH]; cbn [dict_set map fst].
  - rewrite elem_of_cons. cbn. tauto.
  - destruct (String.eqb_spec k0 k) as [->|Hne]; cbn [map fst]; rewrite !elem_of_cons.
    + tauto.
    + rewrite IH. tauto.
Qed.

Lemma dict_of_pairs_keys pairs k :
  k ∈ map fst (dict_of_pairs pairs) <-> k ∈ map fst pairs.
Proof.
  unfold dict_of_pairs.
  assert (H : forall d, k ∈ map fst (fold_left (fun d kv => dict_set d kv.1 kv.2) pairs d)
                        <-> k ∈ map fst d \/ k ∈ map fst pairs).
  { induction pairs as [|[k0 v0] pairs IH]; intros d; cbn [fold_left map fst].
    - rewrite elem_of_nil. tauto.
    - rewrite IH, dict_set_keys, elem_of_cons. cbn. tauto. }
  rewrite H. cbn. rewrite elem_of_nil. tauto.
Qed.

(** The keywords [transform_tree] builds from a named tuple's own fields
    are accepted by the named tuple's class. *)
Lemma namedtuple_new_returns cls pairs :
  returns (namedtuple_new cls (map fst pairs) (dict_of_pairs pairs)).
Proof.
  unfold namedtuple_new, returns.
  assert (forallb (fun kv => bool_decide (kv.1 ∈ map fst pairs)) (dict_of_pairs pairs)
          = true) as ->.
  { apply forallb_forall. intros kv Hkv. apply bool_decide_eq_true.
    apply dict_of_pairs_keys. apply list_elem_of_In, in_map, Hkv. }
  destruct (mapM _ _) as [fields|] eqn:E; [eauto|].
  exfalso. apply eq_None_not_Some in E. apply E. apply mapM_is_Some.
  apply Forall_forall. intros f Hf. apply fmap_is_Some, dict_get_elem.
  by apply dict_of_pairs_keys.
Qed.

Lemma collect_pairs_keys {A B} (f : A -> outcome B) (fs : list (string * A)) pairs :
  collect (fun kv => c ← f kv.2; Return (kv.1, c)) fs = Return pairs ->
  map fst pairs = map fst fs.
Proof.
  revert pairs. induction fs as [|[k v] fs IH]; intros pairs H.
  - by injection H as <-.
  - cbn [collect] in H. cbn in H. destruct (f v) as [c|]; [|discriminate].
    cbn in H. destruct (collect _ fs) as [ps|] eqn:E; [|discriminate].
    injection H as <-. cbn. f_equal. by apply IH.
Qed.

(** One call of [transform_tree], by the kind of its argument. *)
Lemma transform_tree_S n st t fn it :
  transform_tree (S n) st t fn it =
  let T := fun c => transform_tree n st c fn ctor_tuple in
  let items fs := pairs ← collect (fun kv => c ← T kv.2; Return (kv.1, c)) fs;
                  Return (PDict (dict_of_pairs pairs)) in
  match t with
  | PNone | PInt _ | PType _ | PNode _ | PTensor _ => Return (fn t)
  | PStr _ => Return (PStr "")
  | PList xs => xs' ← collect T xs; Return (PList xs')
  | PTuple xs => xs' ← collect T xs; Return (PTuple xs')
  | PSet xs => xs' ← collect T xs; Return (construct it xs')
  | PNamedTuple cls fs =>
      d ← T (PDict fs); namedtuple_new cls (map fst fs) (dict_items st d)
  | PDict fs => items fs
  | PRef l =>
      match st l with
      | CList xs => xs' ← collect T xs; Return (PList xs')
      | CDict fs => items fs
      end
  end.
Proof.
  destruct t; try reflexivity.
  cbn [transform_tree].
  unfold is_iterable, isinstance_Sequence, isinstance, dict_items; cbn [class_of py_iter].
  by destruct (st l).
Qed.

(** One call of the walk with an [fn] that may raise, by the kind of its
    argument. *)
Lemma transform_tree_raising_S n st t fn it :
  transform_tree_raising (S n) st t fn it =
  let T := fun c => transform_tree_raising n st c fn ctor_tuple in
  let items fs := pairs ← collect (fun kv => c ← T kv.2; Return (kv.1, c)) fs;
                  Return (PDict (dict_of_pairs pairs)) in
  match t with
  | PNone | PInt _ | PType _ | PNode _ | PTensor _ => fn t
  | PStr _ => Return (PStr "")
  | PList xs => xs' ← collect T xs; Return (PList xs')
  | PTuple xs => xs' ← collect T xs; Return (PTuple xs')
  | PSet xs => xs' ← collect T xs; Return (construct it xs')
  | PNamedTuple cls fs =>
      d ← T (PDict fs); namedtuple_new cls (map fst fs) (dict_items st d)
  | PDict fs => items fs
  | PRef l =>
      match st l with
      | CList xs => xs' ← collect T xs; Return (PList xs')
      | CDict fs => items fs
      end
  end.
Proof.
  destruct t; try reflexivity.
  cbn [transform_tree_raising].
  unfold is_iterable, isinstance_Sequence, isinstance, dict_items; cbn [class_of py_iter].
  by destruct (st l).
Qed.

(** [transform_tree] raises nothing but [RecursionError]. *)
Lemma transform_tree_raises st fn limit : forall t it e,
  transform_tree limit st t fn it = Raise e -> e = RecursionError.
Proof.
  induction limit as [|n IH]; intros t it e H; [by injection H|].
  rewrite transform_tree_S in H. cbv beta zeta in H.
  assert (Hlist : forall (k : list pyobj -> pyobj) xs,
            (xs' ← collect (fun c => transform_tree n st c fn ctor_tuple) xs;
             Return (k xs')) = Raise e -> e = RecursionError).
  { intros k xs H'. destruct (collect _ xs) as [xs'|e'] eqn:E; [discriminate|].
    injection H' as ->. apply collect_raises in E as (x & _ & E). exact (IH _ _ _ E). }
  assert (Hdict : forall fs,
            (pairs ← collect (fun kv => c ← transform_tree n st kv.2 fn ctor_tuple;
                                         Return (kv.1, c)) fs;
             Return (PDict (dict_of_pairs pairs))) = Raise e -> e = RecursionError).
  { intros fs H'. destruct (collect _ fs) as [ps|e'] eqn:E; [discriminate|].
    injection H' as ->. apply collect_raises in E as (x & _ & E).
    destruct (transform_tree n st x.2 fn ctor_tuple) as [c|e''] eqn:E'; [discriminate|].
    injection E as ->. exact (IH _ _ _ E'). }
  destruct t; try discriminate; eauto.
  - (* named tuple *)
    destruct (transform_tree n st (PDict fields) fn ctor_tuple) as [d|e'] eqn:E.
    + exfalso. destruct n as [|m]; [discriminate|].
      rewrite transform_tree_S in E. cbv beta zeta in E.
      destruct (collect _ fields) as [ps|] eqn:Ec; [|discriminate].
      injection E as <-.
      apply (collect_pairs_keys (fun c => transform_tree m st c fn ctor_tuple)) in Ec.
      cbn [dict_items mbind outcome_bind] in H. rewrite <- Ec in H.
      destruct (namedtuple_new_returns cls ps) as [r Hr]. rewrite Hr in H. discriminate.
    + injection H as ->. exact (IH _ _ _ E).
  - (* reference *)
    destruct (st l); eauto.
Qed.

(** A call that returns has made each of its nested calls return. *)
Lemma transform_tree_calls st fn n t it r c :
  transform_tree (S n) st t fn it = Return r ->
  c ∈ transform_children st t ->
  exists r', transform_tree n st c fn ctor_tuple = Return r'.
Proof.
  intros H Hc. rewrite transform_tree_S in H. cbv beta zeta in H.
  assert (Hlist : forall (k : list pyobj -> pyobj) xs,
            (xs' ← collect (fun c => transform_tree n st c fn ctor_tuple) xs;
             Return (k xs')) = Return r -> c ∈ xs ->
            exists r', transform_tree n st c fn ctor_tuple = Return r').
  { intros k xs H' Hx. destruct (collect _ xs) as [xs'|] eqn:E; [|discriminate].
    exact (collect_returns _ _ _ E c Hx). }
  assert (Hdict : forall fs,
            (pairs ← collect (fun kv => c ← transform_tree n st kv.2 fn ctor_tuple;
                                         Return (kv.1, c)) fs;
             Return (PDict (dict_of_pairs pairs))) = Return r -> c ∈ map snd fs ->
            exists r', transform_tree n st c fn ctor_tuple = Return r').
  { intros fs H' Hx. destruct (collect _ fs) as [ps|] eqn:E; [|discriminate].
    apply list_elem_of_fmap in Hx as (kv & -> & Hkv).
    destruct (collect_returns _ _ _ E kv Hkv) as [y Hy].
    destruct (transform_tree n st kv.2 fn ctor_tuple) as [c'|]; [eauto|discriminate]. }
  unfold transform_children, container_children in Hc.
  destruct t; try (by inversion Hc); eauto.
  - (* named tuple *)
    apply list_elem_of_singleton in Hc as ->.
    destruct (transform_tree n st (PDict fields) fn ctor_tuple); [eauto|discriminate].
  - (* reference *)
    destruct (st l); eauto.
Qed.

(** If a set [P] of values is closed under "has a value of [P] among the
    nested calls", [transform_tree] on a value of [P] exhausts every
    recursion limit. *)
Lemma transform_tree_unbounded st fn (P : pyobj -> Prop) :
  (forall v, P v -> exists c, c ∈ transform_children st v /\ P c) ->
  forall limit v it, P v -> transform_tree limit st v fn it = Raise RecursionError.
Proof.
  intros Hstep. induction limit as [|n IH]; intros v it Hv; [reflexivity|].
  destruct (transform_tree (S n) st v fn it) as [r|e] eqn:E.
  - destruct (Hstep v Hv) as (c & Hc & HPc).
    destruct (transform_tree_calls _ _ _ _ _ _ _ E Hc) as (r' & Hr).
    rewrite (IH c ctor_tuple HPc) in Hr. discriminate.
  - by rewrite (transform_tree_raises _ _ _ _ _ _ E).
Qed.

(** With an [fn] that may raise, the walk raises [RecursionError] or
    what [fn] raised. *)
Lemma transform_tree_raising_raises st fn limit : forall t it e,
  transform_tree_raising limit st t fn it = Raise e ->
  e = RecursionError \/ exists x, fn x = Raise e.
Proof.
  induction limit as [|n IH]; intros t it e H; [left; by injection H|].
  rewrite transform_tree_raising_S in H. cbv beta zeta in H.
  assert (Hlist : forall (k : list pyobj -> pyobj) xs,
            (xs' ← collect (fun c => transform_tree_raising n st c fn ctor_tuple) xs;
             Return (k xs')) = Raise e -> e = RecursionError \/ exists x, fn x = Raise e).
  { intros k xs H'. destruct (collect _ xs) as [xs'|e'] eqn:E; [discriminate|].
    injection H' as ->. apply collect_raises in E as (x & _ & E). exact (IH _ _ _ E). }
  assert (Hdict : forall fs,
            (pairs ← collect (fun kv => c ← transform_tree_raising n st kv.2 fn ctor_tuple;
                                         Return (kv.1, c)) fs;
             Return (PDict (dict_of_pairs pairs))) = Raise e ->
            e = RecursionError \/ exists x, fn x = Raise e).
  { intros fs H'. destruct (collect _ fs) as [ps|e'] eqn:E; [discriminate|].
    injection H' as ->. apply collect_raises in E as (x & _ & E).
    destruct (transform_tree_raising n st x.2 fn ctor_tuple) as [c|e''] eqn:E';
      [discriminate|].
    injection E as ->. exact (IH _ _ _ E'). }
  destruct t; try discriminate; eauto.
  - (* named tuple *)
    destruct (transform_tree_raising n st (PDict fields) fn ctor_tuple) as [d|e'] eqn:E.
    + exfalso. destruct n as [|m]; [discriminate|].
      rewrite transform_tree_raising_S in E. cbv beta zeta in E.
      destruct (collect _ fields) as [ps|] eqn:Ec; [|discriminate].
      injection E as <-.
      apply (collect_pairs_keys (fun c => transform_tree_raising m st c fn ctor_tuple))
        in Ec.
      cbn [dict_items mbind outcome_bind] in H. rewrite <- Ec in H.
      destruct (namedtuple_new_returns cls ps) as [r Hr]. rewrite Hr in H. discriminate.
    + injection H as ->. exact (IH _ _ _ E).
  - (* reference *)
    destruct (st l); eauto.
Qed.

Lemma transform_tree_raising_calls st fn n t it r c :
  transform_tree_raising (S n) st t fn it = Return r ->
  c ∈ transform_children st t ->
  exists r', transform_tree_raising n st c fn ctor_tuple = Return r'.
Proof.
  intros H Hc. rewrite transform_tree_raising_S in H. cbv beta zeta in H.
  assert (Hlist : forall (k : list pyobj -> pyobj) xs,
            (xs' ← collect (fun c => transform_tree_raising n st c fn ctor_tuple) xs;
             Return (k xs')) = Return r -> c ∈ xs ->
            exists r', transform_tree_raising n st c fn ctor_tuple = Return r').
  { intros k xs H' Hx. destruct (collect _ xs) as [xs'|] eqn:E; [|discriminate].
    exact (collect_returns _ _ _ E c Hx). }
  assert (Hdict : forall fs,
            (pairs ← collect (fun kv => c ← transform_tree_raising n st kv.2 fn ctor_tuple;
                                         Return (kv.1, c)) fs;
             Return (PDict (dict_of_pairs pairs))) = Return r -> c ∈ map snd fs ->
            exists r', transform_tree_raising n st c fn ctor_tuple = Return r').
  { intros fs H' Hx. destruct (collect _ fs) as [ps|] eqn:E; [|discriminate].
    apply list_elem_of_fmap in Hx as (kv & -> & Hkv).
    destruct (collect_returns _ _ _ E kv Hkv) as [y Hy].
    destruct (transform_tree_raising n st kv.2 fn ctor_tuple) as [c'|];
      [eauto|discriminate]. }
  unfold transform_children, container_children in Hc.
  destruct t; try (by inversion Hc); eauto.
  - (* named tuple *)
    apply list_elem_of_singleton in Hc as ->.
    destruct (transform_tree_raising n st (PDict fields) fn ctor_tuple);
      [eauto|discriminate].
  - (* reference *)
    destruct (st l); eauto.
Qed.

(** On such a set the walk never returns, whatever [fn] does. *)
Lemma transform_tree_raising_unbounded st fn (P : pyobj -> Prop) :
  (forall v, P v -> exists c, c ∈ transform_children st v /\ P c) ->
  forall limit v it, P v -> ~ returns (transform_tree_raising limit st v fn it).
Proof.
  intros Hstep. induction limit as [|n IH]; intros v it Hv [r E]; [discriminate|].
  destruct (Hstep v Hv) as (c & Hc & HPc).
  destruct (transform_tree_raising_calls _ _ _ _ _ _ _ E Hc) as (r' & Hr).
  apply (IH c ctor_tuple HPc). by exists r'.
Qed.

(** From a self-referential container the nested calls of
    [transform_tree] stay among the values that reach it. *)
Lemma self_referential_transform_children st v x :
  self_referential st v ->
  (exists c, child st x c /\ rtc (child st) c v) ->
  exists c, c ∈ transform_children st x
            /\ exists c', child st c c' /\ rtc (child st) c' v.
Proof.
  intros Hcyc (c & Hc & Hcv).
  destruct (reaches_cycle_step st v c Hcyc Hcv) as (c' & Hc' & Hcv').
  unfold child in Hc.
  destruct x; try (by inversion Hc);
    try (exists c; split; [exact Hc|by exists c']).
  exists (PDict fields). split; [apply elem_of_cons; by left|].
  exists c. split; [exact Hc|exact Hcv].
Qed.

Lemma for_each_invariant {A S} (body : A -> S -> outcome S) (Q : S -> Prop) xs s r :
  (forall x s s', body x s = Return s' -> Q s -> Q s') ->
  Q s -> for_each body xs s = Return r -> Q r.
Proof.
  intros Hbody. revert s. induction xs as [|x xs IH]; intros s Hs H.
  - by injection H as <-.
  - cbn [for_each] in H. destruct (body x s) as [s'|] eqn:E; [|discriminate].
    exact (IH s' (Hbody _ _ _ E Hs) H).
Qed.

Lemma flatten_children_None st t :
  flatten_children st t = None -> is_iterable st t = false.
Proof.
  unfold flatten_children. destruct (isinstance st t C_dict); [discriminate|].
  destruct (is_iterable st t) eqn:E; [|done].
  intros H. unfold is_iterable in E. rewrite H in E.
  by destruct (isinstance st t C_Node).
Qed.

Lemma flatten_children_leaf st t :
  is_iterable st t = false -> flatten_children st t = None.
Proof.
  intros H. unfold flatten_children. rewrite H.
  destruct t; try reflexivity; try discriminate H.
  revert H. unfold is_iterable, isinstance. cbn. by destruct (st l).
Qed.

(** Whatever [flatten_tree] appends is a value that is not iterable. *)
Lemma flatten_tree_leaves st limit : forall t acc r,
  flatten_tree limit st t (Some acc) = Return r ->
  exists new, r = acc ++ new /\ Forall (fun x => is_iterable st x = false) new.
Proof.
  induction limit as [|n IH]; intros t acc r H; [discriminate|].
  rewrite flatten_tree_S in H. destruct (flatten_children st t) as [cs|] eqn:E.
  - cbn [default] in H. revert H.
    apply (for_each_invariant _
             (fun s => exists new, s = acc ++ new
                       /\ Forall (fun x => is_iterable st x = false) new)).
    + intros x s s' Hx (new & -> & Hnew).
      destruct (IH _ _ _ Hx) as (new' & -> & Hnew').
      exists (new ++ new'). split; [by rewrite app_assoc|by apply Forall_app].
    + exists []. split; [by rewrite app_nil_r|constructor].
  - injection H as <-. exists [t]. split; [reflexivity|].
    constructor; [by apply flatten_children_None|constructor].
Qed.

Lemma cyclic_store_self_referential : self_referential cyclic_store (PRef 0%nat).
Proof. apply tc_once. unfold child. cbn. apply elem_of_cons. by left. Qed.




Lemma collect_ext {A B} (f g : A -> outcome B) xs :
  (forall x, f x = g x) -> collect f xs = collect g xs.
Proof.
  intros H. induction xs as [|x xs IH]; [reflexivity|].
  cbn [collect]. by rewrite H, IH.
Qed.

(** [transform_tree] applies [fn] to values that are not iterable, and to
    no others: two functions that agree on those give the same result. *)
Lemma transform_tree_fn_ext st fn fn' :
  (forall x, is_iterable st x = false -> fn x = fn' x) ->
  forall limit t it, transform_tree limit st t fn it = transform_tree limit st t fn' it.
Proof.
  intros H. induction limit as [|n IH]; intros t it; [reflexivity|].
  rewrite !transform_tree_S. cbv beta zeta.
  assert (Hc : forall xs,
            collect (fun c => transform_tree n st c fn ctor_tuple) xs
            = collect (fun c => transform_tree n st c fn' ctor_tuple) xs).
  { intros xs. apply collect_ext. intros x. apply IH. }
  assert (Hd : forall fs : list (string * pyobj),
            collect (fun kv => c ← transform_tree n st kv.2 fn ctor_tuple;
                               Return (kv.1, c)) fs
            = collect (fun kv => c ← transform_tree n st kv.2 fn' ctor_tuple;
                                 Return (kv.1, c)) fs).
  { intros fs. apply collect_ext. intros x. by rewrite IH. }
  destruct t; try (by rewrite H); try (by rewrite Hc); try (by rewrite Hd);
    try reflexivity.
  - by rewrite IH.
  - destruct (st l); [by rewrite Hc|by rewrite Hd].
Qed.

Lemma collect_Forall {A B} (f : A -> outcome B) (P : B -> Prop) xs : forall ys,
  collect f xs = Return ys ->
  (forall x y, x ∈ xs -> f x = Return y -> P y) ->
  Forall P ys.
Proof.
  induction xs as [|x xs IH]; intros ys H HP.
  - injection H as <-. constructor.
  - cbn [collect] in H. destruct (f x) as [y|] eqn:E; [|discriminate]. cbn in H.
    destruct (collect f xs) as [ys'|] eqn:E'; [|discriminate]. injection H as <-.
    constructor.
    + apply (HP x); [apply elem_of_cons; by left|done].
    + apply IH; [done|]. intros x' y' Hx'. apply HP. apply elem_of_cons. by right.
Qed.

Lemma dict_set_Forall (P : pyobj -> Prop) items k v :
  Forall (fun kv => P kv.2) items -> P v ->
  Forall (fun kv => P kv.2) (dict_set items k v).
Proof.
  induction 1 as [|[k' v'] items Hkv Hitems IH]; intros Hv; cbn [dict_set].
  - by repeat constructor.
  - destruct (String.eqb k' k); constructor; auto.
Qed.

Lemma dict_of_pairs_Forall (P : pyobj -> Prop) pairs :
  Forall (fun kv => P kv.2) pairs -> Forall (fun kv => P kv.2) (dict_of_pairs pairs).
Proof.
  unfold dict_of_pairs.
  assert (H : forall d, Forall (fun kv => P kv.2) d -> Forall (fun kv => P kv.2) pairs ->
                        Forall (fun kv => P kv.2)
                               (fold_left (fun d kv => dict_set d kv.1 kv.2) pairs d)).
  { induction pairs as [|[k v] pairs IH]; intros d Hd Hp; [done|].
    apply Forall_cons in Hp as [Hv Hp]. cbn [fold_left]. apply IH; [|done].
    by apply dict_set_Forall. }
  intros Hp. apply H; [constructor|done].
Qed.

Lemma dict_get_Forall (P : pyobj -> Prop) items k v :
  Forall (fun kv => P kv.2) items -> dict_get items k = Some v -> P v.
Proof.
  induction 1 as [|[k' v'] items Hkv Hitems IH]; cbn [dict_get]; [done|].
  destruct (String.eqb k' k); [by intros [= <-]|exact IH].
Qed.

Lemma namedtuple_new_Forall cls names kwargs r :
  namedtuple_new cls names kwargs = Return r ->
  Forall (fun kv => ref_free kv.2 = true) kwargs -> ref_free r = true.
Proof.
  unfold namedtuple_new. intros H Hk.
  destruct (forallb _ kwargs); [|discriminate].
  destruct (mapM _ names) as [fields|] eqn:E; [|discriminate]. injection H as <-.
  cbn [ref_free]. apply forallb_forall. intros [f v] Hf%list_elem_of_In.
  apply mapM_Some in E.
  assert (Hall : Forall (fun kv => ref_free kv.2 = true) fields).
  { clear Hf. induction E as [|n kv names fields Hn _ IH]; constructor; [|done].
    destruct (dict_get kwargs n) as [w|] eqn:Ew; [|discriminate].
    injection Hn as <-. cbn.
    by apply (dict_get_Forall (fun v => ref_free v = true) kwargs n). }
  rewrite Forall_forall in Hall. exact (Hall _ Hf).
Qed.

Lemma ref_free_dict_items st d :
  ref_free d = true -> Forall (fun kv => ref_free kv.2 = true) (dict_items st d).
Proof.
  destruct d; try (intros _; constructor); try discriminate.
  cbn [ref_free dict_items]. intros H. apply Forall_forall. intros kv Hkv.
  exact (forallb_elem _ _ _ H Hkv).
Qed.

(** The tree [transform_tree] returns is made of new containers: when
    the results of [fn] hold no mutable container of the input, no list
    or dict of the input is part of the output, at any depth. *)
Theorem transform_tree_fresh st fn :
  (forall x, ref_free (fn x) = true) ->
  forall limit t it r,
    transform_tree limit st t fn it = Return r -> ref_free r = true.
Proof.
  intros Hfn. induction limit as [|n IH]; intros t it r H; [discriminate|].
  rewrite transform_tree_S in H. cbv beta zeta in H.
  assert (Hlist : forall (k : list pyobj -> pyobj) xs r',
            (forall xs', ref_free (k xs') = forallb ref_free xs') ->
            (xs' ← collect (fun c => transform_tree n st c fn ctor_tuple) xs;
             Return (k xs')) = Return r' -> ref_free r' = true).
  { intros k xs r' Hk H'. destruct (collect _ xs) as [xs'|] eqn:E; [|discriminate].
    injection H' as <-. rewrite Hk. apply forallb_forall. intros y Hy%list_elem_of_In.
    pose proof (collect_Forall _ (fun y => ref_free y = true) _ _ E) as Hall.
    rewrite Forall_forall in Hall. apply Hall; [|done].
    intros x y' _ Hx. exact (IH _ _ _ Hx). }
  assert (Hdict : forall fs r',
            (pairs ← collect (fun kv => c ← transform_tree n st kv.2 fn ctor_tuple;
                                         Return (kv.1, c)) fs;
             Return (PDict (dict_of_pairs pairs))) = Return r' -> ref_free r' = true).
  { intros fs r' H'. destruct (collect _ fs) as [pairs|] eqn:E; [|discriminate].
    injection H' as <-. cbn [ref_free]. apply forallb_forall.
    intros kv Hkv%list_elem_of_In.
    assert (Hall : Forall (fun kv => ref_free kv.2 = true) (dict_of_pairs pairs)).
    { apply (dict_of_pairs_Forall (fun v => ref_free v = true)).
      apply (collect_Forall _ (fun kv => ref_free kv.2 = true) _ _ E).
      intros x y _ Hx.
      destruct (transform_tree n st x.2 fn ctor_tuple) as [c|] eqn:Ec; [|discriminate].
      injection Hx as <-. exact (IH _ _ _ Ec). }
    rewrite Forall_forall in Hall. exact (Hall _ Hkv). }
  destruct t; try (injection H as <-; apply Hfn); try (by injection H as <-).
  - exact (Hlist PList xs r (fun _ => eq_refl) H).
  - exact (Hlist PTuple xs r (fun _ => eq_refl) H).
  - destruct (transform_tree n st (PDict fields) fn ctor_tuple) as [d|] eqn:E;
      [|discriminate].
    apply (namedtuple_new_Forall _ _ _ _ H). apply ref_free_dict_items.
    exact (IH _ _ _ E).
  - exact (Hdict items r H).
  - apply (Hlist (construct it) xs); [by destruct it|exact H].
  - destruct (st l);
      [exact (Hlist PList xs r (fun _ => eq_refl) H)|exact (Hdict items r H)].
Qed.

Lemma transform_tree_fresh_witness :
  (forall x, ref_free (owner_node x) = true)
  /\ forall limit t it r,
       transform_tree limit cyclic_store t owner_node it = Return r -> ref_free r = true.
Proof.
  split; [by intros []|].
  apply (transform_tree_fresh cyclic_store owner_node). by intros [].
Defined.

(** A list of the store under a tuple: the result holds a new list. *)
Example transform_tree_fresh_example :
  let st : store := fun _ => CList [PNode node_a; PTensor (mkTensor node_b 0)] in
  transform_tree 3 st (PTuple [PRef 0%nat; PRef 0%nat]) owner_node ctor_tuple
  = Return (PTuple [PList [PNode node_a; PNode node_b];
                    PList [PNode node_a; PNode node_b]]).
Proof. reflexivity. Qed.

Lemma str_chars_head c s : PStr (String c "") ∈ str_chars (String c s).
Proof. cbn [str_chars]. apply elem_of_cons. by left. Qed.

Lemma contains_string_step st v :
  (exists s, s <> "" /\ contains st v (PStr s)) ->
  exists cs c, flatten_children st v = Some cs /\ c ∈ cs
               /\ exists s, s <> "" /\ contains st c (PStr s).
Proof.
  intros (s & Hs & Hv). unfold contains in Hv.
  inversion Hv as [|? c ? Hc Hrest]; subst.
  - destruct s as [|a s]; [done|].
    exists (str_chars (String a s)), (PStr (String a "")).
    split; [reflexivity|]. split; [apply str_chars_head|].
    exists (String a ""). split; [done|apply rtc_refl].
  - destruct (flatten_children_child st v c Hc) as (cs & Hcs & Hin).
    exists cs, c. split; [exact Hcs|]. split; [exact Hin|]. by exists s.
Qed.

(** C10, as the code has it.  Both walkers take a value for a leaf
    exactly when [is_iterable] is false, that is, when the value is a
    Node or [iter()] fails on it.  A string is iterable, so it is never
    among the leaves [flatten_tree] returns, and [flatten_tree] runs into
    every recursion limit on a tree that contains a non-empty string.
    [transform_tree] applies [fn] to values that are not iterable and to
    no others, so never to a string. *)
Theorem string_is_a_container st :
  (forall obj, is_iterable st obj = false
               <-> (isinstance st obj C_Node = true \/ py_iter st obj = None))
  /\ (forall t n leaves fn it,
        is_iterable st t = false ->
        flatten_tree (S n) st t leaves = Return (default [] leaves ++ [t])
        /\ transform_tree (S n) st t fn it = Return (fn t))
  /\ (forall fn fn',
        (forall x, is_iterable st x = false -> fn x = fn' x) ->
        forall limit t it,
          transform_tree limit st t fn it = transform_tree limit st t fn' it)
  /\ (forall s, is_iterable st (PStr s) = true)
  /\ (forall limit t acc r,
        flatten_tree limit st t (Some acc) = Return r ->
        exists new, r = acc ++ new
                    /\ Forall (fun x => is_iterable st x = false
                                        /\ forall s, x <> PStr s) new)
  /\ (forall t s, contains st t (PStr s) -> s <> "" ->
        forall limit leaves, flatten_tree limit st t leaves = Raise RecursionError).
Proof.
  repeat split.
  - unfold is_iterable. destruct (isinstance st obj C_Node); [by left|].
    destruct (py_iter st obj); [discriminate|by right].
  - unfold is_iterable. intros [-> | ->]; [reflexivity|].
    by destruct (isinstance st obj C_Node).
  - rewrite flatten_tree_S. by rewrite flatten_children_leaf.
  - cbn [transform_tree]. by rewrite H.
  - apply transform_tree_fn_ext.
  - intros limit t acc r H. destruct (flatten_tree_leaves _ _ _ _ _ H) as (new & -> & Hnew).
    exists new. split; [reflexivity|]. eapply Forall_impl; [exact Hnew|].
    intros x Hx. split; [exact Hx|]. intros s ->. discriminate Hx.
  - intros t s Ht Hs limit leaves.
    apply (flatten_tree_unbounded st
             (fun v => exists s, s <> "" /\ contains st v (PStr s))).
    + apply contains_string_step.
    + by exists s.
Qed.

(** C10 as stated fails for [transform_tree]: on a list holding the
    string ["ab"] it returns as soon as two nested calls are allowed,
    while [flatten_tree] on the same list exhausts every limit. *)
Lemma string_is_a_container_counterexample :
  contains empty_store (PList [PStr "ab"]) (PStr "ab")
  /\ (forall n, returns (transform_tree (S (S n)) empty_store (PList [PStr "ab"])
                           owner_node ctor_tuple))
  /\ (forall limit,
        flatten_tree limit empty_store (PList [PStr "ab"]) None = Raise RecursionError).
Proof.
  assert (Hc : contains empty_store (PList [PStr "ab"]) (PStr "ab")).
  { eapply rtc_l; [|apply rtc_refl]. unfold child. cbn. apply elem_of_cons. by left. }
  split; [exact Hc|]. split.
  - intros n. by eexists.
  - intros limit.
    apply (flatten_tree_unbounded empty_store
             (fun v => exists s, s <> "" /\ contains empty_store v (PStr s))).
    + apply contains_string_step.
    + by exists "ab".
Qed.

(** ** [get_unique_graph] *)

(** One step of the loop on a Node or a Tensor. *)
Lemma unique_graph_step_element st op g :
  is_graph_element op = true ->
  unique_graph_step st (PTuple [PType C_Node; PType C_Tensor]) op g =
  match g with
  | None => Return (Some (element_graph op))
  | Some g0 => if Nat.eqb g0 (element_graph op) then Return (Some g0)
               else Raise ValueError
  end.
Proof.
  intros Hop. destruct op; try discriminate Hop; destruct g as [g0|]; cbn;
    try reflexivity.
  - by destruct (Nat.eqb g0 (node_graph n)).
  - by destruct (Nat.eqb g0 (node_graph (tensor_node t))).
Qed.

(** The loop of [get_unique_graph] over Nodes and Tensors, once a Graph
    has been seen: it keeps that Graph or raises at the first element of
    another one. *)
Lemma get_unique_graph_loop st ops g :
  Forall (fun o => is_graph_element o = true) ops ->
  for_each (unique_graph_step st (PTuple [PType C_Node; PType C_Tensor])) ops (Some g)
  = if forallb (fun o => Nat.eqb g (element_graph o)) ops
    then Return (Some g) else Raise ValueError.
Proof.
  induction 1 as [|op ops Hop Hops IH]; [reflexivity|].
  cbn [for_each forallb]. rewrite (unique_graph_step_element st op _ Hop).
  destruct (Nat.eqb g (element_graph op)); [exact IH|reflexivity].
Qed.

Lemma forallb_false_elem {A} (p : A -> bool) xs x :
  x ∈ xs -> p x = false -> forallb p xs = false.
Proof.
  intros Hx Hp. destruct (forallb p xs) eqn:E; [|reflexivity].
  rewrite (forallb_elem _ _ _ E Hx) in Hp. discriminate.
Qed.

(** What [get_unique_graph] computes on an iterable of Nodes and Tensors,
    with the default [check_types]. *)
Lemma get_unique_graph_elements st tops ops none_if_empty :
  py_iter st tops = Some ops ->
  Forall (fun o => is_graph_element o = true) ops ->
  get_unique_graph st (NotGraph tops) PNone none_if_empty =
  match ops with
  | [] => if none_if_empty then Return None else Raise ValueError
  | op :: rest =>
      if forallb (fun o => Nat.eqb (element_graph op) (element_graph o)) rest
      then Return (Some (element_graph op)) else Raise ValueError
  end.
Proof.
  intros Hiter Hops. unfold get_unique_graph.
  assert (is_iterable st tops = true) as ->.
  { unfold is_iterable. rewrite Hiter.
    destruct tops; try discriminate Hiter; try reflexivity.
    unfold isinstance. cbn. by destruct (st l). }
  cbn [negb]. cbv zeta. rewrite Hiter. cbn [default id].
  destruct Hops as [|op rest Hop Hrest]; [by destruct none_if_empty|].
  cbn [for_each]. rewrite (unique_graph_step_element st op _ Hop).
  change (Return (Some (element_graph op)) ≫= ?k) with (k (Some (element_graph op))).
  cbv beta. rewrite (get_unique_graph_loop st rest _ Hrest).
  by destruct (forallb _ rest).
Qed.

Lemma is_iterable_of_iter st tops ops :
  py_iter st tops = Some ops -> is_iterable st tops = true.
Proof.
  intros Hiter. unfold is_iterable. rewrite Hiter.
  destruct tops; try discriminate Hiter; try reflexivity.
  unfold isinstance. cbn. by destruct (st l).
Qed.

(** An iterable of Nodes and Tensors of one Graph passes the loop. *)
Lemma get_unique_graph_loop_same st ops g :
  Forall (fun o => is_graph_element o = true) ops ->
  (forall o, o ∈ ops -> element_graph o = g) ->
  for_each (unique_graph_step st (PTuple [PType C_Node; PType C_Tensor])) ops (Some g)
  = Return (Some g).
Proof.
  intros Hops Hg. rewrite get_unique_graph_loop by done.
  assert (forallb (fun o => Nat.eqb g (element_graph o)) ops = true) as ->; [|done].
  apply forallb_forall. intros o Ho. apply Nat.eqb_eq. symmetry.
  by apply Hg, list_elem_of_In.
Qed.

(** A loop over a one-shot iterator has the outcome of the loop over its
    items; it leaves the iterator empty when it returns, and with the
    items after the one that raised when it raises. *)
Lemma for_each_iterator_outcome {A S} (body : A -> S -> outcome S) items : forall s,
  (for_each_iterator body items s).1 = for_each body items s.
Proof.
  induction items as [|x items IH]; intros s; [reflexivity|].
  cbn [for_each_iterator for_each]. destruct (body x s) as [s'|e]; [apply IH|reflexivity].
Qed.

Lemma for_each_iterator_exhausted {A S} (body : A -> S -> outcome S) items : forall s,
  returns (for_each body items s) -> (for_each_iterator body items s).2 = [].
Proof.
  induction items as [|x items IH]; intros s [r H]; [reflexivity|].
  cbn [for_each_iterator for_each] in *. destruct (body x s) as [s'|e]; [|discriminate].
  apply IH. by exists r.
Qed.

Lemma for_each_iterator_left {A S} (body : A -> S -> outcome S) pre x post : forall s s' e,
  for_each body pre s = Return s' -> body x s' = Raise e ->
  for_each_iterator body (pre ++ x :: post) s = (Raise e, post).
Proof.
  induction pre as [|p pre IH]; intros s s' e Hpre Hx.
  - injection Hpre as <-. cbn [app for_each_iterator]. by rewrite Hx.
  - cbn [app for_each_iterator for_each] in *.
    destruct (body p s) as [s1|]; [|discriminate]. by apply (IH s1 s' e).
Qed.

(** [get_unique_graph] on a one-shot iterator: the outcome is that of the
    call on a container of the same items. *)
Lemma get_unique_graph_iterator_outcome st tops items check_types none_if_empty :
  py_iter st tops = Some items ->
  (get_unique_graph_iterator st items check_types none_if_empty).1
  = get_unique_graph st (NotGraph tops) check_types none_if_empty.
Proof.
  intros Hiter. unfold get_unique_graph_iterator, get_unique_graph. cbv zeta.
  rewrite (is_iterable_of_iter _ _ _ Hiter), Hiter. cbn [negb default id].
  match goal with
  | |- context [for_each_iterator ?b items None] =>
      rewrite <- (for_each_iterator_outcome b items None);
      by destruct (for_each_iterator b items None)
  end.
Qed.

(** A call that returns has taken every item. *)
Lemma get_unique_graph_iterator_exhausted st items check_types none_if_empty :
  returns (get_unique_graph_iterator st items check_types none_if_empty).1 ->
  (get_unique_graph_iterator st items check_types none_if_empty).2 = [].
Proof.
  unfold get_unique_graph_iterator. cbv zeta.
  match goal with
  | |- context [for_each_iterator ?b items None] =>
      pose proof (for_each_iterator_outcome b items None) as Ho;
      pose proof (for_each_iterator_exhausted b items None) as He;
      destruct (for_each_iterator b items None) as [g left]
  end.
  cbn [fst snd] in *. intros [r Hr]. apply He. rewrite <- Ho.
  destruct g as [g|e]; [by eexists|discriminate].
Qed.

(** C9, as the code has it.  For every iterable [tops] of Nodes and
    Tensors:
    - two elements of different Graphs make [get_unique_graph] raise
      [ValueError];
    - an empty [tops] raises [ValueError] unless [none_if_empty] is set,
      and then the result is [None];
    - otherwise the one Graph all elements belong to is returned.
    A container is left as it was.  A one-shot iterator over the same
    elements has the same outcome, and the call takes its items away: it
    is empty after a call that returns, and after the [ValueError] for an
    element of another Graph it holds the elements behind that one. *)
Theorem get_unique_graph_spec st tops ops none_if_empty :
  py_iter st tops = Some ops ->
  Forall (fun o => is_graph_element o = true) ops ->
  ((exists x y, x ∈ ops /\ y ∈ ops /\ element_graph x <> element_graph y) ->
     get_unique_graph st (NotGraph tops) PNone none_if_empty = Raise ValueError)
  /\ (ops = [] -> none_if_empty = false ->
        get_unique_graph st (NotGraph tops) PNone none_if_empty = Raise ValueError)
  /\ (ops = [] -> none_if_empty = true ->
        get_unique_graph st (NotGraph tops) PNone none_if_empty = Return None)
  /\ (forall g, ops <> [] -> (forall x, x ∈ ops -> element_graph x = g) ->
        get_unique_graph st (NotGraph tops) PNone none_if_empty = Return (Some g))
  /\ get_unique_graph_arg st (Value tops) PNone none_if_empty
     = (get_unique_graph st (NotGraph tops) PNone none_if_empty, Value tops)
  /\ (get_unique_graph_arg st (Iterator ops) PNone none_if_empty).1
     = get_unique_graph st (NotGraph tops) PNone none_if_empty
  /\ (returns (get_unique_graph st (NotGraph tops) PNone none_if_empty) ->
      (get_unique_graph_arg st (Iterator ops) PNone none_if_empty).2 = Iterator [])
  /\ (forall pre x post g,
        ops = pre ++ x :: post -> pre <> [] ->
        (forall p, p ∈ pre -> element_graph p = g) -> element_graph x <> g ->
        (get_unique_graph_arg st (Iterator ops) PNone none_if_empty).2 = Iterator post).
Proof.
  intros Hiter Hops.
  pose proof (get_unique_graph_iterator_outcome st tops ops PNone none_if_empty Hiter)
    as Hout.
  assert (Harg : get_unique_graph_arg st (Iterator ops) PNone none_if_empty
                 = ((get_unique_graph_iterator st ops PNone none_if_empty).1,
                    Iterator (get_unique_graph_iterator st ops PNone none_if_empty).2)).
  { unfold get_unique_graph_arg.
    by destruct (get_unique_graph_iterator st ops PNone none_if_empty). }
  rewrite Harg. cbn [fst snd].
  split; [|split; [|split; [|split; [|split; [reflexivity|split; [exact Hout|split]]]]]].
  - rewrite (get_unique_graph_elements st tops ops _ Hiter Hops).
    intros (x & y & Hx & Hy & Hne). destruct ops as [|op rest]; [inversion Hx|].
    assert (exists z, z ∈ rest /\ element_graph op <> element_graph z) as (z & Hz & Hzne).
    { apply elem_of_cons in Hx as [->|Hx]; apply elem_of_cons in Hy as [->|Hy].
      - done.
      - by exists y.
      - exists x. split; [exact Hx|congruence].
      - destruct (decide (element_graph op = element_graph x)) as [E|E].
        + exists y. split; [exact Hy|congruence].
        + by exists x. }
    rewrite (forallb_false_elem _ rest z Hz); [reflexivity|].
    by apply Nat.eqb_neq.
  - rewrite (get_unique_graph_elements st tops ops _ Hiter Hops). by intros -> ->.
  - rewrite (get_unique_graph_elements st tops ops _ Hiter Hops). by intros -> ->.
  - rewrite (get_unique_graph_elements st tops ops _ Hiter Hops).
    intros g Hne Hall. destruct ops as [|op rest]; [done|].
    assert (forallb (fun o => Nat.eqb (element_graph op) (element_graph o)) rest = true)
      as ->.
    { apply forallb_forall. intros z Hz. apply Nat.eqb_eq.
      rewrite (Hall op), (Hall z); [reflexivity| |].
      - apply elem_of_cons. right. by apply list_elem_of_In.
      - apply elem_of_cons. by left. }
    rewrite (Hall op); [reflexivity|]. apply elem_of_cons. by left.
  - intros Hr. f_equal. apply get_unique_graph_iterator_exhausted. by rewrite Hout.
  - intros pre x post g -> Hne Hg Hx. f_equal.
    apply Forall_app in Hops as [Hpre Hpost]. apply Forall_cons in Hpost as [Hxe _].
    unfold get_unique_graph_iterator. cbv zeta.
    destruct pre as [|p pre]; [done|]. apply Forall_cons in Hpre as [Hp Hpre].
    rewrite (for_each_iterator_left _ (p :: pre) x post None (Some g) ValueError).
    + reflexivity.
    + cbn [for_each]. rewrite (unique_graph_step_element st p None Hp).
      change (Return ?a ≫= ?k) with (k a). cbv beta.
      rewrite (Hg p) by (apply elem_of_cons; by left).
      apply get_unique_graph_loop_same; [done|].
      intros o Ho. apply Hg. apply elem_of_cons. by right.
    + rewrite (unique_graph_step_element st x _ Hxe).
      destruct (Nat.eqb_spec g (element_graph x)); [congruence|reflexivity].
Qed.

(** The theorem at a mixed pair, at the empty tuple and at a pair of one
    Graph. *)
Lemma get_unique_graph_spec_witness :
  (get_unique_graph empty_store
     (NotGraph (PTuple [PNode node_a; PTensor (mkTensor node_other 0)])) PNone false
   = Raise ValueError
   /\ (get_unique_graph_arg empty_store
         (Iterator [PNode node_a; PTensor (mkTensor node_other 0); PNode node_b])
         PNone false).2
      = Iterator [PNode node_b])
  /\ (get_unique_graph empty_store (NotGraph (PTuple [])) PNone false = Raise ValueError
      /\ get_unique_graph empty_store (NotGraph (PTuple [])) PNone true = Return None
      /\ (get_unique_graph_arg empty_store (Iterator []) PNone true).2 = Iterator [])
  /\ (get_unique_graph empty_store
        (NotGraph (PTuple [PNode node_a; PTensor (mkTensor node_b 0)])) PNone false
      = Return (Some 0%nat)
      /\ get_unique_graph_arg empty_store
           (Value (PTuple [PNode node_a; PTensor (mkTensor node_b 0)])) PNone false
         = (Return (Some 0%nat), Value (PTuple [PNode node_a; PTensor (mkTensor node_b 0)]))
      /\ (get_unique_graph_arg empty_store
            (Iterator [PNode node_a; PTensor (mkTensor node_b 0)]) PNone false).1
         = Return (Some 0%nat)
      /\ (get_unique_graph_arg empty_store
            (Iterator [PNode node_a; PTensor (mkTensor node_b 0)]) PNone false).2
         = Iterator []).
Proof.
  split; [|split].
  - destruct (get_unique_graph_spec empty_store
                (PTuple [PNode node_a; PTensor (mkTensor node_other 0); PNode node_b])
                [PNode node_a; PTensor (mkTensor node_other 0); PNode node_b] false
                eq_refl)
      as (_ & _ & _ & _ & _ & _ & _ & Hleft); [repeat constructor|].
    destruct (get_unique_graph_spec empty_store
                (PTuple [PNode node_a; PTensor (mkTensor node_other 0)])
                [PNode node_a; PTensor (mkTensor node_other 0)] false eq_refl)
      as (Hdiff & _); [repeat constructor|].
    split.
    + apply Hdiff. exists (PNode node_a), (PTensor (mkTensor node_other 0)).
      split; [apply elem_of_cons; by left|].
      split; [apply elem_of_cons; right; apply elem_of_cons; by left|]. cbn. lia.
    + apply (Hleft [PNode node_a] (PTensor (mkTensor node_other 0)) [PNode node_b]
               0%nat); [reflexivity|done| |cbn; lia].
      intros p Hp%list_elem_of_singleton. by subst p.
  - destruct (get_unique_graph_spec empty_store (PTuple []) [] false eq_refl)
      as (_ & Hempty & _); [constructor|].
    destruct (get_unique_graph_spec empty_store (PTuple []) [] true eq_refl)
      as (_ & _ & Hnone & _ & _ & _ & Hleft & _); [constructor|].
    split; [by apply Hempty|]. split; [by apply Hnone|].
    apply Hleft. rewrite Hnone by done. by eexists.
  - destruct (get_unique_graph_spec empty_store
                (PTuple [PNode node_a; PTensor (mkTensor node_b 0)])
                [PNode node_a; PTensor (mkTensor node_b 0)] false eq_refl)
      as (_ & _ & _ & Hsame & Hval & Hout & Hleft & _); [repeat constructor|].
    assert (Hg : get_unique_graph empty_store
                   (NotGraph (PTuple [PNode node_a; PTensor (mkTensor node_b 0)]))
                   PNone false = Return (Some 0%nat)).
    { apply Hsame; [done|]. intros x Hx.
      apply elem_of_cons in Hx as [->|Hx%list_elem_of_singleton]; by subst. }
    split; [exact Hg|]. split; [by rewrite Hval, Hg|]. split; [by rewrite Hout|].
    apply Hleft. rewrite Hg. by eexists.
Defined.

(** C9 as stated fails on a one-shot iterator, for "the inputs are never
    mutated": an iterator over two Nodes of one Graph is empty after the
    call, and after the [ValueError] for a Node of another Graph only the
    Node behind that one is left. *)
Lemma get_unique_graph_spec_counterexample :
  get_unique_graph_arg empty_store (Iterator [PNode node_a; PNode node_b]) PNone false
  = (Return (Some 0%nat), Iterator [])
  /\ get_unique_graph_arg empty_store
       (Iterator [PNode node_a; PNode node_other; PNode node_b]) PNone false
     = (Raise ValueError, Iterator [PNode node_b]).
Proof. split; reflexivity. Qed.

(** The three outcomes of C9 on sample values: a mixed pair raises, a
    pair of one Graph gives that Graph, an empty list gives [None] or
    raises. *)
Example get_unique_graph_examples :
  get_unique_graph empty_store (NotGraph (PList [PNode node_a; PNode node_other]))
    PNone false = Raise ValueError
  /\ get_unique_graph empty_store
       (NotGraph (PList [PNode node_a; PTensor (mkTensor node_b 0)])) PNone false
     = Return (Some 0%nat)
  /\ get_unique_graph empty_store (NotGraph (PList [])) PNone true = Return None
  /\ get_unique_graph empty_store (NotGraph (PList [])) PNone false = Raise ValueError
  /\ get_unique_graph empty_store (NotGraph (PNode node_a)) PNone false = Raise TypeError
  /\ get_unique_graph empty_store (NotGraph (PList [PInt 1])) PNone false
     = Raise TypeError
  /\ get_unique_graph empty_store (IsGraph 7%nat) PNone false = Return (Some 7%nat).
Proof. repeat split. Qed.

Lemma for_each_app {A S} (body : A -> S -> outcome S) xs ys s :
  for_each body (xs ++ ys) s = (s' ← for_each body xs s; for_each body ys s').
Proof.
  revert s. induction xs as [|x xs IH]; intros s; [reflexivity|].
  cbn [app for_each]. destruct (body x s) as [s'|e]; [apply IH|reflexivity].
Qed.

(** A value that is no Node and no Tensor fails the default type check. *)
Lemma isinstance_info_not_element st x :
  is_graph_element x = false ->
  isinstance_info st x (PTuple [PType C_Node; PType C_Tensor]) = Return false.
Proof.
  destruct x; try discriminate; intros _; try reflexivity.
  cbn. unfold isinstance. cbn. by destruct (st l).
Qed.

(** The first offending element decides.  When the elements before [x]
    are Nodes and Tensors of one Graph, [get_unique_graph] (with the
    default [check_types]) raises [TypeError] if [x] is neither a Node nor
    a Tensor, and [ValueError] if [x] is a Node or Tensor of another Graph,
    whatever follows [x]. *)
Theorem get_unique_graph_first_offender st tops pre x post none_if_empty :
  py_iter st tops = Some (pre ++ x :: post) ->
  Forall (fun o => is_graph_element o = true) pre ->
  (forall p q, p ∈ pre -> q ∈ pre -> element_graph p = element_graph q) ->
  (is_graph_element x = false ->
     get_unique_graph st (NotGraph tops) PNone none_if_empty = Raise TypeError)
  /\ (is_graph_element x = true ->
      (exists p, p ∈ pre /\ element_graph p <> element_graph x) ->
      get_unique_graph st (NotGraph tops) PNone none_if_empty = Raise ValueError).
Proof.
  intros Hiter Hpre Hsame. unfold get_unique_graph.
  rewrite (is_iterable_of_iter _ _ _ Hiter). cbn [negb]. cbv zeta.
  rewrite Hiter. cbn [default id]. rewrite for_each_app.
  assert (Hloop : for_each (unique_graph_step st (PTuple [PType C_Node; PType C_Tensor]))
                    pre None
                  = Return (match pre with
                            | [] => None
                            | p :: _ => Some (element_graph p)
                            end)).
  { destruct pre as [|p pre']; [reflexivity|].
    apply Forall_cons in Hpre as [Hp Hpre']. cbn [for_each].
    rewrite (unique_graph_step_element st p None Hp).
    change (Return (Some (element_graph p)) ≫= ?k) with (k (Some (element_graph p))).
    cbv beta. apply get_unique_graph_loop_same; [done|].
    intros o Ho. apply Hsame; apply elem_of_cons; [by right|by left]. }
  rewrite Hloop.
  change (Return ?a ≫= ?k) with (k a). cbv beta. cbn [for_each]. split.
  - intros Hx. unfold unique_graph_step. by rewrite isinstance_info_not_element.
  - intros Hx (p & Hp & Hne). rewrite (unique_graph_step_element st x _ Hx).
    destruct pre as [|p0 pre']; [by apply elem_of_nil in Hp|].
    rewrite (Hsame p0 p) by (done || apply elem_of_cons; by left).
    by apply Nat.eqb_neq in Hne as ->.
Qed.

Lemma get_unique_graph_first_offender_witness :
  (is_graph_element (PInt 1) = false ->
     get_unique_graph empty_store
       (NotGraph (PList [PNode node_a; PInt 1; PNode node_other])) PNone false
     = Raise TypeError)
  /\ (is_graph_element (PInt 1) = true ->
      (exists p, p ∈ [PNode node_a] /\ element_graph p <> element_graph (PInt 1)) ->
      get_unique_graph empty_store
        (NotGraph (PList [PNode node_a; PInt 1; PNode node_other])) PNone false
      = Raise ValueError).
Proof.
  apply (get_unique_graph_first_offender empty_store
           (PList [PNode node_a; PInt 1; PNode node_other])
           [PNode node_a] (PInt 1) [PNode node_other] false).
  - reflexivity.
  - repeat constructor.
  - intros p q Hp%list_elem_of_singleton Hq%list_elem_of_singleton. by subst.
Defined.

(** ** [check_graphs] *)

(** The loop once a Graph is kept: it goes on over [None] and that Graph,
    and raises at anything else. *)
Lemma check_graphs_loop_kept args g :
  for_each check_graphs_step args (Some g)
  = if forallb (fun a => bool_decide (a = None \/ a = Some g)) args
    then Return (Some g) else Raise ValueError.
Proof.
  assert (Hstep : forall a, check_graphs_step a (Some g)
                            = if bool_decide (a = None \/ a = Some g)
                              then Return (Some g) else Raise ValueError).
  { intros [ga|]; unfold check_graphs_step.
    - rewrite (bool_decide_false (Some g = None)) by done.
      rewrite (bool_decide_true (Some ga ≠ None)) by done. cbn [andb].
      destruct (decide (ga = g)) as [->|Hne].
      + rewrite (bool_decide_false (Some g ≠ Some g)) by (by intros []).
        by rewrite (bool_decide_true (_ \/ _)) by (by right).
      + rewrite (bool_decide_true (Some ga ≠ Some g)) by congruence.
        rewrite (bool_decide_false (_ \/ _)); [done|]. intros [?|?]; congruence.
    - rewrite (bool_decide_false (Some g = None)) by done.
      rewrite (bool_decide_false (None ≠ None)) by (by intros []). cbn [andb].
      by rewrite (bool_decide_true (_ \/ _)) by (by left). }
  induction args as [|a args IH]; [reflexivity|].
  cbn [for_each forallb]. rewrite Hstep.
  destruct (bool_decide (a = None \/ a = Some g)); [exact IH|reflexivity].
Qed.

(** [check_graphs] returns exactly when the arguments whose [graph] is
    not [None] all have the same Graph, and raises [ValueError] otherwise;
    arguments without a Graph are passed over, wherever they stand. *)
Theorem check_graphs_spec args :
  ((forall g1 g2, Some g1 ∈ args -> Some g2 ∈ args -> g1 = g2) ->
     check_graphs args = Return tt)
  /\ ((exists g1 g2, Some g1 ∈ args /\ Some g2 ∈ args /\ g1 <> g2) ->
        check_graphs args = Raise ValueError).
Proof.
  assert (Hstep : forall a, check_graphs_step a None = Return a) by (by intros [g|]).
  unfold check_graphs. induction args as [|a args [IH1 IH2]]; split.
  - done.
  - intros (g1 & _ & []%elem_of_nil & _).
  - intros Hsame. cbn [for_each]. rewrite Hstep.
    change (Return ?a ≫= ?k) with (k a). cbv beta. destruct a as [g|].
    + rewrite check_graphs_loop_kept.
      assert (forallb (fun a => bool_decide (a = None \/ a = Some g)) args = true) as ->;
        [|done].
      apply forallb_forall. intros [g'|] Hg'%list_elem_of_In; apply bool_decide_eq_true;
        [right|by left].
      f_equal. apply Hsame; apply elem_of_cons; [by right|by left].
    + apply IH1. intros g1 g2 H1 H2. apply Hsame; apply elem_of_cons; by right.
  - intros (g1 & g2 & H1 & H2 & Hne). cbn [for_each]. rewrite Hstep.
    change (Return ?a ≫= ?k) with (k a). cbv beta. destruct a as [g|].
    + rewrite check_graphs_loop_kept.
      assert (exists g', Some g' ∈ args /\ g' <> g) as (g' & Hg' & Hne').
      { apply elem_of_cons in H1 as [[= ->]|H1]; apply elem_of_cons in H2 as [[= ->]|H2].
        - done.
        - by exists g2.
        - by exists g1.
        - destruct (decide (g1 = g)) as [->|?]; [by exists g2|by exists g1]. }
      rewrite (forallb_false_elem _ args (Some g') Hg'); [done|].
      apply bool_decide_eq_false. intros [?|?]; congruence.
    + apply IH2. exists g1, g2. apply elem_of_cons in H1 as [?|H1]; [done|].
      apply elem_of_cons in H2 as [?|H2]; done.
Qed.

Example check_graphs_examples :
  check_graphs [] = Return tt
  /\ check_graphs [None; Some 1%nat; None; Some 1%nat] = Return tt
  /\ check_graphs [None; Some 1%nat; None; Some 2%nat; None] = Raise ValueError.
Proof. by repeat split. Qed.

(** [check_graphs] and [get_unique_graph] agree: on an iterable of Nodes
    and Tensors, [check_graphs] applied to the elements returns exactly
    when [get_unique_graph] with [none_if_empty] returns, and both raise
    [ValueError] otherwise. *)
Theorem check_graphs_get_unique_graph st tops ops :
  py_iter st tops = Some ops ->
  Forall (fun o => is_graph_element o = true) ops ->
  let args := map (fun o => Some (element_graph o)) ops in
  (check_graphs args = Return tt
   /\ returns (get_unique_graph st (NotGraph tops) PNone true))
  \/ (check_graphs args = Raise ValueError
      /\ get_unique_graph st (NotGraph tops) PNone true = Raise ValueError).
Proof.
  intros Hiter Hops args. rewrite (get_unique_graph_elements st tops ops true Hiter Hops).
  unfold check_graphs, args. destruct ops as [|op rest]; [left; split; [done|by eexists]|].
  cbn [map for_each].
  change (check_graphs_step (Some (element_graph op)) None)
    with (@Return (option graph_id) (Some (element_graph op))).
  change (Return ?a ≫= ?k) with (k a). cbv beta.
  rewrite check_graphs_loop_kept, forallb_map.
  assert (forallb (fun x => bool_decide (Some (element_graph x) = None
                                         \/ Some (element_graph x)
                                            = Some (element_graph op))) rest
          = forallb (fun o => Nat.eqb (element_graph op) (element_graph o)) rest) as ->.
  { apply forallb_ext_elem. intros x _.
    destruct (Nat.eqb_spec (element_graph op) (element_graph x)) as [E|E].
    - apply bool_decide_eq_true. right. by rewrite E.
    - apply bool_decide_eq_false. intros [?|?]; congruence. }
  destruct (forallb _ rest); [left; split; [done|by eexists]|by right].
Qed.

Lemma check_graphs_get_unique_graph_witness :
  let tops := PTuple [PNode node_a; PTensor (mkTensor node_other 0)] in
  let args := [Some (node_graph node_a); Some (node_graph node_other)] in
  (check_graphs args = Return tt
   /\ returns (get_unique_graph empty_store (NotGraph tops) PNone true))
  \/ (check_graphs args = Raise ValueError
      /\ get_unique_graph empty_store (NotGraph tops) PNone true = Raise ValueError).
Proof.
  apply (check_graphs_get_unique_graph empty_store
           (PTuple [PNode node_a; PTensor (mkTensor node_other 0)])
           [PNode node_a; PTensor (mkTensor node_other 0)]).
  - reflexivity.
  - repeat constructor.
Defined.

(** ** [make_list_of_op] and [make_list_of_t] *)

Lemma isinstance_Node st o : isinstance st o C_Node = true <-> exists n, o = PNode n.
Proof.
  split; [|by intros [n ->]].
  destruct o; try discriminate; eauto.
  unfold isinstance. cbn. by destruct (st l).
Qed.

Lemma isinstance_Tensor st o : isinstance st o C_Tensor = true <-> exists t, o = PTensor t.
Proof.
  split; [|by intros [t ->]].
  destruct o; try discriminate; eauto.
  unfold isinstance. cbn. by destruct (st l).
Qed.

(** The argument after a value that is not iterable was wrapped. *)
Lemma wrapped_items st o :
  let o' := if negb (is_iterable st o) then PList [o] else o in
  py_iter st o' = Some (as_items st o)
  /\ is_iterable st o' = true
  /\ container_truthy st o' = negb (bool_decide (as_items st o = [])).
Proof.
  unfold as_items, container_truthy. destruct (is_iterable st o) eqn:E; cbn [negb].
  - assert (exists xs, py_iter st o = Some xs) as [xs Hxs].
    { unfold is_iterable in E. destruct (isinstance st o C_Node); [discriminate|].
      destruct (py_iter st o); [eauto|discriminate]. }
    rewrite Hxs. cbn [default id]. split; [done|]. split; [done|].
    destruct xs; case_bool_decide; done.
  - split; [done|]. split; [done|]. reflexivity.
Qed.

(** The type check [get_unique_graph] makes, after its normalisation. *)
Lemma get_unique_graph_iter st tops items check_types none_if_empty :
  py_iter st tops = Some items ->
  get_unique_graph st (NotGraph tops) check_types none_if_empty =
  (g ← for_each (unique_graph_step st
                   match check_types with
                   | PNone => PTuple [PType C_Node; PType C_Tensor]
                   | _ => if negb (is_iterable st check_types) then PTuple [check_types]
                          else check_types
                   end) items None;
   match g with
   | None => if negb none_if_empty then Raise ValueError else Return None
   | Some g0 => Return (Some g0)
   end).
Proof.
  intros Hiter. unfold get_unique_graph.
  rewrite (is_iterable_of_iter _ _ _ Hiter), Hiter. reflexivity.
Qed.

(** One step of the loop on an element that passes the type check. *)
Lemma unique_graph_step_passes st ct op g :
  isinstance_info st op ct = Return true -> is_graph_element op = true ->
  unique_graph_step st ct op g =
  match g with
  | None => Return (Some (element_graph op))
  | Some g0 => if Nat.eqb g0 (element_graph op) then Return (Some g0)
               else Raise ValueError
  end.
Proof.
  intros Hi Hop. unfold unique_graph_step. rewrite Hi.
  destruct op; try discriminate Hop; destruct g as [g0|]; cbn; try reflexivity.
  - by destruct (Nat.eqb g0 (node_graph n)).
  - by destruct (Nat.eqb g0 (node_graph (tensor_node t))).
Qed.

Lemma unique_graph_loop_kept st ct ops g :
  Forall (fun o => isinstance_info st o ct = Return true /\ is_graph_element o = true) ops ->
  for_each (unique_graph_step st ct) ops (Some g)
  = if forallb (fun o => Nat.eqb g (element_graph o)) ops
    then Return (Some g) else Raise ValueError.
Proof.
  induction 1 as [|op ops [Hi Hop] Hops IH]; [reflexivity|].
  cbn [for_each forallb]. rewrite (unique_graph_step_passes st ct op _ Hi Hop).
  destruct (Nat.eqb g (element_graph op)); [exact IH|reflexivity].
Qed.

Lemma unique_graph_loop st ct ops :
  Forall (fun o => isinstance_info st o ct = Return true /\ is_graph_element o = true) ops ->
  for_each (unique_graph_step st ct) ops None
  = match ops with
    | [] => Return None
    | op :: rest =>
        if forallb (fun o => Nat.eqb (element_graph op) (element_graph o)) rest
        then Return (Some (element_graph op)) else Raise ValueError
    end.
Proof.
  intros Hops. destruct Hops as [|op rest [Hi Hop] Hrest]; [reflexivity|].
  cbn [for_each]. rewrite (unique_graph_step_passes st ct op _ Hi Hop).
  change (Return ?a ≫= ?k) with (k a). cbv beta. by apply unique_graph_loop_kept.
Qed.

(** Elements of one Graph, and elements of two. *)
Lemma same_graph_forallb op rest :
  (forall x y, x ∈ op :: rest -> y ∈ op :: rest -> element_graph x = element_graph y) ->
  forallb (fun o => Nat.eqb (element_graph op) (element_graph o)) rest = true.
Proof.
  intros Hsame. apply forallb_forall. intros z Hz%list_elem_of_In. apply Nat.eqb_eq.
  apply Hsame; apply elem_of_cons; [by left|by right].
Qed.

Lemma other_graph_forallb op rest :
  (exists x y, x ∈ op :: rest /\ y ∈ op :: rest /\ element_graph x <> element_graph y) ->
  forallb (fun o => Nat.eqb (element_graph op) (element_graph o)) rest = false.
Proof.
  intros (x & y & Hx & Hy & Hne).
  assert (exists z, z ∈ rest /\ element_graph op <> element_graph z) as (z & Hz & Hzne).
  { apply elem_of_cons in Hx as [->|Hx]; apply elem_of_cons in Hy as [->|Hy].
    - done.
    - by exists y.
    - exists x. split; [exact Hx|congruence].
    - destruct (decide (element_graph op = element_graph x)) as [E|E].
      + exists y. split; [exact Hy|congruence].
      + by exists x. }
  apply (forallb_false_elem _ rest z Hz). by apply Nat.eqb_neq.
Qed.

(** A loop that returns has met elements that pass the type check and
    belong to one Graph. *)
Lemma unique_graph_loop_returns st ct ops : forall g0 g1,
  for_each (unique_graph_step st ct) ops g0 = Return g1 ->
  Forall (fun o => isinstance_info st o ct = Return true /\ is_graph_element o = true) ops
  /\ (forall x g, x ∈ ops -> g1 = Some g -> element_graph x = g).
Proof.
  induction ops as [|op ops IH]; intros g0 g1 H.
  - split; [constructor|]. by intros x g []%elem_of_nil.
  - cbn [for_each] in H. destruct (unique_graph_step st ct op g0) as [g'|] eqn:E;
      [|discriminate]. cbn in H. destruct (IH _ _ H) as [Hall Hg].
    unfold unique_graph_step in E.
    destruct (isinstance_info st op ct) as [[|]|] eqn:Ei; try discriminate.
    cbn in E. destruct (getattr_graph op) as [og|] eqn:Eg; [|discriminate]. cbn in E.
    assert (Hop : is_graph_element op = true /\ element_graph op = og).
    { destruct op; try discriminate Eg; by injection Eg as <-. }
    destruct Hop as [Hop Hog].
    assert (Hg' : g' = Some og).
    { destruct g0 as [g0|]; [|by injection E as <-].
      destruct (Nat.eqb_spec g0 og) as [->|]; [by injection E as <-|discriminate]. }
    subst g'. split; [by constructor|].
    intros x g [->|Hx]%elem_of_cons Hg1; [|by apply Hg].
    rewrite Hog.
    assert (Hkeep : forall xs s r, for_each (unique_graph_step st ct) xs (Some s) = Return r
                                   -> r = Some s).
    { clear. induction xs as [|x xs IHx]; intros s r Hr; [by injection Hr as <-|].
      cbn [for_each] in Hr.
      destruct (unique_graph_step st ct x (Some s)) as [s'|] eqn:Es; [|discriminate].
      cbn in Hr. unfold unique_graph_step in Es.
      destruct (isinstance_info st x ct) as [[|]|]; try discriminate. cbn in Es.
      destruct (getattr_graph x) as [xg|]; [|discriminate]. cbn in Es.
      destruct (Nat.eqb s xg); [|discriminate]. injection Es as <-. by apply IHx. }
    apply Hkeep in H. congruence.
Qed.

(** [make_list_of_op] on a value that is no Graph, told on the items. *)
Lemma make_list_of_op_items st graphs (ops : pyobj) check_graph allow_graph ignore_ts :
  make_list_of_op st graphs (NotGraph ops) check_graph allow_graph ignore_ts =
  if bool_decide (as_items st ops = []) then Return []
  else
    _ ← (if check_graph then
           g ← for_each (unique_graph_step st
                           (if ignore_ts then PTuple [PType C_Node; PType C_Tensor]
                            else PTuple [PType C_Node]))
                        (as_items st ops) None;
           match g with
           | None => Raise ValueError
           | Some g0 => Return (Some g0)
           end
         else Return None);
    Return (List.filter (fun op => isinstance st op C_Node) (as_items st ops)).
Proof.
  unfold make_list_of_op. cbv zeta.
  destruct (wrapped_items st ops) as (Hiter & _ & Htruthy). cbv zeta in Hiter, Htruthy.
  rewrite Htruthy, negb_involutive, Hiter. cbn [default id].
  destruct (bool_decide (as_items st ops = [])); [reflexivity|].
  destruct check_graph; [|reflexivity].
  rewrite (get_unique_graph_iter _ _ _ _ _ Hiter). by destruct ignore_ts.
Qed.

Lemma make_list_of_t_items st tensors (ts : pyobj) check_graph allow_graph ignore_ops :
  make_list_of_t st tensors (NotGraph ts) check_graph allow_graph ignore_ops =
  if bool_decide (as_items st ts = []) then Return []
  else
    _ ← (if check_graph then
           g ← for_each (unique_graph_step st
                           (if ignore_ops then PTuple [PType C_Node; PType C_Tensor]
                            else PTuple [PType C_Tensor]))
                        (as_items st ts) None;
           match g with
           | None => Raise ValueError
           | Some g0 => Return (Some g0)
           end
         else Return None);
    Return (List.filter (fun t => isinstance st t C_Tensor) (as_items st ts)).
Proof.
  unfold make_list_of_t. cbv zeta.
  destruct (wrapped_items st ts) as (Hiter & _ & Htruthy). cbv zeta in Hiter, Htruthy.
  rewrite Htruthy, negb_involutive, Hiter. cbn [default id].
  destruct (bool_decide (as_items st ts = [])); [reflexivity|].
  destruct check_graph; [|reflexivity].
  rewrite (get_unique_graph_iter _ _ _ _ _ Hiter). by destruct ignore_ops.
Qed.

(** On a one-shot iterator: under [check_graph] the items are checked
    and taken by [get_unique_graph], and none is left for the result. *)
Lemma make_list_of_op_iterator st graphs items check_graph allow_graph ignore_ts :
  make_list_of_op st graphs (NotGraph (Iterator items)) check_graph allow_graph ignore_ts =
  if check_graph then
    _ ← get_unique_graph st (NotGraph (PList items))
          (if ignore_ts then PNone else PType C_Node) false;
    Return []
  else Return (List.filter (fun op => isinstance st op C_Node) items).
Proof.
  unfold make_list_of_op. destruct check_graph; [|reflexivity]. cbv zeta.
  pose proof (get_unique_graph_iterator_outcome st (PList items) items
                (if ignore_ts then PNone else PType C_Node) false eq_refl) as Ho.
  pose proof (get_unique_graph_iterator_exhausted st items
                (if ignore_ts then PNone else PType C_Node) false) as He.
  destruct (get_unique_graph_iterator st items _ false) as [g left].
  cbn [fst snd] in *. rewrite <- Ho. destruct g as [g|e]; [|reflexivity].
  rewrite He by (by eexists). reflexivity.
Qed.

Lemma make_list_of_t_iterator st tensors items check_graph allow_graph ignore_ops :
  make_list_of_t st tensors (NotGraph (Iterator items)) check_graph allow_graph ignore_ops =
  if check_graph then
    _ ← get_unique_graph st (NotGraph (PList items))
          (if ignore_ops then PNone else PTuple [PType C_Tensor]) false;
    Return []
  else Return (List.filter (fun t => isinstance st t C_Tensor) items).
Proof.
  unfold make_list_of_t. destruct check_graph; [|reflexivity]. cbv zeta.
  pose proof (get_unique_graph_iterator_outcome st (PList items) items
                (if ignore_ops then PNone else PTuple [PType C_Tensor]) false eq_refl)
    as Ho.
  pose proof (get_unique_graph_iterator_exhausted st items
                (if ignore_ops then PNone else PTuple [PType C_Tensor]) false) as He.
  destruct (get_unique_graph_iterator st items _ false) as [g left].
  cbn [fst snd] in *. rewrite <- Ho. destruct g as [g|e]; [|reflexivity].
  rewrite He by (by eexists). reflexivity.
Qed.

Lemma as_items_list st xs : as_items st (PList xs) = xs.
Proof. reflexivity. Qed.

Lemma filter_all {A} (p : A -> bool) xs :
  Forall (fun x => p x = true) xs -> List.filter p xs = xs.
Proof.
  induction 1 as [|x xs Hx _ IH]; [reflexivity|]. cbn. by rewrite Hx, IH.
Qed.

Lemma filter_Forall {A} (p : A -> bool) xs :
  Forall (fun x => p x = true) (List.filter p xs).
Proof.
  apply Forall_forall. intros x Hx%list_elem_of_In%filter_In. tauto.
Qed.

Lemma elem_of_filter_list {A} (p : A -> bool) xs x :
  x ∈ List.filter p xs -> x ∈ xs.
Proof. intros Hx%list_elem_of_In%filter_In. apply list_elem_of_In. tauto. Qed.

(** The loop over elements of one Graph that pass the type check. *)
Lemma unique_graph_loop_same st ct ops :
  Forall (fun o => isinstance_info st o ct = Return true /\ is_graph_element o = true) ops ->
  (forall x y, x ∈ ops -> y ∈ ops -> element_graph x = element_graph y) ->
  ops <> [] ->
  exists g, for_each (unique_graph_step st ct) ops None = Return (Some g).
Proof.
  intros Hops Hsame Hne. rewrite unique_graph_loop by done.
  destruct ops as [|op rest]; [done|]. rewrite same_graph_forallb by done. eauto.
Qed.

(** What [make_list_of_op] returns.  Whenever the call returns, on an
    argument that is no Graph: the result lists the Nodes among the items
    the final comprehension is given, in their order: the items of a
    container (the argument alone when it is not iterable), the items of
    a one-shot iterator when [check_graph] is off, and none of them when
    it is on, [get_unique_graph] having taken them all.  The result holds
    Nodes only; under [check_graph] they all belong to one Graph; and the
    result is a fixed point: the same call on the result gives the result
    again. *)
Theorem make_list_of_op_result st graphs (ops : py_arg) check_graph allow_graph
    ignore_ts r :
  make_list_of_op st graphs (NotGraph ops) check_graph allow_graph ignore_ts = Return r ->
  r = List.filter (fun op => isinstance st op C_Node)
        match ops with
        | Value o => as_items st o
        | Iterator items => if check_graph then [] else items
        end
  /\ Forall (fun o => exists n, o = PNode n) r
  /\ (check_graph = true ->
      forall x y, x ∈ r -> y ∈ r -> element_graph x = element_graph y)
  /\ make_list_of_op st graphs (NotGraph (PList r)) check_graph allow_graph ignore_ts
     = Return r.
Proof.
  intros H.
  set (ct := if ignore_ts then PTuple [PType C_Node; PType C_Tensor]
             else PTuple [PType C_Node]).
  set (given := match ops with
                | Value o => as_items st o
                | Iterator items => if check_graph then [] else items
                end).
  assert (Hr : r = List.filter (fun op => isinstance st op C_Node) given
               /\ (check_graph = true ->
                   forall x y, x ∈ r -> y ∈ r -> element_graph x = element_graph y)).
  { destruct ops as [o|items]; unfold given.
    - rewrite make_list_of_op_items in H. fold ct in H.
      set (items := as_items st o) in *.
      destruct (bool_decide_reflect (items = [])) as [E|_].
      { injection H as <-. rewrite E. split; [done|]. by intros _ x y []%elem_of_nil. }
      destruct check_graph.
      + destruct (for_each _ items None) as [[g|]|] eqn:E; try discriminate.
        injection H as <-. split; [done|]. intros _ x y Hx Hy.
        destruct (unique_graph_loop_returns _ _ _ _ _ E) as [_ Hg].
        apply elem_of_filter_list in Hx, Hy.
        by rewrite (Hg x g Hx), (Hg y g Hy).
      + injection H as <-. split; [done|]. intros [=].
    - rewrite make_list_of_op_iterator in H. destruct check_graph.
      + destruct (get_unique_graph _ _ _ _); [|discriminate]. injection H as <-.
        split; [done|]. by intros _ x y []%elem_of_nil.
      + injection H as <-. split; [done|]. intros [=]. }
  destruct Hr as [Hr Hsame].
  assert (Hnodes : Forall (fun o => isinstance st o C_Node = true) r).
  { rewrite Hr. apply filter_Forall. }
  split; [exact Hr|]. split; [|split; [exact Hsame|]].
  { eapply Forall_impl; [exact Hnodes|]. intros o. apply isinstance_Node. }
  rewrite make_list_of_op_items, as_items_list. fold ct.
  destruct (bool_decide_reflect (r = [])) as [->|Hne]; [reflexivity|].
  rewrite (filter_all _ r Hnodes).
  destruct check_graph; [|reflexivity].
  destruct (unique_graph_loop_same st ct r) as [g ->]; [|by apply Hsame|done|done].
  eapply Forall_impl; [exact Hnodes|]. intros o [n ->]%isinstance_Node.
  unfold ct. by destruct ignore_ts.
Qed.

(** The theorem on a tuple, and on one-shot iterators over the same
    items with and without [check_graph]. *)
Lemma make_list_of_op_result_witness :
  let items := [PNode node_a; PTensor (mkTensor node_b 0); PNode node_b] in
  let call ops check_graph :=
    make_list_of_op empty_store (fun _ => sample_graph) (NotGraph ops)
      check_graph true true in
  (call (Value (PTuple items)) true = Return [PNode node_a; PNode node_b]
   /\ call (Value (PList [PNode node_a; PNode node_b])) true
      = Return [PNode node_a; PNode node_b])
  /\ (call (Iterator items) true = Return []
      /\ [] = List.filter (fun op => isinstance empty_store op C_Node) [])
  /\ (call (Iterator items) false = Return [PNode node_a; PNode node_b]
      /\ call (Value (PList [PNode node_a; PNode node_b])) false
         = Return [PNode node_a; PNode node_b]).
Proof.
  cbv zeta. split; [|split].
  - split; [reflexivity|].
    apply (make_list_of_op_result empty_store (fun _ => sample_graph)
             (Value (PTuple [PNode node_a; PTensor (mkTensor node_b 0); PNode node_b]))
             true true true [PNode node_a; PNode node_b]).
    reflexivity.
  - split; [reflexivity|].
    apply (make_list_of_op_result empty_store (fun _ => sample_graph)
             (Iterator [PNode node_a; PTensor (mkTensor node_b 0); PNode node_b])
             true true true []).
    reflexivity.
  - split; [reflexivity|].
    apply (make_list_of_op_result empty_store (fun _ => sample_graph)
             (Iterator [PNode node_a; PTensor (mkTensor node_b 0); PNode node_b])
             false true true [PNode node_a; PNode node_b]).
    reflexivity.
Defined.

Lemma isinstance_info_element st o :
  is_graph_element o = true ->
  isinstance_info st o (PTuple [PType C_Node; PType C_Tensor]) = Return true.
Proof. by destruct o. Qed.

(** Under the type check for Nodes alone, a Tensor among elements of one
    Graph ends the loop with [TypeError]. *)
Lemma unique_graph_loop_tensor st g : forall xs s,
  Forall (fun o => is_graph_element o = true) xs ->
  (forall x, x ∈ xs -> element_graph x = g) ->
  (exists t, PTensor t ∈ xs) ->
  s = None \/ s = Some g ->
  for_each (unique_graph_step st (PTuple [PType C_Node])) xs s = Raise TypeError.
Proof.
  induction xs as [|x xs IH]; intros s Hel Hg [t Ht] Hs.
  { by apply elem_of_nil in Ht. }
  apply Forall_cons in Hel as [Hx Hel]. cbn [for_each].
  destruct x as [| | | |n|t'| | | | | |]; try discriminate Hx; [|reflexivity].
  rewrite (unique_graph_step_passes st (PTuple [PType C_Node]) (PNode n) s eq_refl
             eq_refl).
  assert (Hn : element_graph (PNode n) = g) by (apply Hg, elem_of_cons; by left).
  assert (Hrest : for_each (unique_graph_step st (PTuple [PType C_Node])) xs (Some g)
                  = Raise TypeError).
  { apply IH; [done| |exists t|by right].
    - intros y Hy. apply Hg, elem_of_cons. by right.
    - apply elem_of_cons in Ht as [?|?]; done. }
  destruct Hs as [-> | ->].
  - rewrite Hn. exact Hrest.
  - rewrite Hn, Nat.eqb_refl. exact Hrest.
Qed.



(** The flags on sample values: a Tensor of another Graph is checked
    before it is dropped; a single Node is put into a list. *)
Example make_list_of_op_examples :
  let call ops check_graph ignore_ts :=
    make_list_of_op empty_store (fun _ => sample_graph) (NotGraph ops)
      check_graph true ignore_ts in
  call (PList [PNode node_a; PTensor (mkTensor node_other 0)]) true true
  = Raise ValueError
  /\ call (PList [PNode node_a; PTensor (mkTensor node_other 0)]) false false
     = Return [PNode node_a]
  /\ call (PList [PNode node_a; PTensor (mkTensor node_b 0)]) true false
     = Raise TypeError
  /\ call (PNode node_a) true false = Return [PNode node_a]
  /\ call (PTensor (mkTensor node_b 0)) true true = Return []
  /\ call PNone true true = Raise TypeError
  /\ call PNone false true = Return []
  /\ call (PList []) true false = Return []
  /\ make_list_of_op empty_store (fun _ => sample_graph) (IsGraph 0%nat) true true false
     = Return [PNode node_a; PNode node_b]
  /\ make_list_of_op empty_store (fun _ => sample_graph) (IsGraph 0%nat) true false false
     = Raise TypeError.
Proof. by repeat split. Qed.

(** What [make_list_of_t] returns, on an argument that is no Graph: the
    Tensors among the items the final comprehension is given, in their
    order, and Tensors only: the items of a container (the argument alone
    when it is not iterable), the items of a one-shot iterator when
    [check_graph] is off, and none of them when it is on,
    [get_unique_graph] having taken them all.  Under [check_graph] the
    Tensors of the result all belong to one Graph; the same call on the
    result gives the result again. *)
Theorem make_list_of_t_result st tensors (ts : py_arg) check_graph allow_graph
    ignore_ops r :
  make_list_of_t st tensors (NotGraph ts) check_graph allow_graph ignore_ops = Return r ->
  r = List.filter (fun t => isinstance st t C_Tensor)
        match ts with
        | Value o => as_items st o
        | Iterator items => if check_graph then [] else items
        end
  /\ Forall (fun o => exists t, o = PTensor t) r
  /\ (check_graph = true ->
      forall x y, x ∈ r -> y ∈ r -> element_graph x = element_graph y)
  /\ make_list_of_t st tensors (NotGraph (PList r)) check_graph allow_graph ignore_ops
     = Return r.
Proof.
  intros H.
  set (ct := if ignore_ops then PTuple [PType C_Node; PType C_Tensor]
             else PTuple [PType C_Tensor]).
  set (given := match ts with
                | Value o => as_items st o
                | Iterator items => if check_graph then [] else items
                end).
  assert (Hr : r = List.filter (fun t => isinstance st t C_Tensor) given
               /\ (check_graph = true ->
                   forall x y, x ∈ r -> y ∈ r -> element_graph x = element_graph y)).
  { destruct ts as [o|items]; unfold given.
    - rewrite make_list_of_t_items in H. fold ct in H.
      set (items := as_items st o) in *.
      destruct (bool_decide_reflect (items = [])) as [E|_].
      { injection H as <-. rewrite E. split; [done|]. by intros _ x y []%elem_of_nil. }
      destruct check_graph.
      + destruct (for_each _ items None) as [[g|]|] eqn:E; try discriminate.
        injection H as <-. split; [done|]. intros _ x y Hx Hy.
        destruct (unique_graph_loop_returns _ _ _ _ _ E) as [_ Hg].
        apply elem_of_filter_list in Hx, Hy.
        by rewrite (Hg x g Hx), (Hg y g Hy).
      + injection H as <-. split; [done|]. intros [=].
    - rewrite make_list_of_t_iterator in H. destruct check_graph.
      + destruct (get_unique_graph _ _ _ _); [|discriminate]. injection H as <-.
        split; [done|]. by intros _ x y []%elem_of_nil.
      + injection H as <-. split; [done|]. intros [=]. }
  destruct Hr as [Hr Hsame].
  assert (Htensors : Forall (fun o => isinstance st o C_Tensor = true) r).
  { rewrite Hr. apply filter_Forall. }
  split; [exact Hr|]. split; [|split; [exact Hsame|]].
  { eapply Forall_impl; [exact Htensors|]. intros o. apply isinstance_Tensor. }
  rewrite make_list_of_t_items, as_items_list. fold ct.
  destruct (bool_decide_reflect (r = [])) as [->|Hne]; [reflexivity|].
  rewrite (filter_all _ r Htensors).
  destruct check_graph; [|reflexivity].
  destruct (unique_graph_loop_same st ct r) as [g ->]; [|by apply Hsame|done|done].
  eapply Forall_impl; [exact Htensors|]. intros o [t ->]%isinstance_Tensor.
  unfold ct. by destruct ignore_ops.
Qed.

(** The theorem on a tuple, and on one-shot iterators over the same
    items with and without [check_graph]. *)
Lemma make_list_of_t_result_witness :
  let items := [PTensor (mkTensor node_a 1); PNode node_b;
                PTensor (mkTensor node_b 0)] in
  let r := [PTensor (mkTensor node_a 1); PTensor (mkTensor node_b 0)] in
  let call ts check_graph :=
    make_list_of_t empty_store (fun _ => []) (NotGraph ts) check_graph true true in
  (call (Value (PTuple items)) true = Return r
   /\ call (Value (PList r)) true = Return r)
  /\ (call (Iterator items) true = Return []
      /\ [] = List.filter (fun t => isinstance empty_store t C_Tensor) [])
  /\ (call (Iterator items) false = Return r
      /\ call (Value (PList r)) false = Return r).
Proof.
  cbv zeta. split; [|split].
  - split; [reflexivity|].
    apply (make_list_of_t_result empty_store (fun _ => [])
             (Value (PTuple [PTensor (mkTensor node_a 1); PNode node_b;
                             PTensor (mkTensor node_b 0)]))
             true true true
             [PTensor (mkTensor node_a 1); PTensor (mkTensor node_b 0)]).
    reflexivity.
  - split; [reflexivity|].
    apply (make_list_of_t_result empty_store (fun _ => [])
             (Iterator [PTensor (mkTensor node_a 1); PNode node_b;
                        PTensor (mkTensor node_b 0)])
             true true true []).
    reflexivity.
  - split; [reflexivity|].
    apply (make_list_of_t_result empty_store (fun _ => [])
             (Iterator [PTensor (mkTensor node_a 1); PNode node_b;
                        PTensor (mkTensor node_b 0)])
             false true true
             [PTensor (mkTensor node_a 1); PTensor (mkTensor node_b 0)]).
    reflexivity.
Defined.

(** ** [get_generating_ops] and [get_consuming_ops] *)

(** Both functions start with [make_list_of_t(ts, allow_graph=False)]:
    on Tensors it returns them when they share a Graph and raises
    [ValueError] when they do not. *)
Lemma make_list_of_t_tensors st tensors ts tl :
  as_items st ts = map PTensor tl ->
  make_list_of_t st tensors (NotGraph ts) true false false =
  match tl with
  | [] => Return []
  | t :: rest =>
      if forallb (fun o => Nat.eqb (node_graph (tensor_node t))
                                   (node_graph (tensor_node o))) rest
      then Return (map PTensor tl) else Raise ValueError
  end.
Proof.
  intros Hitems. rewrite make_list_of_t_items, Hitems.
  destruct tl as [|t rest]; [reflexivity|].
  rewrite bool_decide_false by done.
  assert (Hall : Forall (fun o => isinstance_info st o (PTuple [PType C_Tensor])
                                  = Return true /\ is_graph_element o = true)
                        (map PTensor (t :: rest))).
  { apply Forall_forall. by intros o (t' & -> & _)%list_elem_of_fmap. }
  rewrite unique_graph_loop by done.
  rewrite (filter_all (fun t => isinstance st t C_Tensor) (map PTensor (t :: rest)))
    by (apply Forall_forall; by intros o (t' & -> & _)%list_elem_of_fmap).
  cbn [map]. rewrite forallb_map. cbn [element_graph].
  by destruct (forallb _ rest).
Qed.

Lemma tensors_same_graph t rest :
  (forall x y, x ∈ t :: rest -> y ∈ t :: rest ->
               node_graph (tensor_node x) = node_graph (tensor_node y)) ->
  forallb (fun o => Nat.eqb (node_graph (tensor_node t)) (node_graph (tensor_node o)))
          rest = true.
Proof.
  intros Hsame. apply forallb_forall. intros z Hz%list_elem_of_In. apply Nat.eqb_eq.
  apply Hsame; apply elem_of_cons; [by left|by right].
Qed.

Lemma tensors_other_graph t rest :
  (exists x y, x ∈ t :: rest /\ y ∈ t :: rest
               /\ node_graph (tensor_node x) <> node_graph (tensor_node y)) ->
  forallb (fun o => Nat.eqb (node_graph (tensor_node t)) (node_graph (tensor_node o)))
          rest = false.
Proof.
  intros (x & y & Hx & Hy & Hne).
  assert (exists z, z ∈ rest
                    /\ node_graph (tensor_node t) <> node_graph (tensor_node z))
    as (z & Hz & Hzne).
  { apply elem_of_cons in Hx as [->|Hx]; apply elem_of_cons in Hy as [->|Hy].
    - done.
    - by exists y.
    - exists x. split; [exact Hx|congruence].
    - destruct (decide (node_graph (tensor_node t) = node_graph (tensor_node x)))
        as [E|E].
      + exists y. split; [exact Hy|congruence].
      + by exists x. }
  apply (forallb_false_elem _ rest z Hz). by apply Nat.eqb_neq.
Qed.

(** [get_generating_ops] on Tensors (a sequence of them, or a single
    one): when they share a Graph the result lists the Node of each
    Tensor, one entry per Tensor in the order of the Tensors, so a Node
    with several of its outputs among them is listed several times;
    Tensors of two Graphs raise [ValueError]; a Graph is refused with
    [TypeError]. *)
Theorem get_generating_ops_spec st tensors ts tl :
  as_items st ts = map PTensor tl ->
  ((forall x y, x ∈ tl -> y ∈ tl ->
                node_graph (tensor_node x) = node_graph (tensor_node y)) ->
     get_generating_ops st tensors (NotGraph ts)
     = Return (map (fun t => PNode (tensor_node t)) tl))
  /\ ((exists x y, x ∈ tl /\ y ∈ tl
                   /\ node_graph (tensor_node x) <> node_graph (tensor_node y)) ->
        get_generating_ops st tensors (NotGraph ts) = Raise ValueError)
  /\ (forall g, get_generating_ops st tensors (IsGraph g) = Raise TypeError).
Proof.
  intros Hitems. unfold get_generating_ops.
  rewrite (make_list_of_t_tensors _ _ _ _ Hitems). repeat split.
  - intros Hsame. destruct tl as [|t rest]; [reflexivity|].
    rewrite tensors_same_graph by done.
    change (Return ?a ≫= ?k) with (k a). cbv beta.
    rewrite (collect_map _ (fun o => match o with
                                     | PTensor t => PNode (tensor_node t)
                                     | _ => o
                                     end)).
    + by rewrite map_map.
    + by intros o (t' & -> & _)%list_elem_of_fmap.
  - intros Hdiff.
    destruct tl as [|t rest]; [by destruct Hdiff as (? & ? & []%elem_of_nil & _)|].
    by rewrite tensors_other_graph.
Qed.

Lemma get_generating_ops_spec_witness :
  let ts := PList [PTensor (mkTensor node_b 0); PTensor (mkTensor node_a 0);
                   PTensor (mkTensor node_b 1)] in
  let tl := [mkTensor node_b 0; mkTensor node_a 0; mkTensor node_b 1] in
  ((forall x y, x ∈ tl -> y ∈ tl ->
                node_graph (tensor_node x) = node_graph (tensor_node y)) ->
     get_generating_ops empty_store (fun _ => []) (NotGraph ts)
     = Return (map (fun t => PNode (tensor_node t)) tl))
  /\ ((exists x y, x ∈ tl /\ y ∈ tl
                   /\ node_graph (tensor_node x) <> node_graph (tensor_node y)) ->
        get_generating_ops empty_store (fun _ => []) (NotGraph ts) = Raise ValueError)
  /\ (forall g, get_generating_ops empty_store (fun _ => []) (IsGraph g)
                = Raise TypeError).
Proof.
  apply (get_generating_ops_spec empty_store (fun _ => [])
           (PList [PTensor (mkTensor node_b 0); PTensor (mkTensor node_a 0);
                   PTensor (mkTensor node_b 1)])
           [mkTensor node_b 0; mkTensor node_a 0; mkTensor node_b 1]).
  reflexivity.
Defined.

Lemma node_in_spec op ops :
  node_in op ops = true <-> node_ident op ∈ map node_ident ops.
Proof.
  unfold node_in. rewrite existsb_exists, list_elem_of_In, in_map_iff.
  split; intros (o & H1 & H2); exists o.
  - apply Nat.eqb_eq in H2. by split.
  - split; [done|]. by apply Nat.eqb_eq.
Qed.

(** The inner loop of [get_consuming_ops]: the consumers [cs] of one
    Tensor are added to [ops], each Node once. *)
Lemma add_consumers cs : forall ops,
  let ops' := fold_left (fun ops op => if negb (node_in op ops) then ops ++ [op]
                                       else ops) cs ops in
  (NoDup (map node_ident ops) -> NoDup (map node_ident ops'))
  /\ (forall i, i ∈ map node_ident ops'
                <-> i ∈ map node_ident ops \/ i ∈ map node_ident cs)
  /\ (forall op, op ∈ ops' -> op ∈ ops \/ op ∈ cs).
Proof.
  induction cs as [|c cs IH]; intros ops; cbv zeta.
  - cbn. split; [done|]. split; [|by left]. intros i. rewrite elem_of_nil. tauto.
  - cbn [fold_left]. destruct (IH (if negb (node_in c ops) then ops ++ [c] else ops))
      as (Hnd & Hid & Hel). cbv zeta in Hnd, Hid, Hel.
    destruct (node_in c ops) eqn:E; cbn [negb] in *.
    + apply node_in_spec in E. split; [done|]. split.
      * intros i. rewrite Hid. cbn [map]. rewrite elem_of_cons.
        split; [tauto|]. intros [?|[->|?]]; tauto.
      * intros op Hop. destruct (Hel op Hop); [by left|right].
        apply elem_of_cons. by right.
    + assert (Hc : node_ident c ∉ map node_ident ops).
      { intros Hin%node_in_spec. congruence. }
      split; [|split].
      * intros Hops. apply Hnd. rewrite map_app. apply NoDup_app.
        split; [done|]. split; [|apply NoDup_singleton].
        intros x Hx Hx'%list_elem_of_singleton. by subst.
      * intros i. rewrite Hid, map_app, elem_of_app. cbn [map].
        rewrite list_elem_of_singleton, elem_of_cons. tauto.
      * intros op Hop. destruct (Hel op Hop) as [Hop'|Hop'].
        -- apply elem_of_app in Hop' as [?|Hop'%list_elem_of_singleton]; [by left|right].
           subst op. apply elem_of_cons. by left.
        -- right. apply elem_of_cons. by right.
Qed.

(** The outer loop, over the Tensors. *)
Lemma consuming_loop (consumers : Tensor -> list Node) tl : forall ops,
  exists ops',
    for_each (fun t ops =>
                t_consumers ← getattr_consumers consumers t;
                Return (fold_left (fun ops op => if negb (node_in op ops) then ops ++ [op]
                                                 else ops)
                                  t_consumers ops))
             (map PTensor tl) ops = Return ops'
    /\ (NoDup (map node_ident ops) -> NoDup (map node_ident ops'))
    /\ (forall i, i ∈ map node_ident ops'
                  <-> i ∈ map node_ident ops
                      \/ exists t, t ∈ tl /\ i ∈ map node_ident (consumers t))
    /\ (forall op, op ∈ ops' -> op ∈ ops \/ exists t, t ∈ tl /\ op ∈ consumers t).
Proof.
  induction tl as [|t tl IH]; intros ops.
  - exists ops. split; [done|]. split; [done|]. split; [|by left].
    intros i. split; [by left|]. intros [?|(t & []%elem_of_nil & _)]. done.
  - cbn [map for_each getattr_consumers].
    change (Return ?a ≫= ?k) with (k a). cbv beta.
    change (Return ?a ≫= ?k) with (k a). cbv beta.
    destruct (add_consumers (consumers t) ops) as (Hnd & Hid & Hel).
    cbv zeta in Hnd, Hid, Hel.
    destruct (IH (fold_left (fun ops op => if negb (node_in op ops) then ops ++ [op]
                                           else ops) (consumers t) ops))
      as (ops' & -> & Hnd' & Hid' & Hel').
    exists ops'. split; [done|]. split; [auto|]. split.
    + intros i. rewrite Hid', Hid. split.
      * intros [[?|?]|(t' & Ht' & Hi)]; [by left| |].
        -- right. exists t. split; [apply elem_of_cons; by left|done].
        -- right. exists t'. split; [apply elem_of_cons; by right|done].
      * intros [?|(t' & [->|Ht']%elem_of_cons & Hi)]; [tauto|tauto|].
        right. by exists t'.
    + intros op Hop. destruct (Hel' op Hop) as [Hop'|(t' & Ht' & Hop')].
      * destruct (Hel op Hop'); [by left|right]. exists t.
        split; [apply elem_of_cons; by left|done].
      * right. exists t'. split; [apply elem_of_cons; by right|done].
Qed.

(** [get_consuming_ops] on Tensors of one Graph (a sequence of them, or a
    single one): the result lists the consumers of the Tensors, every
    Node once however many of the Tensors it consumes, and nothing
    else. *)
Theorem get_consuming_ops_spec st tensors consumers ts tl :
  as_items st ts = map PTensor tl ->
  (forall x y, x ∈ tl -> y ∈ tl ->
               node_graph (tensor_node x) = node_graph (tensor_node y)) ->
  exists ops,
    get_consuming_ops st tensors consumers (NotGraph ts) = Return ops
    /\ NoDup (map node_ident ops)
    /\ (forall i, i ∈ map node_ident ops
                  <-> exists t, t ∈ tl /\ i ∈ map node_ident (consumers t))
    /\ (forall op, op ∈ ops -> exists t, t ∈ tl /\ op ∈ consumers t).
Proof.
  intros Hitems Hsame. unfold get_consuming_ops.
  rewrite (make_list_of_t_tensors _ _ _ _ Hitems).
  destruct (consuming_loop consumers tl []) as (ops & Hloop & Hnd & Hid & Hel).
  exists ops. split; [|split; [|split]].
  - destruct tl as [|t rest]; [exact Hloop|].
    rewrite tensors_same_graph by done. exact Hloop.
  - apply Hnd. constructor.
  - intros i. rewrite Hid. cbn. rewrite elem_of_nil. tauto.
  - intros op Hop. destruct (Hel op Hop) as [[]%elem_of_nil|?]. done.
Qed.

Lemma get_consuming_ops_spec_witness :
  let consumers (t : Tensor) :=
    if Nat.eqb (value_index t) 0 then [node_b; node_a; node_b] else [node_a] in
  let ts := PList [PTensor (mkTensor node_a 0); PTensor (mkTensor node_a 1)] in
  let tl := [mkTensor node_a 0; mkTensor node_a 1] in
  get_consuming_ops empty_store (fun _ => []) consumers (NotGraph ts)
  = Return [node_b; node_a]
  /\ exists ops,
       get_consuming_ops empty_store (fun _ => []) consumers (NotGraph ts) = Return ops
       /\ NoDup (map node_ident ops)
       /\ (forall i, i ∈ map node_ident ops
                     <-> exists t, t ∈ tl /\ i ∈ map node_ident (consumers t))
       /\ (forall op, op ∈ ops -> exists t, t ∈ tl /\ op ∈ consumers t).
Proof.
  cbv zeta. split; [reflexivity|].
  apply (get_consuming_ops_spec empty_store (fun _ => [])
           (fun t => if Nat.eqb (value_index t) 0 then [node_b; node_a; node_b]
                     else [node_a])
           (PList [PTensor (mkTensor node_a 0); PTensor (mkTensor node_a 1)])
           [mkTensor node_a 0; mkTensor node_a 1]).
  - reflexivity.
  - intros x y Hx Hy.
    apply elem_of_cons in Hx as [->|Hx%list_elem_of_singleton];
      apply elem_of_cons in Hy as [->|Hy%list_elem_of_singleton]; by subst.
Defined.

(** ** [ControlOutputs] *)

Lemma record_control_output_lookup d ci i k :
  default [] (record_control_output d ci i !! k) =
  if bool_decide (k = ci) then add_unique (default [] (d !! ci)) i
  else default [] (d !! k).
Proof.
  unfold record_control_output, add_unique.
  destruct (d !! ci) as [l|] eqn:E.
  - rewrite (bool_decide_true (is_Some (Some l))) by (by eexists).
    rewrite E. cbn [default id].
    destruct (bool_decide (i ∈ l)).
    + case_bool_decide; [by subst; rewrite E|reflexivity].
    + rewrite lookup_insert. case_bool_decide; subst.
      * by rewrite decide_True.
      * by rewrite decide_False.
  - rewrite (bool_decide_false (is_Some None)) by (intros [? ?]; discriminate).
    rewrite lookup_insert_eq. cbn [default id].
    rewrite (bool_decide_false (i ∈ [])) by (apply not_elem_of_nil).
    rewrite lookup_insert. case_bool_decide; subst.
    + by rewrite decide_True.
    + rewrite decide_False by done. by rewrite lookup_insert_ne.
Qed.

Lemma record_control_output_no_empty d ci i :
  no_empty_entry d -> no_empty_entry (record_control_output d ci i).
Proof.
  intros Hd k l. unfold record_control_output.
  destruct (d !! ci) as [l0|] eqn:E.
  - rewrite (bool_decide_true (is_Some (Some l0))) by (by eexists).
    rewrite E. cbn [default id].
    destruct (bool_decide (i ∈ l0)); [apply Hd|].
    rewrite lookup_insert. destruct (decide (ci = k)); [|apply Hd].
    intros [= <-]. by destruct l0.
  - rewrite (bool_decide_false (is_Some None)) by (intros [? ?]; discriminate).
    rewrite lookup_insert_eq. cbn [default id].
    rewrite (bool_decide_false (i ∈ [])) by (apply not_elem_of_nil).
    rewrite lookup_insert. destruct (decide (ci = k)); [by intros [= <-]|].
    rewrite lookup_insert_ne by done. apply Hd.
Qed.

Lemma add_unique_idem l i : add_unique (add_unique l i) i = add_unique l i.
Proof.
  unfold add_unique. destruct (bool_decide (i ∈ l)) eqn:E; [by rewrite E|].
  rewrite bool_decide_true; [reflexivity|]. apply elem_of_app. right.
  apply elem_of_cons. by left.
Qed.

(** The inner loop of [_build], for the Node [i] with control inputs
    [cis]. *)
Lemma record_all_lookup cis i : forall d k,
  default [] (fold_left (fun d ci => record_control_output d ci i) cis d !! k) =
  if bool_decide (k ∈ cis) then add_unique (default [] (d !! k)) i
  else default [] (d !! k).
Proof.
  induction cis as [|ci cis IH]; intros d k; [reflexivity|].
  cbn [fold_left]. rewrite IH, record_control_output_lookup.
  destruct (decide (k = ci)) as [->|Hne].
  - rewrite (bool_decide_true (ci = ci)) by done.
    rewrite (bool_decide_true (ci ∈ ci :: cis)) by (apply elem_of_cons; by left).
    destruct (bool_decide (ci ∈ cis)); [apply add_unique_idem|reflexivity].
  - rewrite (bool_decide_false (k = ci)) by done.
    destruct (decide (k ∈ cis)) as [Hin|Hnin].
    + rewrite !bool_decide_true; [reflexivity| |done]. apply elem_of_cons. by right.
    + rewrite !bool_decide_false; [reflexivity| |done].
      intros [?|?]%elem_of_cons; done.
Qed.

Lemma record_all_no_empty cis i : forall d,
  no_empty_entry d ->
  no_empty_entry (fold_left (fun d ci => record_control_output d ci i) cis d).
Proof.
  induction cis as [|ci cis IH]; intros d Hd; [exact Hd|].
  cbn [fold_left]. apply IH. by apply record_control_output_no_empty.
Qed.

(** The outer loop of [_build]: the list kept for [k] grows by the Nodes
    that list [k], each once. *)
Lemma build_lookup ns k : forall d,
  default []
    (fold_left (fun d node =>
                  fold_left (fun d ci => record_control_output d ci (node_ident node))
                            (control_inputs node) d) ns d !! k) =
  fold_left (fun l m => if bool_decide (k ∈ control_inputs m)
                        then add_unique l (node_ident m) else l)
            ns (default [] (d !! k)).
Proof.
  induction ns as [|m ns IH]; intros d; [reflexivity|].
  cbn [fold_left]. by rewrite IH, record_all_lookup.
Qed.

Lemma build_no_empty ns : forall d,
  no_empty_entry d ->
  no_empty_entry
    (fold_left (fun d node =>
                  fold_left (fun d ci => record_control_output d ci (node_ident node))
                            (control_inputs node) d) ns d).
Proof.
  induction ns as [|m ns IH]; intros d Hd; [exact Hd|].
  cbn [fold_left]. apply IH. by apply record_all_no_empty.
Qed.

(** On Nodes of distinct identity nothing is skipped: the list is the
    filtered list of Nodes. *)
Lemma collect_outputs_NoDup ns k : forall l,
  NoDup (l ++ map node_ident ns) ->
  fold_left (fun l m => if bool_decide (k ∈ control_inputs m)
                        then add_unique l (node_ident m) else l) ns l =
  l ++ map node_ident (List.filter (fun m => bool_decide (k ∈ control_inputs m)) ns).
Proof.
  induction ns as [|m ns IH]; intros l Hnd; [cbn; by rewrite app_nil_r|].
  cbn [fold_left List.filter map] in *.
  assert (Hm : node_ident m ∉ l).
  { apply NoDup_app in Hnd as (_ & Hd & _). intros Hin. apply (Hd _ Hin).
    apply elem_of_cons. by left. }
  destruct (bool_decide (k ∈ control_inputs m)).
  - unfold add_unique. rewrite bool_decide_false by done.
    rewrite IH; [by rewrite <- app_assoc|]. by rewrite <- app_assoc.
  - apply IH. apply NoDup_app in Hnd as (Hl & Hd & Hns).
    apply NoDup_cons in Hns as [_ Hns]. apply NoDup_app. repeat split; [done| |done].
    intros x Hx Hx'. apply (Hd x Hx). apply elem_of_cons. by right.
Qed.

Lemma seq_items_get co n :
  seq_items (get co n) = default [] (_control_outputs co !! node_ident n).
Proof. unfold get. by destruct (_ !! _). Qed.

Lemma NoDup_map_filter {A B} (f : A -> B) (p : A -> bool) xs :
  NoDup (map f xs) -> NoDup (map f (List.filter p xs)).
Proof.
  induction xs as [|x xs IH]; intros Hnd; [constructor|].
  cbn [map List.filter] in *. apply NoDup_cons in Hnd as [Hx Hnd].
  destruct (p x); [|by apply IH]. cbn [map]. apply NoDup_cons. split; [|by apply IH].
  intros Hin. apply Hx. apply list_elem_of_In in Hin. apply list_elem_of_In.
  apply in_map_iff in Hin as (y & Hy & Hin). apply in_map_iff. exists y.
  split; [exact Hy|]. by apply filter_In in Hin as [Hin _].
Qed.

(** After [_build] on a Graph whose Nodes are distinct, the stored list
    for [k] is the list of the Nodes that have [k] as a control input. *)
Lemma build_control_outputs self g k :
  NoDup (map node_ident (nodes g)) ->
  default [] (_control_outputs (_build self g) !! k) = control_outputs_of g k.
Proof.
  intros Hnd. unfold _build. cbn [_control_outputs].
  rewrite build_lookup, lookup_empty. cbn [default].
  by rewrite collect_outputs_NoDup.
Qed.

Lemma build_no_empty_entry self g : no_empty_entry (_control_outputs (_build self g)).
Proof.
  unfold _build. cbn [_control_outputs]. apply build_no_empty.
  intros k l H. by rewrite lookup_empty in H.
Qed.

Lemma control_outputs_of_elem g k m :
  m ∈ control_outputs_of g k <->
  exists node, node ∈ nodes g /\ node_ident node = m /\ k ∈ control_inputs node.
Proof.
  unfold control_outputs_of. rewrite list_elem_of_In, in_map_iff. split.
  - intros (node & Hid & Hin). apply filter_In in Hin as [Hin Hk].
    apply bool_decide_eq_true in Hk. exists node. by rewrite list_elem_of_In.
  - intros (node & Hin & Hid & Hk). exists node. split; [exact Hid|].
    apply filter_In. split; [by apply list_elem_of_In|by apply bool_decide_eq_true].
Qed.

(** C5.  For every Graph [g] (its Nodes distinct objects) and Node [n],
    once the index is built or rebuilt: [get n] lists exactly the Nodes of
    [g] whose control inputs contain [n], in the order of the scan of
    [g.nodes] and without duplicates, and it is the empty sequence when
    no Node of [g] has [n] as a control input. *)
Theorem control_outputs_get self g (n : Node) :
  NoDup (map node_ident (nodes g)) ->
  let co := _build self g in
  seq_items (get co n) = control_outputs_of g (node_ident n)
  /\ NoDup (seq_items (get co n))
  /\ (forall m, m ∈ seq_items (get co n) <->
        exists node, node ∈ nodes g /\ node_ident node = m
                     /\ node_ident n ∈ control_inputs node)
  /\ ((forall node, node ∈ nodes g -> node_ident n ∉ control_inputs node) ->
        get co n = EmptyTuple)
  /\ _version co = Some (version g).
Proof.
  intros Hnd co.
  assert (Hget : seq_items (get co n) = control_outputs_of g (node_ident n)).
  { rewrite seq_items_get. by apply build_control_outputs. }
  repeat split.
  - exact Hget.
  - rewrite Hget. by apply NoDup_map_filter.
  - rewrite Hget. apply control_outputs_of_elem.
  - rewrite Hget. apply control_outputs_of_elem.
  - intros Hnone. unfold get.
    destruct (_control_outputs co !! node_ident n) as [l|] eqn:E; [|reflexivity].
    exfalso. pose proof (build_no_empty_entry self g _ _ E) as Hl.
    rewrite seq_items_get in Hget. fold co in Hget. rewrite E in Hget. cbn in Hget.
    destruct l as [|m l]; [done|].
    assert (Hm : m ∈ control_outputs_of g (node_ident n)).
    { rewrite <- Hget. apply elem_of_cons. by left. }
    apply control_outputs_of_elem in Hm as (node & Hin & _ & Hk).
    exact (Hnone node Hin Hk).
Qed.

Lemma sample_graph_NoDup : NoDup (map node_ident (nodes sample_graph)).
Proof.
  cbn. apply NoDup_cons. split; [|apply NoDup_singleton].
  intros H%list_elem_of_singleton. discriminate.
Qed.

Lemma control_outputs_get_witness :
  let co := _build (ControlOutputs_init sample_graph) sample_graph in
  seq_items (get co node_a) = control_outputs_of sample_graph (node_ident node_a)
  /\ NoDup (seq_items (get co node_a))
  /\ (forall m, m ∈ seq_items (get co node_a) <->
        exists node, node ∈ nodes sample_graph /\ node_ident node = m
                     /\ node_ident node_a ∈ control_inputs node)
  /\ ((forall node, node ∈ nodes sample_graph ->
         node_ident node_a ∉ control_inputs node) ->
        get co node_a = EmptyTuple)
  /\ _version co = Some (version sample_graph).
Proof.
  apply (control_outputs_get (ControlOutputs_init sample_graph) sample_graph node_a).
  exact sample_graph_NoDup.
Defined.

Lemma add_control_input_idents g c d :
  map node_ident (nodes (add_control_input g c d)) = map node_ident (nodes g).
Proof.
  unfold add_control_input. cbn [nodes]. rewrite map_map. apply map_ext.
  intros n. by destruct (Nat.eqb (node_ident n) c).
Qed.

Lemma add_control_input_listed g c d :
  c ∈ map node_ident (nodes g) ->
  c ∈ control_outputs_of (add_control_input g c d) d.
Proof.
  intros Hc. apply list_elem_of_In, in_map_iff in Hc as (n & Hid & Hin).
  apply control_outputs_of_elem.
  exists {| node_ident := node_ident n; node_name := node_name n;
            node_graph := node_graph n; control_inputs := control_inputs n ++ [d] |}.
  split; [|split; [exact Hid|]].
  - unfold add_control_input. cbn [nodes]. apply list_elem_of_In, in_map_iff.
    exists n. split; [|exact Hin]. by rewrite Hid, Nat.eqb_refl.
  - cbn. apply elem_of_app. right. apply elem_of_cons. by left.
Qed.

(** [update] against a later state [g'] of the Graph, for an index built
    on the state [g]. *)
Lemma update_rebuilds g g' (d : Node) :
  NoDup (map node_ident (nodes g)) ->
  NoDup (map node_ident (nodes g')) ->
  version g' <> version g ->
  let co := ControlOutputs_init g in
  seq_items (get co d) = control_outputs_of g (node_ident d)
  /\ update co g' = _build co g'
  /\ seq_items (get (update co g') d) = control_outputs_of g' (node_ident d)
  /\ update (update co g') g' = update co g'
  /\ update co g = co.
Proof.
  intros Hnd Hnd' Hv co.
  assert (Hu : update co g' = _build co g').
  { unfold update. rewrite bool_decide_true; [reflexivity|].
    cbn [co ControlOutputs_init _build _version]. congruence. }
  repeat split; try done.
  - rewrite seq_items_get. by apply build_control_outputs.
  - rewrite Hu, seq_items_get. by apply build_control_outputs.
  - rewrite Hu. unfold update. rewrite bool_decide_false; [reflexivity|].
    cbn [_build _version]. by intros [].
  - unfold update. rewrite bool_decide_false; [reflexivity|].
    cbn [co ControlOutputs_init _build _version]. by intros [].
Qed.

(** C2, as the code has it.  [get] reads the stored index and nothing
    else: it does not compare versions and does not rebuild.  The refresh
    is [update], which the caller invokes: it compares the stored build
    version with the Graph's current one and rebuilds the whole index
    when they differ.  So for an index [co] built on a Graph in state [g]
    and any later state [g'] of that Graph with another version (its
    Nodes distinct objects): [get] on [co] still answers from the index
    of [g]; once [update] has been called, [get d] is the index of [g'],
    which holds [c] exactly for the Nodes [c] of [g'] that have [d] as a
    control input; a further [update] at the same version rebuilds
    nothing. *)
Theorem control_outputs_refresh g g' (d : Node) :
  NoDup (map node_ident (nodes g)) ->
  NoDup (map node_ident (nodes g')) ->
  version g' <> version g ->
  let co := ControlOutputs_init g in
  seq_items (get co d) = control_outputs_of g (node_ident d)
  /\ update co g' = _build co g'
  /\ seq_items (get (update co g') d) = control_outputs_of g' (node_ident d)
  /\ (forall c, c ∈ seq_items (get (update co g') d) <->
        exists node, node ∈ nodes g' /\ node_ident node = c
                     /\ node_ident d ∈ control_inputs node)
  /\ update (update co g') g' = update co g'
  /\ update co g = co.
Proof.
  intros Hnd Hnd' Hv co.
  destruct (update_rebuilds g g' d Hnd Hnd' Hv) as (H1 & H2 & H3 & H4 & H5).
  fold co in H1, H2, H3, H4, H5.
  split; [exact H1|]. split; [exact H2|]. split; [exact H3|].
  split; [|split; [exact H4|exact H5]].
  intros c. rewrite H3. apply control_outputs_of_elem.
Qed.

Lemma control_outputs_refresh_witness :
  let g' := add_control_input sample_graph (node_ident node_a) (node_ident node_b) in
  let co := ControlOutputs_init sample_graph in
  seq_items (get co node_b) = control_outputs_of sample_graph (node_ident node_b)
  /\ update co g' = _build co g'
  /\ seq_items (get (update co g') node_b) = control_outputs_of g' (node_ident node_b)
  /\ (forall c, c ∈ seq_items (get (update co g') node_b) <->
        exists node, node ∈ nodes g' /\ node_ident node = c
                     /\ node_ident node_b ∈ control_inputs node)
  /\ update (update co g') g' = update co g'
  /\ update co sample_graph = co.
Proof.
  apply (control_outputs_refresh sample_graph
           (add_control_input sample_graph (node_ident node_a) (node_ident node_b))
           node_b).
  - exact sample_graph_NoDup.
  - rewrite add_control_input_idents. exact sample_graph_NoDup.
  - cbn. lia.
Defined.

(** The refresh after a control edge [d -> c] was added: the version has
    advanced, [update] rebuilds, and [get d] then contains [c]. *)
Lemma control_outputs_refresh_add_edge g c (d : Node) :
  NoDup (map node_ident (nodes g)) ->
  c ∈ map node_ident (nodes g) ->
  let co := ControlOutputs_init g in
  let g' := add_control_input g c (node_ident d) in
  version g' <> version g
  /\ seq_items (get co d) = control_outputs_of g (node_ident d)
  /\ c ∈ seq_items (get (update co g') d).
Proof.
  intros Hnd Hc co g'.
  assert (Hv : version g' <> version g) by (cbn; lia).
  assert (Hnd' : NoDup (map node_ident (nodes g'))).
  { unfold g'. by rewrite add_control_input_idents. }
  destruct (update_rebuilds g g' d Hnd Hnd' Hv) as (H1 & _ & H3 & _).
  split; [exact Hv|]. split; [exact H1|].
  fold co in H3. rewrite H3. by apply add_control_input_listed.
Qed.

(** C2 as stated fails: in [sample_graph] no Node has [node_b] as a
    control input; after the index is built, the edge [node_b -> node_a]
    is added and the version advances, yet the next [get node_b] is still
    the empty tuple, although [node_a] now lists [node_b]. *)
Lemma control_outputs_refresh_counterexample :
  let co := ControlOutputs_init sample_graph in
  let g' := add_control_input sample_graph (node_ident node_a) (node_ident node_b) in
  version g' <> version sample_graph
  /\ node_ident node_a ∈ control_outputs_of g' (node_ident node_b)
  /\ get co node_b = EmptyTuple
  /\ node_ident node_a ∉ seq_items (get co node_b).
Proof.
  cbv zeta. split; [by vm_compute|]. split; [|split].
  - apply add_control_input_listed. apply elem_of_cons. by left.
  - by vm_compute.
  - assert (get (ControlOutputs_init sample_graph) node_b = EmptyTuple) as ->
      by (by vm_compute).
    apply not_elem_of_nil.
Qed.

(** The whole index.  After a build on a Graph whose Nodes are distinct
    objects, the keys of [get_all()] are exactly the Nodes that some Node
    of the Graph has as a control input (members of the Graph or not);
    the list stored for a key is never empty, has no duplicates and is the
    list [get] returns for that key; a Node that is no key gets the empty
    tuple from [get]. *)
Theorem get_all_index self g :
  NoDup (map node_ident (nodes g)) ->
  let co := _build self g in
  (forall k, is_Some (get_all co !! k)
             <-> exists node, node ∈ nodes g /\ k ∈ control_inputs node)
  /\ (forall k l, get_all co !! k = Some l ->
        l = control_outputs_of g k /\ l <> [] /\ NoDup l)
  /\ (forall n : Node,
        get co n = match get_all co !! node_ident n with
                   | Some l => NodeList l
                   | None => EmptyTuple
                   end).
Proof.
  intros Hnd co.
  assert (Hl : forall k l, get_all co !! k = Some l ->
                 l = control_outputs_of g k /\ l <> [] /\ NoDup l).
  { intros k l Hk. pose proof (build_control_outputs self g k Hnd) as Hb.
    fold co in Hb. unfold get_all in Hk. rewrite Hk in Hb. cbn in Hb. subst l.
    split; [done|]. split.
    - exact (build_no_empty_entry self g k _ Hk).
    - by apply NoDup_map_filter. }
  split; [|split; [exact Hl|done]].
  intros k. split.
  - intros [l Hk]. destruct (Hl k l Hk) as (-> & Hne & _).
    destruct (control_outputs_of g k) as [|m l'] eqn:E; [done|].
    assert (Hm : m ∈ control_outputs_of g k) by (rewrite E; apply elem_of_cons; by left).
    apply control_outputs_of_elem in Hm as (node & Hin & _ & Hc). by exists node.
  - intros (node & Hin & Hc).
    assert (Hm : node_ident node ∈ control_outputs_of g k).
    { apply control_outputs_of_elem. by exists node. }
    pose proof (build_control_outputs self g k Hnd) as Hb. fold co in Hb.
    unfold get_all. destruct (_control_outputs co !! k) as [l|]; [by eexists|].
    cbn in Hb. rewrite <- Hb in Hm. by apply elem_of_nil in Hm.
Qed.

Lemma get_all_index_witness :
  let co := _build (ControlOutputs_init sample_graph) sample_graph in
  (forall k, is_Some (get_all co !! k)
             <-> exists node, node ∈ nodes sample_graph /\ k ∈ control_inputs node)
  /\ (forall k l, get_all co !! k = Some l ->
        l = control_outputs_of sample_graph k /\ l <> [] /\ NoDup l)
  /\ (forall n : Node,
        get co n = match get_all co !! node_ident n with
                   | Some l => NodeList l
                   | None => EmptyTuple
                   end).
Proof.
  apply (get_all_index (ControlOutputs_init sample_graph) sample_graph).
  exact sample_graph_NoDup.
Defined.

(** ** [find_corresponding_elem] *)

(** The lookup with an empty source scope: the name, under the finalized
    destination scope if there is one, is resolved as a Tensor or as a
    Node according to the target. *)
Lemma find_corresponding_elem_no_src_scope get_tensor_by_name getitem st dst_scope :
  (forall t, find_corresponding_elem get_tensor_by_name getitem st (PTensor t) dst_scope ""
             = get_tensor_by_name
                 ((if str_truthy dst_scope then scope_finalize dst_scope else "")
                  +:+ tensor_name t))
  /\ (forall n, find_corresponding_elem get_tensor_by_name getitem st (PNode n) dst_scope ""
                = getitem ((if str_truthy dst_scope then scope_finalize dst_scope else "")
                           +:+ node_name n)).
Proof. split; intros x; unfold find_corresponding_elem; by destruct dst_scope. Qed.

(** A string that is empty or ends with the delimiter is a finalized
    scope. *)
Lemma scope_finalize_slash s : scope_finalize (s +:+ "/") = s +:+ "/".
Proof.
  unfold scope_finalize. rewrite str_last_app_char.
  rewrite bool_decide_true by reflexivity. by rewrite andb_false_r.
Qed.

Lemma str_app_truthy a b : str_truthy b = true -> str_truthy (a +:+ b) = true.
Proof. destruct a; [done|reflexivity]. Qed.

Lemma str_last_app a b : b <> "" -> str_last (a +:+ b) = str_last b.
Proof.
  intros Hb. induction a as [|c a IH]; [reflexivity|].
  cbn [String.append]. cbn [str_last]. rewrite IH.
  destruct (a +:+ b) eqn:E; [|reflexivity].
  destruct a; cbn [String.append] in E; [by subst b|discriminate].
Qed.

(** Finalized scopes compose: the scope [a] under the scope [d]. *)
Lemma scope_finalize_under d a :
  scope_finalize (scope_finalize d +:+ a) = scope_finalize d +:+ scope_finalize a.
Proof.
  destruct a as [|c a].
  - rewrite !str_app_empty_r.
    destruct (scope_finalize_shape d) as [->|[x ->]]; [reflexivity|].
    apply scope_finalize_slash.
  - generalize (scope_finalize d). intros p. unfold scope_finalize.
    rewrite str_app_truthy by reflexivity.
    rewrite str_last_app by discriminate. cbn [str_truthy andb].
    destruct (bool_decide (str_last (String c a) = Some "/"%char)); cbn [negb];
      [reflexivity|]. by rewrite str_app_assoc.
Qed.

(** A name is a finalized scope, its dirname, followed by a part without
    delimiter, its basename. *)
Lemma scope_name_parts name :
  exists d b, name = d +:+ b /\ scope_finalize d = d /\ no_slash b
              /\ scope_dirname name = d /\ scope_basename name = b.
Proof.
  unfold scope_dirname, scope_basename. pose proof (str_rfind_lower name) as Hl.
  destruct (Z.eqb_spec (str_rfind name "/") (-1)) as [E|E].
  - exists "", name. by repeat split.
  - destruct (str_rfind_split name) as (a & b & Hs & Hlen & Hb); [lia|].
    exists (a +:+ "/"), b. rewrite <- Hlen.
    replace (str_len a + 1) with (str_len (a +:+ "/"))
      by (rewrite str_len_app; reflexivity).
    split; [exact Hs|]. split; [apply scope_finalize_slash|]. split; [exact Hb|].
    rewrite Hs. by rewrite slice_to_app, slice_from_app.
Qed.

(** The name [find_corresponding_elem] looks up for an empty source
    scope. *)
Lemma find_corresponding_elem_dst_name dst_scope src_name :
  (if str_truthy dst_scope then scope_finalize dst_scope +:+ src_name else src_name)
  = scope_finalize dst_scope +:+ src_name.
Proof. by destruct dst_scope. Qed.

(** The destination name, for an empty source scope.  It makes no
    difference to [find_corresponding_elem], whatever the target, whether
    [dst_scope] is given with its final ["/"] or without.  For a Node the
    name looked up in the destination Graph has the basename of the
    Node's name, and for dirname the finalized [dst_scope] followed by
    the dirname of the Node's name.  Destination scopes compose: for a
    Node named as another Node under a scope [a], the lookup under
    [dst_scope] is the lookup of the other Node under [dst_scope/a]. *)
Theorem find_corresponding_elem_dst_scope get_tensor_by_name getitem st dst_scope :
  (forall target,
     find_corresponding_elem get_tensor_by_name getitem st target
       (scope_finalize dst_scope) ""
     = find_corresponding_elem get_tensor_by_name getitem st target dst_scope "")
  /\ (forall n, exists name,
        find_corresponding_elem get_tensor_by_name getitem st (PNode n) dst_scope ""
        = getitem name
        /\ scope_basename name = scope_basename (node_name n)
        /\ scope_dirname name
           = scope_finalize dst_scope +:+ scope_dirname (node_name n))
  /\ (forall n n' a,
        node_name n' = scope_finalize a +:+ node_name n ->
        find_corresponding_elem get_tensor_by_name getitem st (PNode n') dst_scope ""
        = find_corresponding_elem get_tensor_by_name getitem st (PNode n)
            (scope_finalize dst_scope +:+ a) "").
Proof.
  assert (Hfix : scope_finalize (scope_finalize dst_scope) = scope_finalize dst_scope).
  { destruct (scope_finalize_shape dst_scope) as [->|[a ->]]; [reflexivity|].
    apply scope_finalize_slash. }
  split; [|split].
  - intros target. unfold find_corresponding_elem.
    destruct (getattr_name target) as [src_name|e]; [|reflexivity].
    cbn [str_truthy mbind outcome_bind]. cbv zeta.
    by rewrite !find_corresponding_elem_dst_name, Hfix.
  - intros n. exists (scope_finalize dst_scope +:+ node_name n).
    split; [|split].
    + destruct (find_corresponding_elem_no_src_scope get_tensor_by_name getitem st
                  dst_scope) as [_ Hn].
      rewrite Hn. by destruct dst_scope.
    + destruct (scope_name_parts (node_name n)) as (d & b & -> & Hd & Hb & _ & ->).
      rewrite <- str_app_assoc, <- Hd, <- scope_finalize_under.
      by apply scope_basename_under.
    + destruct (scope_name_parts (node_name n)) as (d & b & -> & Hd & Hb & -> & _).
      rewrite <- str_app_assoc. rewrite <- Hd at 1. rewrite <- scope_finalize_under.
      rewrite scope_dirname_under by done. by rewrite scope_finalize_under, Hd.
  - intros n n' a Hname.
    destruct (find_corresponding_elem_no_src_scope get_tensor_by_name getitem st
                dst_scope) as [_ Hn].
    destruct (find_corresponding_elem_no_src_scope get_tensor_by_name getitem st
                (scope_finalize dst_scope +:+ a)) as [_ Hn'].
    assert (Hp : forall d, (if str_truthy d then scope_finalize d else "")
                           = scope_finalize d) by (by intros []).
    rewrite Hn, Hn', Hname, !Hp, scope_finalize_under. by rewrite str_app_assoc.
Qed.

Example find_corresponding_elem_dst_scope_example :
  let getitem name := if String.eqb name "x/y/scope/a" then Return (PNode node_other)
                      else Raise KeyError in
  find_corresponding_elem (fun _ => Raise KeyError) getitem empty_store
    (PNode node_a) "x/y" "" = Return (PNode node_other)
  /\ find_corresponding_elem (fun _ => Raise KeyError) getitem empty_store
       (PNode node_a) "x/y/" "" = Return (PNode node_other)
  /\ find_corresponding_elem (fun _ => Raise KeyError) getitem empty_store
       (PInt 1) "x/y" "" = Raise AttributeError.
Proof. repeat split. Qed.

(** C3: what the code does.  With a non-empty source scope the prefix
    test is written [src_name.startswidth(src_scope)]; [str] has no such
    attribute, so for every Node or Tensor, every destination and every
    non-empty source scope the call raises [AttributeError]: it raises no
    [ValueError] on a mismatch and resolves nothing on a match. *)
Theorem find_corresponding_elem_src_scope get_tensor_by_name getitem st dst_scope c s :
  (forall n, find_corresponding_elem get_tensor_by_name getitem st (PNode n)
               dst_scope (String c s) = Raise AttributeError)
  /\ (forall t, find_corresponding_elem get_tensor_by_name getitem st (PTensor t)
                  dst_scope (String c s) = Raise AttributeError).
Proof. split; reflexivity. Qed.

(** The failing input of C3: the Node ["scope/a"] looked up with source
    scope ["scope"] in a destination that has a Node ["a"]. *)
Example find_corresponding_elem_failing_input :
  let getitem name := if String.eqb name "a" then Return (PNode node_other)
                      else Raise KeyError in
  startswith (node_name node_a) (scope_finalize "scope") = true
  /\ getitem (slice_from (node_name node_a) (str_len (scope_finalize "scope")))
     = Return (PNode node_other)
  /\ find_corresponding_elem (fun _ => Raise KeyError) getitem empty_store
       (PNode node_a) "" "scope" = Raise AttributeError.
Proof. repeat split. Qed.

(** ** [find_corresponding] *)

(** With an [fn] that always returns, the walk is [transform_tree]. *)
Lemma transform_tree_raising_pure st fn : forall limit t it,
  transform_tree_raising limit st t (fun x => Return (fn x)) it
  = transform_tree limit st t fn it.
Proof.
  induction limit as [|n IH]; intros t it; [reflexivity|].
  rewrite transform_tree_raising_S, transform_tree_S. cbv beta zeta.
  assert (Hc : forall xs,
            collect (fun c => transform_tree_raising n st c (fun x => Return (fn x))
                                ctor_tuple) xs
            = collect (fun c => transform_tree n st c fn ctor_tuple) xs).
  { intros xs. apply collect_ext. intros x. apply IH. }
  assert (Hd : forall fs : list (string * pyobj),
            collect (fun kv => c ← transform_tree_raising n st kv.2
                                     (fun x => Return (fn x)) ctor_tuple;
                               Return (kv.1, c)) fs
            = collect (fun kv => c ← transform_tree n st kv.2 fn ctor_tuple;
                                 Return (kv.1, c)) fs).
  { intros fs. apply collect_ext. intros x. by rewrite IH. }
  destruct t; try (by rewrite Hc); try (by rewrite Hd); try reflexivity.
  - by rewrite IH.
  - destruct (st l); [by rewrite Hc|by rewrite Hd].
Qed.

Lemma elem_of_flat_map {A B} (f : A -> list B) xs y :
  y ∈ flat_map f xs <-> exists x, x ∈ xs /\ y ∈ f x.
Proof.
  rewrite list_elem_of_In, in_flat_map. split; intros (x & Hx & Hy); exists x.
  - by rewrite !list_elem_of_In.
  - by rewrite <- !list_elem_of_In.
Qed.

(** On a finite tree whose leaves [fn] all maps without raising, the walk
    rebuilds the tree around the results. *)
Lemma transform_tree_raising_nested st fn g limit : forall t it,
  nested_tree t = true -> (walk_depth t <= limit)%nat ->
  (forall x, x ∈ leaves_of t -> fn x = Return (g x)) ->
  transform_tree_raising limit st t fn it = Return (map_tree g t).
Proof.
  induction limit as [|n IH]; intros t it Hn Hd Hfn.
  { pose proof (walk_depth_pos t). lia. }
  rewrite transform_tree_raising_S. cbv beta zeta.
  destruct t; try discriminate Hn;
    try (cbn [map_tree]; apply Hfn; apply elem_of_cons; by left);
    cbn [nested_tree] in Hn; cbn [walk_depth] in Hd; cbn [leaves_of] in Hfn.
  - (* list *)
    rewrite (collect_map _ (map_tree g)); [reflexivity|].
    intros x Hx. apply IH.
    + by apply (forallb_elem _ _ _ Hn).
    + pose proof (list_max_elem walk_depth x xs Hx). lia.
    + intros y Hy. apply Hfn. apply elem_of_flat_map. by exists x.
  - (* tuple *)
    rewrite (collect_map _ (map_tree g)); [reflexivity|].
    intros x Hx. apply IH.
    + by apply (forallb_elem _ _ _ Hn).
    + pose proof (list_max_elem walk_depth x xs Hx). lia.
    + intros y Hy. apply Hfn. apply elem_of_flat_map. by exists x.
  - (* named tuple *)
    rewrite (IH (PDict fields)); [|exact Hn|cbn [walk_depth]; lia|exact Hfn].
    cbn [map_tree]. apply andb_true_iff in Hn as [Hnd _].
    apply bool_decide_eq_true in Hnd.
    change (namedtuple_new cls (map fst fields)
              (map (fun kv => (kv.1, map_tree g kv.2)) fields) =
            Return (PNamedTuple cls (map (fun kv => (kv.1, map_tree g kv.2)) fields))).
    apply namedtuple_new_fields; [by rewrite map_fst_relabel|exact Hnd].
  - (* dict *)
    apply andb_true_iff in Hn as [Hnd Hn]. apply bool_decide_eq_true in Hnd.
    rewrite (collect_map _ (fun kv => (kv.1, map_tree g kv.2))).
    + cbn [map_tree]. change (Return (PDict (dict_of_pairs
                 (map (fun kv => (kv.1, map_tree g kv.2)) items))) =
              Return (PDict (map (fun kv => (kv.1, map_tree g kv.2)) items))).
      rewrite dict_of_pairs_NoDup; [reflexivity|by rewrite map_fst_relabel].
    + intros x Hx. rewrite IH; [reflexivity| | |].
      * by apply (forallb_elem _ _ _ Hn).
      * pose proof (list_max_elem (fun kv => walk_depth kv.2) x items Hx). cbn in H. lia.
      * intros y Hy. apply Hfn. apply elem_of_flat_map. by exists x.
Qed.

Lemma collect_app {A B} (f : A -> outcome B) xs ys :
  collect f (xs ++ ys)
  = (xs' ← collect f xs; ys' ← collect f ys; Return (xs' ++ ys')).
Proof.
  induction xs as [|x xs IH]; cbn [app collect].
  - cbn. by destruct (collect f ys).
  - destruct (f x) as [y|e]; [|reflexivity]. cbn. rewrite IH.
    destruct (collect f xs) as [xs'|e]; [|reflexivity]. cbn.
    by destruct (collect f ys).
Qed.

(** Items computed from parts: when the computation of an item raises
    what the loop over its part raises, and returns when that loop
    returns, the loop over the items raises what the loop over all the
    parts raises. *)
Lemma collect_flat_map_raises {A B C D} (T : A -> outcome B) (fn : C -> outcome D)
    (L : A -> list C) xs e :
  (forall c e', c ∈ xs -> collect fn (L c) = Raise e' -> T c = Raise e') ->
  (forall c ys, c ∈ xs -> collect fn (L c) = Return ys -> returns (T c)) ->
  collect fn (flat_map L xs) = Raise e -> collect T xs = Raise e.
Proof.
  induction xs as [|c xs IH]; intros Hr Hv H; [discriminate|].
  cbn [flat_map] in H. rewrite collect_app in H. cbn [collect].
  destruct (collect fn (L c)) as [ys|e'] eqn:E.
  - destruct (Hv c ys) as [y ->]; [apply elem_of_cons; by left|exact E|]. cbn.
    rewrite IH; [reflexivity| | |].
    + intros c' e'' Hc'. apply Hr. apply elem_of_cons. by right.
    + intros c' ys' Hc'. apply Hv. apply elem_of_cons. by right.
    + cbn in H. by destruct (collect fn (flat_map L xs)).
  - injection H as <-. rewrite (Hr c e'); [reflexivity| |exact E].
    apply elem_of_cons. by left.
Qed.

(** A loop that returns is a loop over items on which the function is a
    returning one. *)
Lemma collect_returns_fn {A} (fn : A -> outcome A) xs ys :
  collect fn xs = Return ys ->
  forall x, x ∈ xs ->
    fn x = Return (match fn x with Return y => y | Raise _ => x end).
Proof.
  intros H x Hx. destruct (collect_returns _ _ _ H x Hx) as [y ->]. reflexivity.
Qed.

(** On a finite tree the walk raises what [fn] raises on the first leaf,
    in the order of [flatten_tree], on which it raises. *)
Lemma transform_tree_raising_first st fn limit : forall t it e,
  nested_tree t = true -> (walk_depth t <= limit)%nat ->
  collect fn (leaves_of t) = Raise e ->
  transform_tree_raising limit st t fn it = Raise e.
Proof.
  induction limit as [|n IH]; intros t it e Hn Hd He.
  { pose proof (walk_depth_pos t). lia. }
  rewrite transform_tree_raising_S. cbv beta zeta.
  assert (Hleaf : forall x, collect fn [x] = Raise e -> fn x = Raise e).
  { intros x. cbn. destruct (fn x); [discriminate|by intros [= ->]]. }
  set (g := fun x => match fn x with Return y => y | Raise _ => x end).
  destruct t; try discriminate Hn; try (by apply Hleaf);
    cbn [nested_tree] in Hn; cbn [walk_depth] in Hd; cbn [leaves_of] in He.
  - (* list *)
    rewrite (collect_flat_map_raises _ fn leaves_of xs e); [reflexivity| | |exact He].
    + intros c e' Hc Hc'. apply IH; [by apply (forallb_elem _ _ _ Hn)| |exact Hc'].
      pose proof (list_max_elem walk_depth c xs Hc). lia.
    + intros c ys Hc Hc'. eexists. apply (transform_tree_raising_nested st fn g n).
      * by apply (forallb_elem _ _ _ Hn).
      * pose proof (list_max_elem walk_depth c xs Hc). lia.
      * exact (collect_returns_fn _ _ _ Hc').
  - (* tuple *)
    rewrite (collect_flat_map_raises _ fn leaves_of xs e); [reflexivity| | |exact He].
    + intros c e' Hc Hc'. apply IH; [by apply (forallb_elem _ _ _ Hn)| |exact Hc'].
      pose proof (list_max_elem walk_depth c xs Hc). lia.
    + intros c ys Hc Hc'. eexists. apply (transform_tree_raising_nested st fn g n).
      * by apply (forallb_elem _ _ _ Hn).
      * pose proof (list_max_elem walk_depth c xs Hc). lia.
      * exact (collect_returns_fn _ _ _ Hc').
  - (* named tuple *)
    rewrite (IH (PDict fields) ctor_tuple e);
      [reflexivity|exact Hn|cbn [walk_depth]; lia|exact He].
  - (* dict *)
    apply andb_true_iff in Hn as [Hnd Hn].
    rewrite (collect_flat_map_raises _ fn (fun kv => leaves_of kv.2) items e);
      [reflexivity| | |exact He].
    + intros c e' Hc Hc'. rewrite (IH c.2 ctor_tuple e'); [reflexivity| | |exact Hc'].
      * by apply (forallb_elem _ _ _ Hn).
      * pose proof (list_max_elem (fun kv => walk_depth kv.2) c items Hc). cbn in H. lia.
    + intros c ys Hc Hc'. eexists.
      rewrite (transform_tree_raising_nested st fn g n); [reflexivity| | |].
      * by apply (forallb_elem _ _ _ Hn).
      * pose proof (list_max_elem (fun kv => walk_depth kv.2) c items Hc). cbn in H. lia.
      * exact (collect_returns_fn _ _ _ Hc').
Qed.

(** [find_corresponding] on a finite tree of Nodes and Tensors, once the
    recursion limit covers the depth of the tree.  The leaves are looked
    up one by one in the order of [flatten_tree]: if a lookup raises, the
    whole call raises the exception of the first lookup that does, and if
    every lookup returns, the result is the tree of the same containers
    with every leaf replaced by what its lookup returned. *)
Theorem find_corresponding_leaves get_tensor_by_name getitem st targets
    dst_scope src_scope limit :
  nested_tree targets = true ->
  (walk_depth targets <= limit)%nat ->
  Forall (fun o => is_graph_element o = true) (leaves_of targets) ->
  let elem top :=
    find_corresponding_elem get_tensor_by_name getitem st top dst_scope src_scope in
  (forall e, collect elem (leaves_of targets) = Raise e ->
     find_corresponding limit get_tensor_by_name getitem st targets dst_scope src_scope
     = Raise e)
  /\ (forall g, (forall x, x ∈ leaves_of targets -> elem x = Return (g x)) ->
        find_corresponding limit get_tensor_by_name getitem st targets dst_scope
          src_scope
        = Return (map_tree g targets)).
Proof.
  intros Hn Hd _ elem. split.
  - intros e He. by apply transform_tree_raising_first.
  - intros g Hg. by apply transform_tree_raising_nested.
Qed.

Lemma find_corresponding_leaves_witness :
  let by_name name := Return (PTensor (mkTensor (mkNode 9 name 7 []) 0)) in
  let item name := Return (PNode (mkNode 9 name 7 [])) in
  let elem top := find_corresponding_elem by_name item empty_store top "dst" "" in
  nested_tree sample_tree = true
  /\ (forall e, collect elem (leaves_of sample_tree) = Raise e ->
        find_corresponding 6 by_name item empty_store sample_tree "dst" "" = Raise e)
  /\ (forall g, (forall x, x ∈ leaves_of sample_tree -> elem x = Return (g x)) ->
        find_corresponding 6 by_name item empty_store sample_tree "dst" ""
        = Return (map_tree g sample_tree)).
Proof.
  cbv zeta. split; [reflexivity|].
  apply (find_corresponding_leaves
           (fun name => Return (PTensor (mkTensor (mkNode 9 name 7 []) 0)))
           (fun name => Return (PNode (mkNode 9 name 7 [])))
           empty_store sample_tree "dst" "" 6).
  - reflexivity.
  - vm_compute. lia.
  - repeat constructor.
Defined.

(** The misspelt prefix test of [find_corresponding_elem] reaches every
    caller: with a non-empty source scope, [find_corresponding] raises
    [AttributeError] on every finite tree of Nodes and Tensors that has a
    leaf, whatever the names and the destination. *)
Theorem find_corresponding_src_scope get_tensor_by_name getitem st targets
    dst_scope c s limit :
  nested_tree targets = true ->
  (walk_depth targets <= limit)%nat ->
  Forall (fun o => is_graph_element o = true) (leaves_of targets) ->
  leaves_of targets <> [] ->
  find_corresponding limit get_tensor_by_name getitem st targets dst_scope (String c s)
  = Raise AttributeError.
Proof.
  intros Hn Hd Hel Hne. apply transform_tree_raising_first; [done|done|].
  destruct (leaves_of targets) as [|x rest]; [done|].
  apply Forall_cons in Hel as [Hx _].
  cbn [collect]. by destruct x.
Qed.

Lemma find_corresponding_src_scope_witness :
  nested_tree sample_tree = true
  /\ leaves_of sample_tree <> []
  /\ find_corresponding 6 (fun _ => Raise KeyError)
       (fun name => Return (PNode (mkNode 9 name 7 []))) empty_store sample_tree
       "" "scope"
     = Raise AttributeError.
Proof.
  split; [reflexivity|]. split; [discriminate|].
  apply (find_corresponding_src_scope (fun _ => Raise KeyError)
           (fun name => Return (PNode (mkNode 9 name 7 []))) empty_store sample_tree
           "" "s" "cope" 6).
  - reflexivity.
  - vm_compute. lia.
  - repeat constructor.
  - discriminate.
Defined.

(** A tree of two Nodes looked up under another scope, and the first
    failing lookup deciding the exception. *)
Example find_corresponding_example :
  let item name := if String.eqb name "dst/scope/a" then Return (PNode node_other)
                   else Raise KeyError in
  find_corresponding 3 (fun _ => Raise ValueError) item empty_store
    (PDict [("x", PTuple [PNode node_a])]) "dst" ""
  = Return (PDict [("x", PTuple [PNode node_other])])
  /\ find_corresponding 3 (fun _ => Raise ValueError) item empty_store
       (PList [PNode node_a; PNode node_b; PTensor (mkTensor node_a 0)]) "dst" ""
     = Raise KeyError.
Proof. by split. Qed.

(** ** The attribute-value codec *)

(** The strict decoder on sample bytes: two-, three- and four-byte
    characters pass; an overlong form, a surrogate, a value above
    U+10FFFF, a truncated character and a stray byte do not. *)
Example utf8_valid_examples :
  utf8_valid [Byte.xc3; Byte.xa9] = true
  /\ utf8_valid [Byte.xef; Byte.xbf; Byte.xbf] = true
  /\ utf8_valid [Byte.xf4; Byte.x8f; Byte.xbf; Byte.xbf] = true
  /\ utf8_valid (as_bytes "scope/a") = true
  /\ utf8_valid [Byte.xc0; Byte.x80] = false
  /\ utf8_valid [Byte.xe0; Byte.x80; Byte.x80] = false
  /\ utf8_valid [Byte.xed; Byte.xa0; Byte.x80] = false
  /\ utf8_valid [Byte.xf4; Byte.x90; Byte.x80; Byte.x80] = false
  /\ utf8_valid [Byte.xe2; Byte.x82] = false
  /\ utf8_valid [Byte.x80] = false
  /\ utf8_valid [Byte.xff] = false.
Proof. repeat split. Qed.

Section CodecProperties.
Context {TF : TensorFlow}.

Lemma fits_int64_bool b : in_int64 (Z.b2z b) = true.
Proof. by destruct b. Qed.

Lemma list_elem_variant list_value elem :
  if has_list_elem_variant elem && fits_int64 elem
  then returns (_python_type_to_attr_list_elem list_value elem)
  else _python_type_to_attr_list_elem list_value elem = Raise ValueError.
Proof.
  destruct elem as [s|i|f|b| | | | | | |]; cbn; unfold returns; eauto.
  - unfold fits_int64, int64_field. cbn. destruct (in_int64 i); cbn; eauto.
  - unfold fits_int64, int64_field. cbn. rewrite fits_int64_bool. cbn. eauto.
Qed.

(** The loop over the elements of a sequence. *)
Lemma list_elems_variant items : forall list_value,
  if forallb (fun x => has_list_elem_variant x && fits_int64 x) items
  then returns (for_each (fun elem list_value =>
                            _python_type_to_attr_list_elem list_value elem)
                         items list_value)
  else for_each (fun elem list_value =>
                   _python_type_to_attr_list_elem list_value elem)
                items list_value = Raise ValueError.
Proof.
  induction items as [|x items IH]; intros list_value; [by eexists|].
  cbn [forallb for_each]. pose proof (list_elem_variant list_value x) as Hx.
  destruct (has_list_elem_variant x && fits_int64 x); cbn [andb].
  - destruct Hx as [lv ->]. apply IH.
  - by rewrite Hx.
Qed.

(** The encoding of a sequence is a list-variant, or a [ValueError]. *)
Lemma python_type_to_attr_value_sequence items value :
  as_sequence value = Some items ->
  (exists list_value, python_type_to_attr_value value = Return (AV_list list_value))
  \/ python_type_to_attr_value value = Raise ValueError.
Proof.
  intros Hv. unfold python_type_to_attr_value. rewrite Hv.
  destruct (0 =? Z.of_nat (length items)); [left; by eexists|].
  pose proof (list_elems_variant items empty_ListValue) as H.
  destruct (forallb _ items).
  - destruct H as [lv ->]. left. by eexists.
  - rewrite H. by right.
Qed.

(** C1: what the code does on a sequence.  Whatever the elements, the
    encoding of a list or tuple is never decoded: either the encoder
    raises [ValueError] on an element without a variant (or on an integer
    that the [int64] field refuses), or it returns a list-variant, for
    which [attr_value_to_python_type] has no branch and raises
    [ValueError]. *)
Theorem roundtrip_sequence (xs : list pyvalue) :
  roundtrip (VList xs) = Raise ValueError
  /\ roundtrip (VTuple xs) = Raise ValueError.
Proof.
  split; unfold roundtrip.
  - destruct (python_type_to_attr_value_sequence xs (VList xs) eq_refl)
      as [[lv ->]| ->]; reflexivity.
  - destruct (python_type_to_attr_value_sequence xs (VTuple xs) eq_refl)
      as [[lv ->]| ->]; reflexivity.
Qed.

Lemma encodable_sequence value items :
  as_sequence value = Some items ->
  if forallb (fun x => has_list_elem_variant x && fits_int64 x) items
  then returns (python_type_to_attr_value value)
  else python_type_to_attr_value value = Raise ValueError.
Proof.
  intros Hv. unfold python_type_to_attr_value. rewrite Hv.
  destruct items as [|x items]; [by eexists|].
  change (0 =? Z.of_nat (length (x :: items))) with false. cbv iota.
  pose proof (list_elems_variant (x :: items) empty_ListValue) as H.
  destruct (forallb _ (x :: items)).
  - destruct H as [lv ->]. by eexists.
  - by rewrite H.
Qed.


End CodecProperties.


Section CodecSequences.
Context {TF : TensorFlow}.

(** The failing input of C1, step by step: the list [[1, 2]] is encoded
    into the list member, which is not decoded.  A boolean in a list goes
    to the integer field. *)
Example roundtrip_list_of_ints :
  python_type_to_attr_value (VList [VInt 1; VInt 2])
  = Return (AV_list (append_i (append_i empty_ListValue 1) 2))
  /\ attr_value_to_python_type (AV_list (append_i (append_i empty_ListValue 1) 2))
     = Raise ValueError
  /\ python_type_to_attr_value (VList []) = Return (AV_list empty_ListValue)
  /\ attr_value_to_python_type (AV_list empty_ListValue) = Raise ValueError
  /\ python_type_to_attr_value (VTuple [VBool true; VStr "x"])
     = Return (AV_list (append_s (append_i empty_ListValue 1) (as_bytes "x")))
  /\ python_type_to_attr_value (VList [VInt 1; VList []]) = Raise ValueError
  /\ python_type_to_attr_value (VList [VInt 1; VInt (2 ^ 63)]) = Raise ValueError.
Proof. repeat split. Qed.

Lemma ListValue_app_empty_r l : ListValue_app l empty_ListValue = l.
Proof. destruct l. unfold ListValue_app. cbn. by rewrite !app_nil_r. Qed.

Lemma ListValue_app_empty_l l : ListValue_app empty_ListValue l = l.
Proof. by destruct l. Qed.

(** The loop over the elements appends to each field the elements of its
    type. *)
Lemma encode_elems_fields items : forall list_value,
  for_each (fun elem list_value => _python_type_to_attr_list_elem list_value elem)
           items list_value
  = if forallb (fun x => has_list_elem_variant x && fits_int64 x) items
    then Return (ListValue_app list_value (sequence_fields items))
    else Raise ValueError.
Proof.
  induction items as [|x items IH]; intros list_value.
  - cbn. by rewrite ListValue_app_empty_r.
  - cbn [for_each forallb].
    assert (Hstep : forall lv, (for_each (fun elem list_value =>
                                  _python_type_to_attr_list_elem list_value elem)
                                  items lv
              = if forallb (fun x => has_list_elem_variant x && fits_int64 x) items
                then Return (ListValue_app lv (sequence_fields items))
                else Raise ValueError)) by exact IH.
    destruct x as [s|i|f|b|d|sh|a|xs|xs|a|];
      cbn [_python_type_to_attr_list_elem has_list_elem_variant andb
           as_str_value as_int_value as_float_value as_bool_value as_DType
           as_TensorShape as_ndarray];
      try reflexivity.
    + change (Return ?a ≫= ?k) with (k a); cbv beta. rewrite Hstep.
      destruct (forallb _ items); [|reflexivity].
      f_equal. destruct list_value. unfold ListValue_app, sequence_fields.
      cbn. by rewrite <- ?app_assoc.
    + unfold fits_int64, int64_field. cbn [as_int_value].
      destruct (in_int64 i); [|reflexivity].
      repeat (progress change (Return ?a ≫= ?k) with (k a); cbv beta). rewrite Hstep.
      destruct (forallb _ items); [|reflexivity].
      f_equal. destruct list_value. unfold ListValue_app, sequence_fields.
      cbn. by rewrite <- ?app_assoc.
    + change (Return ?a ≫= ?k) with (k a); cbv beta. rewrite Hstep.
      destruct (forallb _ items); [|reflexivity].
      f_equal. destruct list_value. unfold ListValue_app, sequence_fields.
      cbn. by rewrite <- ?app_assoc.
    + unfold fits_int64, int64_field. cbn [as_int_value]. rewrite fits_int64_bool.
      repeat (progress change (Return ?a ≫= ?k) with (k a); cbv beta). rewrite Hstep.
      destruct (forallb _ items); [|reflexivity].
      f_equal. destruct list_value. unfold ListValue_app, sequence_fields.
      cbn. by rewrite <- ?app_assoc.
    + change (Return ?a ≫= ?k) with (k a); cbv beta. rewrite Hstep.
      destruct (forallb _ items); [|reflexivity].
      f_equal. destruct list_value. unfold ListValue_app, sequence_fields.
      cbn. by rewrite <- ?app_assoc.
    + change (Return ?a ≫= ?k) with (k a); cbv beta. rewrite Hstep.
      destruct (forallb _ items); [|reflexivity].
      f_equal. destruct list_value. unfold ListValue_app, sequence_fields.
      cbn. by rewrite <- ?app_assoc.
    + change (Return ?a ≫= ?k) with (k a); cbv beta. rewrite Hstep.
      destruct (forallb _ items); [|reflexivity].
      f_equal. destruct list_value. unfold ListValue_app, sequence_fields.
      cbn. by rewrite <- ?app_assoc.
Qed.

Lemma encode_sequence value items :
  as_sequence value = Some items ->
  python_type_to_attr_value value
  = if forallb (fun x => has_list_elem_variant x && fits_int64 x) items
    then Return (AV_list (sequence_fields items)) else Raise ValueError.
Proof.
  intros Hv. unfold python_type_to_attr_value. rewrite Hv.
  destruct items as [|x items]; [reflexivity|].
  change (0 =? Z.of_nat (length (x :: items))) with false. cbv iota.
  rewrite encode_elems_fields, ListValue_app_empty_l.
  by destruct (forallb _ (x :: items)).
Qed.


Lemma omap_filter_none {A B} (f : A -> option B) (p : A -> bool) xs :
  (forall x, p x = true -> f x = None) -> omap f (List.filter p xs) = [].
Proof.
  intros Hf. induction xs as [|x xs IH]; [reflexivity|]. cbn [List.filter].
  destruct (p x) eqn:E; [|exact IH]. cbn. by rewrite (Hf x E).
Qed.

Lemma omap_filter_all {A B} (f : A -> option B) (p : A -> bool) xs :
  (forall x, p x = false -> f x = None) -> omap f (List.filter p xs) = omap f xs.
Proof.
  intros Hf. induction xs as [|x xs IH]; [reflexivity|]. cbn [List.filter].
  destruct (p x) eqn:E; cbn; [by rewrite IH|]. by rewrite (Hf x E).
Qed.

Lemma forallb_filter_app {A} (q p : A -> bool) xs :
  forallb q (List.filter p xs ++ List.filter (fun x => negb (p x)) xs) = forallb q xs.
Proof.
  rewrite forallb_app. induction xs as [|x xs IH]; [reflexivity|].
  cbn [List.filter forallb]. destruct (p x); cbn [negb forallb]; rewrite <- IH.
  - by rewrite andb_assoc.
  - destruct (q x); cbn; [done|]. by rewrite andb_false_r.
Qed.

(** The encoding does not record the order of elements of different
    types: a sequence and the sequence with its strings moved to the
    front have the same encoding. *)
Theorem encode_sequence_order (items : list pyvalue) :
  python_type_to_attr_value
    (VList (List.filter is_str_value items
            ++ List.filter (fun v => negb (is_str_value v)) items))
  = python_type_to_attr_value (VList items).
Proof.
  rewrite !(encode_sequence (VList _) _ eq_refl), forallb_filter_app.
  destruct (forallb _ items); [|reflexivity].
  do 2 f_equal. unfold sequence_fields. rewrite !omap_app.
  rewrite (omap_filter_all (fun v => as_bytes <$> as_str_value v) is_str_value)
    by (by intros []).
  rewrite (omap_filter_none (fun v => as_bytes <$> as_str_value v)
             (fun v => negb (is_str_value v))) by (by intros []).
  rewrite !(omap_filter_none _ is_str_value) by (by intros []).
  rewrite !(omap_filter_all _ (fun v => negb (is_str_value v))) by (by intros []).
  by rewrite app_nil_r.
Qed.

Example encode_sequence_order_example :
  python_type_to_attr_value (VList [VInt 1; VStr "a"; VBool true])
  = python_type_to_attr_value (VTuple [VStr "a"; VInt 1; VInt 1]).
Proof. reflexivity. Qed.

End CodecSequences.

Section CodecRoundTrip.
Context {TF : TensorFlow}.

(** What [decode(encode(v))] is for the values that are not sequences: a
    string (its text being UTF-8) and an integer that fits the [int64]
    field come back unchanged, and an integer that does not fit raises
    [ValueError]; a boolean comes back as the integer 0 or 1 (the test
    for [int] precedes the one for [bool]); a float comes back as the
    32-bit field holds it; a datatype, a shape and a dense constant come
    back through TensorFlow's own conversions; a value already in wire
    form is decoded as it is. *)
Theorem roundtrip_scalar :
  (forall s, utf8_valid (as_bytes s) = true -> roundtrip (VStr s) = Return (VStr s))
  /\ (forall i, roundtrip (VInt i)
                = if in_int64 i then Return (VInt i) else Raise ValueError)
  /\ (forall b, roundtrip (VBool b) = Return (VInt (Z.b2z b)))
  /\ (forall f, roundtrip (VFloat f) = Return (VFloat (float32 f)))
  /\ (forall d, roundtrip (VDType d)
                = Return (VDType (DType_of_enum (as_datatype_enum d))))
  /\ (forall sh, roundtrip (VTensorShape sh)
                 = Return (VTensorShape (TensorShape_of_proto (as_proto sh))))
  /\ (forall a, roundtrip (VNdarray a)
                = Return (VNdarray (make_ndarray (make_tensor_proto a))))
  /\ (forall a, roundtrip (VAttrValue a) = attr_value_to_python_type a)
  /\ roundtrip VOther = Raise ValueError.
Proof.
  repeat split; try reflexivity.
  - intros s Hs. unfold roundtrip. cbn. unfold as_str. rewrite Hs. cbn.
    unfold as_bytes. by rewrite string_of_list_byte_of_string.
  - intros i. unfold roundtrip. cbn. unfold int64_field. by destruct (in_int64 i).
  - intros b. unfold roundtrip. cbn. unfold int64_field. by rewrite fits_int64_bool.
Qed.

End CodecRoundTrip.
